(** * JuicePassProxy: the UDP relay engine and the wire-message codec

    A shallow embedding of [juicebox_mitm.py] (class [JuiceboxMITM]) and of
    the message codec exercised by [test_message.py].

    The relay is asynchronous Python.  Every [await] on the outside world
    (clock, bind, receive, send, sleep, transform callbacks) is answered by
    an oracle indexed by a tick counter kept in the state, so a run of the
    code is a pure function of the initial state and of the oracle.
    Exceptions are values; [try/except] is a handler on the result. *)

From Stdlib Require Import ZArith List String Ascii Bool Lia.
Import ListNotations.
Open Scope Z_scope.

Set Implicit Arguments.

Module Relay.

(** ** Data *)

Definition host := string.
Definition addr := (host * Z)%type.

Definition addr_eqb (a b : addr) : bool :=
  String.eqb (fst a) (fst b) && Z.eqb (snd a) (snd b).

Definition opt_addr_eqb (a : addr) (b : option addr) : bool :=
  match b with
  | Some b' => addr_eqb a b'
  | None => false
  end.

(** The three [ChildProcessError]s the class raises. *)
Inductive failure : Type :=
| UnableToStart
| UnableToSend
| MoreThanErrors (n : Z).

(** The exception classes the code names, raises or can meet. *)
Inductive exn : Type :=
| TimeoutError
| TransportClosed
| OSError (errno : option Z)
| ChildProcessError (f : failure)
| KeyError
| AttributeError
| CancelledError
| OtherError.

(** [isinstance(e, OSError)]: in Python [ChildProcessError] and
    [TimeoutError] are subclasses of [OSError];
    [asyncio_dgram.TransportClosed] derives from [Exception] and
    [CancelledError] from [BaseException]. *)
Definition is_OSError (e : exn) : bool :=
  match e with
  | OSError _ | ChildProcessError _ | TimeoutError => true
  | _ => false
  end.

(** [e.errno]: [None] for an [OSError] built from a single message. *)
Definition exn_errno (e : exn) : option Z :=
  match e with
  | OSError n => n
  | _ => None
  end.

(** What travels through the transform callbacks: datagram bytes, or the
    diagnostic string the handler composes after a failed forward. *)
Inductive payload : Type :=
| Bytes (b : string)
| Diagnostic (side : string) (dest : option addr) (code : string) (e : exn).

Definition socket := nat.

(** Observable effects, in the order they happen.  Durations are in
    milliseconds.  [lock_held] tells whether the task held
    [self._sending_lock] at that moment; [EError t now] is a call of
    [_add_error] that appended [t] and pruned against the clock reading
    [now]. *)
Inductive event : Type :=
| EBind (lock_held : bool) (ok : bool)
| ERecv
| ESend (data : payload) (to : option addr) (lock_held : bool)
| ESleep (ms : Z)
| ELocal (data : payload)
| ERemote (data : payload)
| EError (t : Z) (now : Z).

(** The mutable attributes of a [JuiceboxMITM] instance, the tick counter
    of the oracle and the trace of effects.  [mitm_loop_task] holds what
    [await self._mitm_loop()] returned: that coroutine only ever leaves by
    raising, so the attribute has no value other than [None].
    [sending_lock] is true while this task holds [self._sending_lock]. *)
Record state : Type := mkState {
  sending_lock : bool;
  dgram : option socket;
  juicebox_addr : option addr;
  mitm_loop_task : option Empty_set;
  error_count : Z;
  error_timestamp_list : list Z;
  tick : nat;
  trace : list event
}.

(** The state [__init__] leaves. *)
Definition init_state : state :=
  mkState false None None None 0 [] 0 [].

Definition set_dgram (d : option socket) (s : state) : state :=
  mkState (sending_lock s) d (juicebox_addr s) (mitm_loop_task s) (error_count s)
          (error_timestamp_list s) (tick s) (trace s).

Definition set_juicebox_addr (a : option addr) (s : state) : state :=
  mkState (sending_lock s) (dgram s) a (mitm_loop_task s) (error_count s)
          (error_timestamp_list s) (tick s) (trace s).

Definition set_errors (l : list Z) (n : Z) (s : state) : state :=
  mkState (sending_lock s) (dgram s) (juicebox_addr s) (mitm_loop_task s) n l
          (tick s) (trace s).

Definition set_lock (b : bool) (s : state) : state :=
  mkState b (dgram s) (juicebox_addr s) (mitm_loop_task s)
          (error_count s) (error_timestamp_list s) (tick s) (trace s).

Definition next_tick (s : state) : state :=
  mkState (sending_lock s) (dgram s) (juicebox_addr s) (mitm_loop_task s)
          (error_count s)
          (error_timestamp_list s) (S (tick s)) (trace s).

Definition log (e : event) (s : state) : state :=
  mkState (sending_lock s) (dgram s) (juicebox_addr s) (mitm_loop_task s)
          (error_count s)
          (error_timestamp_list s) (tick s) (trace s ++ [e]).

(** ** The state-and-exception monad *)

Inductive result (A : Type) : Type :=
| Ret (a : A) (s : state)
| Raise (e : exn) (s : state)
| OutOfFuel.

Arguments Raise {A} e s.
Arguments OutOfFuel {A}.

Definition M (A : Type) : Type := state -> result A.

Definition ret {A} (a : A) : M A := fun s => Ret a s.
Definition raise {A} (e : exn) : M A := fun s => Raise e s.

Definition bind {A B} (m : M A) (k : A -> M B) : M B :=
  fun s =>
    match m s with
    | Ret a s' => k a s'
    | Raise e s' => Raise e s'
    | OutOfFuel => OutOfFuel
    end.

(** [try: m except <classes accepted by catches> as e: h e]. *)
Definition try_except {A} (m : M A) (catches : exn -> bool)
           (h : exn -> M A) : M A :=
  fun s =>
    match m s with
    | Raise e s' => if catches e then h e s' else Raise e s'
    | r => r
    end.

(** [async with self._sending_lock: m], from the moment the lock can be
    taken: [_connect] enters it only after [locked()] has found the lock
    free, and [send_data] after its wait for the lock ([wait_for_lock]
    below).  [asyncio.Lock] is not re-entrant: a task that already holds
    it and has no deadline waits for ever. *)
Definition with_lock {A} (m : M A) : M A :=
  fun s =>
    if sending_lock s then OutOfFuel
    else
      match m (set_lock true s) with
      | Ret a s' => Ret a (set_lock false s')
      | Raise e s' => Raise e (set_lock false s')
      | OutOfFuel => OutOfFuel
      end.

Definition get : M state := fun s => Ret s s.
Definition modify (f : state -> state) : M unit := fun s => Ret tt (f s).

Declare Scope relay_scope.
Delimit Scope relay_scope with relay.
Notation "x <- m ;; k" := (bind m (fun x => k))
  (at level 61, m at next level, right associativity) : relay_scope.
Notation "m ;; k" := (bind m (fun _ => k))
  (at level 61, right associativity) : relay_scope.
Open Scope relay_scope.

(** ** Configuration and outside world *)

(** The constructor arguments and the constants of [const.py], which is
    not part of the sources at hand: they are parameters of the model. *)
Record config : Type := mkConfig {
  jpp_addr : addr;
  enelx_addr : addr;
  ignore_remote : bool;
  MAX_CONNECT_ATTEMPT : Z;
  MAX_ERROR_COUNT : Z;
  ERROR_LOOKBACK_MIN : Z
}.

(** The answers of the outside world, by tick.  [clock] is [time.time()]
    in milliseconds; [lock_locked] tells whether another task holds
    [self._sending_lock]; an [option exn] of [None] means the
    awaited operation completed. *)
Record world : Type := mkWorld {
  clock : nat -> Z;
  lock_locked : nat -> bool;
  bind_result : nat -> option exn;
  recv_result : nat -> (option payload * option addr) + exn;
  send_result : nat -> option exn;
  sleep_result : nat -> option exn;
  local_mitm_handler : nat -> payload -> payload + exn;
  remote_mitm_handler : nat -> payload -> payload + exn;
  errorcode : Z -> option string
}.

Definition HANDLER_TIMEOUT : Z := 10.
Definition RECV_TIMEOUT : Z := 120.
Definition SEND_DATA_TIMEOUT : Z := 10.
Definition SEND_DATA_RETRIES : Z := 3.

(** [errno.ETIMEDOUT], as on Linux. *)
Definition ETIMEDOUT : Z := 110.

Section Engine.

Variable cfg : config.
Variable w : world.

(** ** Primitive operations *)

(** [time.time()]. *)
Definition time_time : M Z :=
  fun s => Ret (clock w (tick s)) (next_tick s).

(** [await asyncio.sleep(ms)]. *)
Definition sleep (ms : Z) : M unit :=
  fun s =>
    let s' := next_tick (log (ESleep ms) s) in
    match sleep_result w (tick s) with
    | None => Ret tt s'
    | Some e => Raise e s'
    end.

(** [self._sending_lock.locked()]. *)
Definition sending_lock_locked : M bool :=
  fun s => Ret (sending_lock s || lock_locked w (tick s)) (next_tick s).

(** [self._dgram = await asyncio_dgram.bind(self._jpp_addr)]. *)
Definition dgram_bind : M unit :=
  fun s =>
    match bind_result w (tick s) with
    | None =>
        Ret tt (set_dgram (Some (tick s))
                  (next_tick (log (EBind (sending_lock s) true) s)))
    | Some e => Raise e (next_tick (log (EBind (sending_lock s) false) s))
    end.

(** ** [_add_error] (lines 228-236) *)

(** The clock is read twice, once for the timestamp appended and once
    for the cutoff; the look-back of ERROR_LOOKBACK_MIN minutes is 60 000
    clock units each.  The last line stands where the source writes its
    debug line and keeps in the trace what was recorded. *)
Definition time_cutoff_of (now : Z) : Z :=
  now - ERROR_LOOKBACK_MIN cfg * 60000.

Definition _add_error : M unit :=
  t <- time_time ;;
  modify (fun s =>
            set_errors (error_timestamp_list s ++ [t]) (error_count s) s) ;;
  now <- time_time ;;
  let time_cutoff := time_cutoff_of now in
  modify (fun s =>
            let temp_list :=
              filter (fun el => time_cutoff <? el) (error_timestamp_list s) in
            set_errors temp_list (Z.of_nat (List.length temp_list)) s) ;;
  modify (log (EError t now)).

(** ** [_connect] (lines 61-92) *)

(** One turn of the [while] loop: the guarded bind, then the 5 s sleep. *)
Definition connect_attempt_body : M unit :=
  try_except
    (locked <- sending_lock_locked ;;
     if locked then dgram_bind else with_lock dgram_bind)
    is_OSError
    (fun _ => _add_error ;; modify (set_dgram None)) ;;
  sleep 5000.

Definition connect_guard (connect_attempt : Z) (s : state) : bool :=
  match dgram s with None => true | Some _ => false end
  && (connect_attempt <=? MAX_CONNECT_ATTEMPT cfg)
  && (error_count s <? MAX_ERROR_COUNT cfg).

(** The [while] loop; [n] bounds the number of turns and is chosen by
    [_connect] so that it never runs out. *)
Fixpoint connect_loop (n : nat) (connect_attempt : Z) : M unit :=
  s <- get ;;
  if connect_guard connect_attempt s then
    match n with
    | O => fun _ => OutOfFuel
    | S n' => connect_attempt_body ;; connect_loop n' (connect_attempt + 1)
    end
  else ret tt.

(** [_connect], given the receive loop it starts once a socket is held. *)
Definition _connect (mitm_loop : M Empty_set) : M unit :=
  connect_loop (Z.to_nat (MAX_CONNECT_ATTEMPT cfg)) 1 ;;
  s <- get ;;
  match dgram s with
  | None => raise (ChildProcessError UnableToStart)
  | Some _ =>
      match mitm_loop_task s with
      | None => t <- mitm_loop ;; match t return M unit with end
      | Some t => match t return M unit with end
      end
  end.

(** ** [send_data] (lines 177-212) *)

(** [await self._dgram.send(data, to_addr)]; with no socket the attribute
    lookup on [None] fails.  A [TimeoutError] of the oracle is the expiry
    of [asyncio.timeout(SEND_DATA_TIMEOUT)] during the transmission. *)
Definition dgram_send (data : payload) (to : option addr) : M unit :=
  fun s =>
    match dgram s with
    | None => Raise AttributeError s
    | Some _ =>
        let s' := next_tick (log (ESend data to (sending_lock s)) s) in
        match send_result w (tick s) with
        | None => Ret tt s'
        | Some e => Raise e s'
        end
    end.

Definition is_TransportClosed (e : exn) : bool :=
  match e with TransportClosed => true | _ => false end.

(** [except TimeoutError]: the class, which is also the one Python gives
    an [OSError] built with the errno ETIMEDOUT. *)
Definition is_TimeoutError (e : exn) : bool :=
  match e with
  | TimeoutError => true
  | OSError (Some n) => n =? ETIMEDOUT
  | _ => false
  end.

(** The wait for the lock of [async with self._sending_lock] (line 193),
    inside the deadline of [asyncio.timeout(SEND_DATA_TIMEOUT)].  A free
    lock is taken at once.  While another task holds it the call waits,
    and the oracle tells how the turn ends: when [send_result] is the
    expiry of the deadline and the lock is held by another task at this
    step, the deadline has passed during the wait, and nothing was
    transmitted.  A lock that this task holds itself is never released
    to it, so that wait ends at the deadline too. *)
Definition deadline_passes_waiting (s : state) : bool :=
  sending_lock s
  || (lock_locked w (tick s)
      && match send_result w (tick s) with
         | Some TimeoutError => true
         | _ => false
         end).

Definition wait_for_lock : M unit :=
  fun s =>
    if deadline_passes_waiting s then Raise TimeoutError (next_tick s)
    else Ret tt s.

(** The lock and the inner [try/except/else]; the value is [sent]. *)
Definition transmit (data : payload) (to : option addr) : M bool :=
  wait_for_lock ;;
  with_lock
    (try_except
       (dgram_send data to ;; ret true)
       is_TransportClosed
       (fun _ => _add_error ;; modify (set_dgram None) ;; ret false)).

(** One turn of the [while] loop of [send_data]; the value is [sent]. *)
Definition send_attempt_body (connect : M unit) (data : payload)
           (to : option addr) (blocking_time : Z) : M bool :=
  s <- get ;;
  match dgram s with
  | None => connect
  | Some _ => ret tt
  end ;;
  sent <- try_except (transmit data to) is_TimeoutError
            (fun _ => _add_error ;; ret false) ;;
  sleep (Z.max blocking_time 100) ;;
  ret sent.

Fixpoint send_loop (n : nat) (connect : M unit) (data : payload)
         (to : option addr) (blocking_time : Z)
         (sent : bool) (send_attempt : Z) : M bool :=
  if negb sent && (send_attempt <=? SEND_DATA_RETRIES) then
    match n with
    | O => fun _ => OutOfFuel
    | S n' =>
        sent' <- send_attempt_body connect data to blocking_time ;;
        send_loop n' connect data to blocking_time sent' (send_attempt + 1)
    end
  else ret sent.

Definition send_data (connect : M unit) (data : payload)
           (to : option addr) (blocking_time : Z) : M unit :=
  sent <- send_loop (Z.to_nat SEND_DATA_RETRIES) connect data to
            blocking_time false 1 ;;
  if sent then ret tt else raise (ChildProcessError UnableToSend).

(** ** [_main_mitm_handler] (lines 134-175) *)

Definition call_local (data : payload) : M payload :=
  fun s =>
    let s' := next_tick (log (ELocal data) s) in
    match local_mitm_handler w (tick s) data with
    | inl d => Ret d s'
    | inr e => Raise e s'
    end.

Definition call_remote (data : payload) : M payload :=
  fun s =>
    let s' := next_tick (log (ERemote data) s) in
    match remote_mitm_handler w (tick s) data with
    | inl d => Ret d s'
    | inr e => Raise e s'
    end.

(** [errno.errorcode[e.errno]]: a dictionary lookup, [KeyError] when the
    key is absent, as it is for [None]. *)
Definition errorcode_of (e : exn) : M string :=
  match exn_errno e with
  | Some n =>
      match errorcode w n with
      | Some c => ret c
      | None => raise KeyError
      end
  | None => raise KeyError
  end.

(** The body of both [except OSError as e] clauses: the warning (whose
    text needs the error code), the diagnostic to the local transform,
    the fault. *)
Definition on_send_OSError (side : string) (dest : option addr)
           (e : exn) : M unit :=
  code <- errorcode_of e ;;
  _ <- call_local (Diagnostic side dest code e) ;;
  _add_error.

(** Lines 143-156: traffic of the device goes through the local
    transform and on to the cloud. *)
Definition forward_to_cloud (send : payload -> option addr -> M unit)
           (data : payload) : M unit :=
  data <- call_local data ;;
  if negb (ignore_remote cfg) then
    try_except (send data (Some (enelx_addr cfg))) is_OSError
      (on_send_OSError "server" (Some (enelx_addr cfg)))
  else ret tt.

(** Lines 158-173: traffic of the cloud goes through the remote
    transform and on to the device. *)
Definition forward_to_device (send : payload -> option addr -> M unit)
           (data : payload) : M unit :=
  if negb (ignore_remote cfg) then
    data <- call_remote data ;;
    s1 <- get ;;
    try_except (send data (juicebox_addr s1)) is_OSError
      (fun e => s2 <- get ;;
                on_send_OSError "client" (juicebox_addr s2) e)
  else ret tt.

Definition _main_mitm_handler (send : payload -> option addr -> M unit)
           (data : option payload) (from_addr : option addr) : M unit :=
  match data, from_addr with
  | Some data, Some from_addr =>
      (if negb (String.eqb (fst from_addr) (fst (enelx_addr cfg)))
       then modify (set_juicebox_addr (Some from_addr))
       else ret tt) ;;
      s <- get ;;
      if opt_addr_eqb from_addr (juicebox_addr s) then
        forward_to_cloud send data
      else
        if match juicebox_addr s with Some _ => true | None => false end
           && addr_eqb from_addr (enelx_addr cfg)
        then forward_to_device send data
        else ret tt
  | _, _ => ret tt
  end.

(** ** [_mitm_loop] (lines 94-132) *)

(** [data, remote_addr = await self._dgram.recv()] under
    [asyncio.timeout(RECV_TIMEOUT)]; the oracle answers [TimeoutError]
    when the deadline passes. *)
Definition dgram_recv : M (option payload * option addr) :=
  fun s =>
    let s' := next_tick (log ERecv s) in
    match recv_result w (tick s) with
    | inl x => Ret x s'
    | inr e => Raise e s'
    end.

(** [async with asyncio.timeout(HANDLER_TIMEOUT)]: when the deadline
    passes the task is cancelled at its current [await], and the
    [CancelledError] that reaches the context manager leaves it as
    [TimeoutError]. *)
Definition with_handler_timeout {A} (m : M A) : M A :=
  fun s =>
    match m s with
    | Raise CancelledError s' => Raise TimeoutError s'
    | r => r
    end.

Definition is_closed_or_timeout (e : exn) : bool :=
  is_TransportClosed e || is_TimeoutError e.

Fixpoint _mitm_loop (fuel : nat) : M Empty_set :=
  match fuel with
  | O => fun _ => OutOfFuel
  | S fuel' =>
      let connect := _connect (_mitm_loop fuel') in
      let send := fun d t => send_data connect d t 100 in
      s <- get ;;
      if error_count s <? MAX_ERROR_COUNT cfg then
        match dgram s with
        | None => _add_error ;; connect ;; _mitm_loop fuel'
        | Some _ =>
            r <- try_except (x <- dgram_recv ;; ret (Some x))
                   is_closed_or_timeout
                   (fun _ => _add_error ;; modify (set_dgram None) ;;
                             ret None) ;;
            match r with
            | None => _mitm_loop fuel'
            | Some (data, remote_addr) =>
                try_except
                  (with_handler_timeout
                     (_main_mitm_handler send data remote_addr))
                  is_TimeoutError
                  (fun _ => _add_error ;; modify (set_dgram None)) ;;
                _mitm_loop fuel'
            end
        end
      else
        raise (ChildProcessError (MoreThanErrors (error_count s)))
  end.

(** [_connect] and [send_data] with the loop they re-enter, and
    [start]. *)
Definition connect (fuel : nat) : M unit := _connect (_mitm_loop fuel).

Definition send_data_to (fuel : nat) (data : payload) (to : option addr)
           (blocking_time : Z) : M unit :=
  send_data (connect fuel) data to blocking_time.

Definition main_mitm_handler (fuel : nat) (data : option payload)
           (from_addr : option addr) : M unit :=
  _main_mitm_handler (fun d t => send_data_to fuel d t 100) data from_addr.

Definition start (fuel : nat) : M unit := connect fuel.

End Engine.

(** ** Vocabulary of the statements *)

(** A run keeps [I], and what it raises satisfies [E]; a run that has not
    ended within its fuel is not constrained. *)
Definition okr (I : state -> Prop) (E : exn -> state -> Prop)
           {A} (r : result A) : Prop :=
  match r with
  | Ret _ s => I s
  | Raise e s => I s /\ E e s
  | OutOfFuel => True
  end.

Definition inv (I : state -> Prop) (E : exn -> state -> Prop)
           {A} (m : M A) : Prop :=
  forall s, I s -> okr I E (m s).

(** As [okr], with a condition [Q] on the value returned. *)
Definition okq {A} (Q : A -> state -> Prop) (I : state -> Prop)
           (E : exn -> state -> Prop) (r : result A) : Prop :=
  match r with
  | Ret a s => Q a s
  | Raise e s => I s /\ E e s
  | OutOfFuel => True
  end.

(** The timestamps ever handed to [_add_error], oldest first. *)
Fixpoint faults (tr : list event) : list Z :=
  match tr with
  | [] => []
  | EError t _ :: r => t :: faults r
  | _ :: r => faults r
  end.

(** The clock reading of the latest pruning. *)
Fixpoint last_now_from (acc : option Z) (tr : list event) : option Z :=
  match tr with
  | [] => acc
  | EError _ now :: r => last_now_from (Some now) r
  | _ :: r => last_now_from acc r
  end.

Definition last_now (tr : list event) : option Z := last_now_from None tr.

(** The faults of the run that were newer than the look-back at the
    latest pruning. *)
Definition faults_in_window (cfg : config) (tr : list event) : list Z :=
  match last_now tr with
  | None => []
  | Some now => filter (fun t => time_cutoff_of cfg now <? t) (faults tr)
  end.

(** The exceptions the class itself raises, with the state in which it
    raises them. *)
Definition engine_raises (cfg : config) (e : exn) (s : state) : Prop :=
  e = ChildProcessError UnableToStart \/
  e = ChildProcessError UnableToSend \/
  e = KeyError \/ e = AttributeError \/ e = TimeoutError \/
  (e = ChildProcessError (MoreThanErrors (error_count s)) /\
   MAX_ERROR_COUNT cfg <= error_count s).

(** The outside world raises no [ChildProcessError] of its own. *)
Definition is_failure (e : exn) : bool :=
  match e with ChildProcessError _ => true | _ => false end.

Definition raises_failure (o : option exn) : bool :=
  match o with Some e => is_failure e | None => false end.

Definition world_raises_no_failure (w : world) : Prop :=
  forall k,
    raises_failure (bind_result w k) = false /\
    raises_failure (send_result w k) = false /\
    raises_failure (sleep_result w k) = false /\
    (forall e, recv_result w k = inr e -> is_failure e = false) /\
    (forall d e, local_mitm_handler w k d = inr e -> is_failure e = false) /\
    (forall d e, remote_mitm_handler w k d = inr e -> is_failure e = false).

Definition clock_monotone (w : world) : Prop :=
  forall j k, (j <= k)%nat -> clock w j <= clock w k.

(** The fault record agrees with the history of the run: the list holds
    the faults that were inside the window at the latest pruning, the
    error count is its length, and that pruning used a clock reading
    already taken. *)
Definition consistent (cfg : config) (w : world) (s : state) : Prop :=
  error_timestamp_list s = faults_in_window cfg (trace s) /\
  error_count s = Z.of_nat (List.length (error_timestamp_list s)) /\
  (forall now, last_now (trace s) = Some now ->
               exists k, (k < tick s)%nat /\ now = clock w k).

(** A [ChildProcessError] that leaves a run is one of the class's own: in
    particular the breaker failure carries the error count and is raised
    only at or above the maximum. *)
Definition breaker_exn (cfg : config) (e : exn) (s : state) : Prop :=
  is_failure e = true ->
  engine_raises cfg e s.

(** Transmissions are made with the lock held. *)
Definition send_locked (e : event) : bool :=
  match e with
  | ESend _ _ held => held
  | _ => true
  end.

Definition bind_locked (e : event) : bool :=
  match e with
  | EBind held _ => held
  | _ => true
  end.

Definition is_send (e : event) : bool :=
  match e with ESend _ _ _ => true | _ => false end.

Definition is_bind (e : event) : bool :=
  match e with EBind _ _ => true | _ => false end.

Definition is_recv (e : event) : bool :=
  match e with ERecv => true | _ => false end.

Definition count_events (p : event -> bool) (tr : list event) : nat :=
  List.length (filter p tr).

(** [k] bind attempts that failed with an [OSError]: each is followed by
    the recording of a fault and by the 5 s sleep. *)
Inductive failed_binds : nat -> list event -> Prop :=
| failed_binds_nil : failed_binds 0 []
| failed_binds_cons h t now k tr :
    failed_binds k tr ->
    failed_binds (S k) (EBind h false :: EError t now :: ESleep 5000 :: tr).

(** The lock at a bind of [_connect]: held because this task holds it
    already, or taken because [locked()] found it free. *)
Definition bind_holds_lock (w : world) (s : state) : bool :=
  sending_lock s || negb (lock_locked w (tick s)).

(** What a turn of the bind loop leaves untouched. *)
Definition same_but_socket (s s' : state) : Prop :=
  sending_lock s' = sending_lock s /\
  juicebox_addr s' = juicebox_addr s /\
  mitm_loop_task s' = mitm_loop_task s.

Definition same_faults (s s' : state) : Prop :=
  error_timestamp_list s' = error_timestamp_list s /\
  error_count s' = error_count s.

(** A turn begun in [s] whose bind succeeded: the socket is the one
    bound, the 5 s sleep was started. *)
Definition turn_bound (w : world) (s s' : state) : Prop :=
  tick s' = (tick s + 3)%nat /\
  dgram s' = Some (S (tick s)) /\
  trace s' = trace s ++ [EBind (bind_holds_lock w s) true; ESleep 5000] /\
  same_faults s s' /\ same_but_socket s s'.

(** A turn begun in [s] whose bind failed with an [OSError]: the fault
    was recorded, no socket is held, the 5 s sleep was started. *)
Definition turn_failed (cfg : config) (w : world) (s s' : state) : Prop :=
  tick s' = (tick s + 5)%nat /\
  dgram s' = None /\
  trace s' =
    trace s ++ [EBind (bind_holds_lock w s) false;
                EError (clock w (tick s + 2)) (clock w (tick s + 3));
                ESleep 5000] /\
  error_timestamp_list s' =
    filter (fun el => time_cutoff_of cfg (clock w (tick s + 3)) <? el)
           (error_timestamp_list s ++ [clock w (tick s + 2)]) /\
  error_count s' = Z.of_nat (List.length (error_timestamp_list s')) /\
  same_but_socket s s'.

(** A turn begun in [s] whose bind raised something else: nothing but
    the attempt has happened. *)
Definition turn_broken (w : world) (s s' : state) : Prop :=
  tick s' = (tick s + 2)%nat /\
  dgram s' = dgram s /\
  trace s' = trace s ++ [EBind (bind_holds_lock w s) false] /\
  same_faults s s' /\ same_but_socket s s'.

(** How a turn of the bind loop begun in [s] ends, read off the oracle:
    the bind is the second step of the turn, after [locked()]. *)
Definition ends_turn (cfg : config) (w : world) (s : state)
           (r : result unit) : Prop :=
  match bind_result w (S (tick s)) with
  | None =>
      exists s', turn_bound w s s' /\
                 r = match sleep_result w (tick s + 2) with
                     | None => Ret tt s'
                     | Some e => Raise e s'
                     end
  | Some e =>
      if is_OSError e then
        exists s', turn_failed cfg w s s' /\
                   r = match sleep_result w (tick s + 4) with
                       | None => Ret tt s'
                       | Some e' => Raise e' s'
                       end
      else exists s', turn_broken w s s' /\ r = Raise e s'
  end.

(** The turn begun in [s] at attempt [a] is one the loop makes, its bind
    fails with an [OSError] and its sleep returns: the loop goes on from
    [s']. *)
Definition failed_turn (cfg : config) (w : world) (a : Z)
           (s s' : state) : Prop :=
  connect_guard cfg a s = true /\
  (exists e, bind_result w (S (tick s)) = Some e /\ is_OSError e = true) /\
  sleep_result w (tick s + 4) = None /\
  turn_failed cfg w s s'.

Inductive failed_turns (cfg : config) (w : world) :
  nat -> Z -> state -> state -> Prop :=
| failed_turns_O a s : failed_turns cfg w 0 a s s
| failed_turns_S k a s s1 s' :
    failed_turn cfg w a s s1 ->
    failed_turns cfg w k (a + 1) s1 s' ->
    failed_turns cfg w (S k) a s s'.

(** [_connect] after its loop has ended in [s']: "unable to start"
    without a socket, the receive loop with one. *)
Definition after_connect_loop (loop : M Empty_set) (s' : state)
  : result unit :=
  match dgram s' with
  | None => Raise (ChildProcessError UnableToStart) s'
  | Some _ =>
      match loop s' with
      | Ret t _ => match t with end
      | Raise e s'' => Raise e s''
      | OutOfFuel => OutOfFuel
      end
  end.

(** [_add_error] has run at the steps [k] and [k + 1] of the clock. *)
Definition fault_recorded (cfg : config) (w : world) (k : nat)
           (s s' : state) : Prop :=
  error_timestamp_list s' =
    filter (fun el => time_cutoff_of cfg (clock w (S k)) <? el)
           (error_timestamp_list s ++ [clock w k]) /\
  error_count s' = Z.of_nat (List.length (error_timestamp_list s')).

(** How a turn of [send_data] begun in [s] with a socket fails, if it
    does, read off the oracle: whether a transmission was made, and
    whether the socket is kept.  The deadline passed while waiting for
    the lock: no transmission, socket kept.  The transport was closed:
    socket dropped.  The transmission ran into a timeout: socket kept. *)
Definition send_turn_fault (w : world) (s : state) : option (bool * bool) :=
  if deadline_passes_waiting w s then Some (false, true)
  else
    match send_result w (tick s) with
    | Some e =>
        if is_TransportClosed e then Some (true, false)
        else if is_TimeoutError e then Some (true, true)
        else None
    | None => None
    end.

(** A turn that failed: the transmission if one was made, the fault
    recorded, the sleep of [ms] started. *)
Definition turn_faulted (cfg : config) (w : world) (d : payload)
           (t : option addr) (ms : Z) (transmitted keeps : bool)
           (s s' : state) : Prop :=
  tick s' = (tick s + 4)%nat /\
  trace s' =
    trace s ++ (if transmitted then [ESend d t true] else [])
            ++ [EError (clock w (tick s + 1)) (clock w (S (tick s + 1)));
                ESleep ms] /\
  dgram s' = (if keeps then dgram s else None) /\
  fault_recorded cfg w (tick s + 1) s s' /\
  same_but_socket s s'.

(** A turn whose transmission went through: one transmission under the
    lock, the sleep of [ms] started, nothing else changed. *)
Definition turn_sent (d : payload) (t : option addr) (ms : Z)
           (s s' : state) : Prop :=
  tick s' = (tick s + 2)%nat /\
  trace s' = trace s ++ [ESend d t true; ESleep ms] /\
  dgram s' = dgram s /\
  same_faults s s' /\ same_but_socket s s'.

(** A turn whose transmission raised something else: nothing but the
    transmission has happened. *)
Definition turn_send_broken (d : payload) (t : option addr)
           (s s' : state) : Prop :=
  tick s' = (tick s + 1)%nat /\
  trace s' = trace s ++ [ESend d t true] /\
  dgram s' = dgram s /\
  same_faults s s' /\ same_but_socket s s'.

(** The sleep that ends a turn, made at step [k]: the turn returns
    [sent], or raises what the sleep raises. *)
Definition after_sleep (w : world) (k : nat) (sent : bool) (s' : state)
  : result bool :=
  match sleep_result w k with
  | None => Ret sent s'
  | Some e => Raise e s'
  end.

(** How a turn of [send_data] begun in [s] with a socket ends, read off
    the oracle. *)
Definition ends_send_turn (cfg : config) (w : world) (d : payload)
           (t : option addr) (ms : Z) (s : state) (r : result bool)
  : Prop :=
  match send_turn_fault w s with
  | Some (transmitted, keeps) =>
      exists s', turn_faulted cfg w d t ms transmitted keeps s s' /\
                 r = after_sleep w (tick s + 3) false s'
  | None =>
      match send_result w (tick s) with
      | None =>
          exists s', turn_sent d t ms s s' /\
                     r = after_sleep w (tick s + 1) true s'
      | Some e => exists s', turn_send_broken d t s s' /\ r = Raise e s'
      end
  end.

(** The turn begun in [s] holds a socket, fails, and its sleep returns:
    the loop goes on from [s']. *)
Definition failed_send_turn (cfg : config) (w : world) (d : payload)
           (t : option addr) (ms : Z) (s s' : state) : Prop :=
  dgram s <> None /\
  exists transmitted keeps,
    send_turn_fault w s = Some (transmitted, keeps) /\
    sleep_result w (tick s + 3) = None /\
    turn_faulted cfg w d t ms transmitted keeps s s'.

Inductive failed_send_turns (cfg : config) (w : world) (d : payload)
          (t : option addr) (ms : Z) : nat -> state -> state -> Prop :=
| failed_send_turns_O s : failed_send_turns cfg w d t ms 0 s s
| failed_send_turns_S k s s1 s' :
    failed_send_turn cfg w d t ms s s1 ->
    failed_send_turns cfg w d t ms k s1 s' ->
    failed_send_turns cfg w d t ms (S k) s s'.

(** What a run has appended to the trace of [s0] satisfies [p]. *)
Definition extends_with (p : event -> bool) (s0 s : state) : Prop :=
  exists new, trace s = trace s0 ++ new /\ forallb p new = true.

Definition no_exn_constraint (_ : exn) (_ : state) : Prop := True.

(** The device address is [a] for as long as no datagram beyond the first
    [n0] has been received. *)
Definition learned (n0 : nat) (a : addr) (s : state) : Prop :=
  (n0 <= count_events is_recv (trace s))%nat /\
  (count_events is_recv (trace s) = n0 -> juicebox_addr s = Some a).

(** ** The rest of the class *)

Section Surface.

Variable cfg : config.
Variable w : world.

(** [close] (lines 55-59).  [self._dgram.close()] releases the socket; it
    awaits nothing and touches no attribute, so what remains of it here
    is the assignment that follows it. *)
Definition close : M unit :=
  s <- get ;;
  match dgram s with
  | Some _ => modify (set_dgram None) ;; sleep w 3000
  | None => ret tt
  end.

(** [send_data_to_juicebox] (lines 216-217): [send_data] to whatever
    [self._juicebox_addr] holds, with the default delay. *)
Definition send_data_to_juicebox (fuel : nat) (data : payload) : M unit :=
  s <- get ;;
  send_data_to cfg w fuel data (juicebox_addr s) 100.

End Surface.

(** ** More vocabulary *)

(** The error count is the length of the fault list. *)
Definition count_is_length (s : state) : Prop :=
  error_count s = Z.of_nat (List.length (error_timestamp_list s)).

(** The device address, when there is one, is not on the host of the
    cloud. *)
Definition device_apart (cfg : config) (s : state) : Prop :=
  forall a, juicebox_addr s = Some a ->
            String.eqb (fst a) (fst (enelx_addr cfg)) = false.

Definition is_bind_ok (e : event) : bool :=
  match e with EBind _ true => true | _ => false end.

(** [sends_after_bind b tr]: every transmission in [tr] comes after a
    successful bind, [b] telling whether one came before [tr]. *)
Fixpoint sends_after_bind (b : bool) (tr : list event) : bool :=
  match tr with
  | [] => true
  | e :: r =>
      if is_send e then b && sends_after_bind b r
      else sends_after_bind (b || is_bind_ok e) r
  end.

(** A socket is held only after a successful bind, and transmissions are
    made only after one. *)
Definition bound_first (s : state) : Prop :=
  (dgram s <> None -> existsb is_bind_ok (trace s) = true) /\
  sends_after_bind false (trace s) = true.

(** The fault record is empty. *)
Definition no_faults (s : state) : Prop :=
  error_timestamp_list s = [] /\ error_count s = 0.

(** [P] holds of the state in which any call of the class ends, when
    made in state [s]: [start], the datagram handler, [send_data],
    [send_data_to_juicebox], [close] and the receive loop; [Q] holds of
    what the call raises. *)
Definition every_run (cfg : config) (w : world) (fuel : nat) (s : state)
           (P : state -> Prop) (Q : exn -> state -> Prop) : Prop :=
  okr P Q (start cfg w fuel s) /\
  (forall d a, okr P Q (main_mitm_handler cfg w fuel d a s)) /\
  (forall d t b, okr P Q (send_data_to cfg w fuel d t b s)) /\
  (forall d, okr P Q (send_data_to_juicebox cfg w fuel d s)) /\
  okr P Q (close w s) /\
  okr P Q (_mitm_loop cfg w fuel s).

(** Neither a transmission nor a call of the remote transform. *)
Definition inbound_only (e : event) : bool :=
  match e with
  | ESend _ _ _ | ERemote _ => false
  | _ => true
  end.

(** The failures the code prepares for: a bind fails with an [OSError];
    a transmission with a closed transport, a timeout, or an [OSError]
    whose errno has a name; a receive with a closed transport or a
    timeout; a transform by running into the handler's deadline; a sleep
    does not fail. *)
Definition named_OSError (w : world) (e : exn) : Prop :=
  exists n c, e = OSError (Some n) /\ errorcode w n = Some c.

Definition deadline (e : exn) : Prop :=
  e = TimeoutError \/ e = CancelledError.

Definition expected_failures (w : world) : Prop :=
  forall k,
    (forall e, bind_result w k = Some e -> is_OSError e = true) /\
    (forall e, send_result w k = Some e ->
               e = TransportClosed \/ e = TimeoutError \/
               named_OSError w e) /\
    sleep_result w k = None /\
    (forall e, recv_result w k = inr e -> is_closed_or_timeout e = true) /\
    (forall d e, local_mitm_handler w k d = inr e -> deadline e) /\
    (forall d e, remote_mitm_handler w k d = inr e -> deadline e).

(** The exceptions with which the receive loop ends. *)
Definition ends_the_loop (e : exn) : Prop :=
  e = ChildProcessError UnableToStart \/ e = KeyError \/
  exists n, e = ChildProcessError (MoreThanErrors n).

(** What [send_data] raises: what its reconnect raises, "unable to
    send", or an [OSError] of the socket. *)
Definition from_send (w : world) (e : exn) : Prop :=
  ends_the_loop e \/ e = ChildProcessError UnableToSend \/
  named_OSError w e.

(** What the handler raises: the [KeyError] of its own [except]
    clause, or the deadline met in a transform. *)
Definition from_handler (e : exn) : Prop := e = KeyError \/ deadline e.

(** What a call raises, if it raises, satisfies [P]. *)
Definition raises_only {A} (P : exn -> Prop) (r : result A) : Prop :=
  match r with
  | Raise e _ => P e
  | _ => True
  end.

(** The timestamps are in the order of the clock. *)
Fixpoint ascending (l : list Z) : Prop :=
  match l with
  | [] => True
  | t :: r => Forall (fun u => t <= u) r /\ ascending r
  end.

(** The fault list is in the order of the clock, and holds no timestamp
    later than the clock's current reading. *)
Definition in_time_order (w : world) (s : state) : Prop :=
  ascending (error_timestamp_list s) /\
  Forall (fun t => t <= clock w (tick s)) (error_timestamp_list s).

(** The exception is not the breaker failure. *)
Definition not_breaker (e : exn) (_ : state) : Prop :=
  forall n, e <> ChildProcessError (MoreThanErrors n).

End Relay.

(** * The wire-message codec *)

Module Codec.

Open Scope string_scope.

(** ** Text helpers *)

Definition is_digit (c : ascii) : bool :=
  let n := nat_of_ascii c in (Nat.leb 48 n && Nat.leb n 57)%bool.

Definition is_alpha (c : ascii) : bool :=
  let n := nat_of_ascii c in
  ((Nat.leb 65 n && Nat.leb n 90) || (Nat.leb 97 n && Nat.leb n 122))%bool.

(** The longest prefix whose characters satisfy [p], and the rest. *)
Fixpoint span (p : ascii -> bool) (s : string) : string * string :=
  match s with
  | EmptyString => (EmptyString, EmptyString)
  | String c r =>
      if p c then let (a, b) := span p r in (String c a, b)
      else (EmptyString, s)
  end.

(** [s] without its prefix [pre], when it has it. *)
Fixpoint strip_prefix (pre s : string) : option string :=
  match pre, s with
  | EmptyString, _ => Some s
  | String a pre', String b s' =>
      if Ascii.eqb a b then strip_prefix pre' s' else None
  | String _ _, EmptyString => None
  end.

(** The first [n] characters and the rest, when there are [n]. *)
Fixpoint take_exact (n : nat) (s : string) : option (string * string) :=
  match n, s with
  | O, _ => Some (EmptyString, s)
  | S n', String c r =>
      match take_exact n' r with
      | Some (a, b) => Some (String c a, b)
      | None => None
      end
  | S _, EmptyString => None
  end.

Fixpoint all_chars (p : ascii -> bool) (s : string) : bool :=
  match s with
  | EmptyString => true
  | String c r => (p c && all_chars p r)%bool
  end.

(** The text before the first [sep] and the text after it. *)
Fixpoint break_on (sep : ascii) (s : string) : option (string * string) :=
  match s with
  | EmptyString => None
  | String c r =>
      if Ascii.eqb c sep then Some (EmptyString, r)
      else match break_on sep r with
           | Some (a, b) => Some (String c a, b)
           | None => None
           end
  end.

(** [s.split(sep)] and [sep.join(l)]. *)
Fixpoint split_on (sep : ascii) (s : string) : list string :=
  match s with
  | EmptyString => [EmptyString]
  | String c r =>
      if Ascii.eqb c sep then EmptyString :: split_on sep r
      else match split_on sep r with
           | x :: xs => String c x :: xs
           | [] => [String c EmptyString]
           end
  end.

Fixpoint join (sep : ascii) (l : list string) : string :=
  match l with
  | [] => EmptyString
  | [x] => x
  | x :: xs => x ++ String sep (join sep xs)
  end.

(** ** Messages *)

(** Modelled from the spec: the class [JuiceboxCommand] of
    [juicebox_message.py], which is not among the sources; the fields
    follow section 3 of the specification and the attributes
    [test_message.py] reads, and keep their wire text. *)
Record command : Type := mkCommand {
  new_version : bool;
  DOW : string;
  HHMM : string;
  instant_amperage : string;
  offline_amperage : string;
  command_field : string;
  counter : string;
  command_checksum_str : string
}.

(** Modelled from the spec: the status message class of the absent
    [juicebox_message.py]: the serial number, the tokens as (key, value)
    pairs in wire order, and the checksum. *)
Record status : Type := mkStatus {
  serial : string;
  tokens : list (string * string);
  status_checksum_str : string
}.

(** Modelled from the spec: the three message shapes of the absent
    [juicebox_message.py]. *)
Inductive message : Type :=
| JuiceboxCommand (c : command)
| JuiceboxStatusMessage (m : status)
| JuiceboxEncryptedMessage (raw : list Byte.byte).

(** Modelled from the spec: the outcome of classification, a message or
    the [JuiceboxInvalidMessageFormat] failure of the absent
    [juicebox_exceptions.py]. *)
Inductive parsed : Type :=
| Parsed (m : message)
| JuiceboxInvalidMessageFormat.

Definition opt_bind {A B} (o : option A) (k : A -> option B) : option B :=
  match o with
  | Some a => k a
  | None => None
  end.

Notation "'let?' x := o 'in' k" := (opt_bind o (fun x => k))
  (at level 10, x pattern, k at level 200).

Definition guard (b : bool) : option unit :=
  if b then Some tt else None.

Section WithChecksum.

(** Modelled from the spec: [checksum_computed] of the absent
    [juicebox_message.py].  The specification does not give the algorithm
    and only fixes it as a deterministic function of the payload text: it
    is a parameter. *)
Variable checksum_computed : string -> string.

(** ** Command messages *)

(** Modelled from the spec: the payload text of a command as the absent
    [juicebox_message.py] builds it, [CMD] + DOW(1) + HHMM(4) + [A] +
    amperage + [M] + offline amperage + [C] + three digits + [S] +
    sequence.  The test vectors carry [C006], [C008] and [C244]. *)
Definition command_payload_str (c : command) : string :=
  "CMD" ++ DOW c ++ HHMM c ++ "A" ++ instant_amperage c
        ++ "M" ++ offline_amperage c
        ++ "C" ++ command_field c ++ "S" ++ counter c.

(** Modelled from the spec: the amperage widths of the two variants of
    the absent [JuiceboxCommand], 2/2 digits in the legacy one and 4/3 in
    the widened one ([new_version]). *)
Definition variant_of_widths (a m : nat) : option bool :=
  match a, m with
  | 2%nat, 2%nat => Some false
  | 4%nat, 3%nat => Some true
  | _, _ => None
  end.

(** Modelled from the spec: [JuiceboxCommand.from_string] of the absent
    [juicebox_message.py], following the command grammar of section 4.5;
    the checksum must agree with the computed one. *)
Definition parse_command (s : string) : option command :=
  let? r := strip_prefix "CMD" s in
  let? (dow, r) := take_exact 1 r in
  let? _ := guard (all_chars is_digit dow) in
  let? (hhmm, r) := take_exact 4 r in
  let? _ := guard (all_chars is_digit hhmm) in
  let? r := strip_prefix "A" r in
  let (amp, r) := span is_digit r in
  let? r := strip_prefix "M" r in
  let (off, r) := span is_digit r in
  let? v := variant_of_widths (String.length amp) (String.length off) in
  let? r := strip_prefix "C" r in
  let? (cf, r) := take_exact 3 r in
  let? _ := guard (all_chars is_digit cf) in
  let? r := strip_prefix "S" r in
  let (seq, r) := span is_digit r in
  let? _ := guard (Nat.ltb 0 (String.length seq)) in
  let? r := strip_prefix "!" r in
  let? (crc, r) := take_exact 3 r in
  let? _ := guard (String.eqb r "$") in
  let c := mkCommand v dow hhmm amp off cf seq crc in
  let? _ := guard (String.eqb crc (checksum_computed (command_payload_str c))) in
  Some c.

(** ** Status messages *)

Definition token_str (t : string * string) : string := fst t ++ snd t.

(** Modelled from the spec: the payload text of a status message as the
    absent [juicebox_message.py] builds it, serial + [:] + comma-joined
    tokens. *)
Definition status_payload_str (m : status) : string :=
  serial m ++ ":" ++ join "," (map token_str (tokens m)).

(** Modelled from the spec: the token split of the absent status parser;
    a token is a short alphabetic key followed by its value. *)
Definition parse_token (t : string) : option (string * string) :=
  let (k, v) := span is_alpha t in
  let? _ := guard (Nat.ltb 0 (String.length k)) in
  Some (k, v).

Fixpoint parse_tokens (l : list string) : option (list (string * string)) :=
  match l with
  | [] => Some []
  | t :: ts =>
      let? kv := parse_token t in
      let? kvs := parse_tokens ts in
      Some (kv :: kvs)
  end.

(** Modelled from the spec: the [from_string] of the absent status
    message class, serial (digits) + [:] + tokens + [!] + checksum(3) +
    [:]; the checksum must agree with the computed one. *)
Definition parse_status (s : string) : option status :=
  let (ser, r) := span is_digit s in
  let? _ := guard (Nat.ltb 0 (String.length ser)) in
  let? r := strip_prefix ":" r in
  let? (body, r) := break_on "!" r in
  let? (crc, r) := take_exact 3 r in
  let? _ := guard (String.eqb r ":") in
  let? toks := parse_tokens (split_on "," body) in
  let m := mkStatus ser toks crc in
  let? _ := guard (String.eqb crc (checksum_computed (status_payload_str m))) in
  Some m.

(** ** Classification and serialization *)

(** Modelled from the spec: [juicebox_message_from_string] of the absent
    [juicebox_message.py].  Text is either a valid command, a valid status
    message, or malformed. *)
Definition juicebox_message_from_string (s : string) : parsed :=
  match strip_prefix "CMD" s with
  | Some _ =>
      match parse_command s with
      | Some c => Parsed (JuiceboxCommand c)
      | None => JuiceboxInvalidMessageFormat
      end
  | None =>
      match parse_status s with
      | Some m => Parsed (JuiceboxStatusMessage m)
      | None => JuiceboxInvalidMessageFormat
      end
  end.

(** Modelled from the spec: the command grammar of section 4.5 of the
    specification, as the absent [juicebox_message.py] matches it against
    a datagram: the shape of [parse_command] without the comparison of the
    checksum with the computed one. *)
Definition command_grammar (s : string) : option command :=
  let? r := strip_prefix "CMD" s in
  let? (dow, r) := take_exact 1 r in
  let? _ := guard (all_chars is_digit dow) in
  let? (hhmm, r) := take_exact 4 r in
  let? _ := guard (all_chars is_digit hhmm) in
  let? r := strip_prefix "A" r in
  let (amp, r) := span is_digit r in
  let? r := strip_prefix "M" r in
  let (off, r) := span is_digit r in
  let? v := variant_of_widths (String.length amp) (String.length off) in
  let? r := strip_prefix "C" r in
  let? (cf, r) := take_exact 3 r in
  let? _ := guard (all_chars is_digit cf) in
  let? r := strip_prefix "S" r in
  let (seq, r) := span is_digit r in
  let? _ := guard (Nat.ltb 0 (String.length seq)) in
  let? r := strip_prefix "!" r in
  let? (crc, r) := take_exact 3 r in
  let? _ := guard (String.eqb r "$") in
  Some (mkCommand v dow hhmm amp off cf seq crc).

(** Modelled from the spec: the status grammar of section 4.5, as the
    absent [juicebox_message.py] matches it against a datagram: the shape
    of [parse_status] without the comparison of the checksum with the
    computed one. *)
Definition status_grammar (s : string) : option status :=
  let (ser, r) := span is_digit s in
  let? _ := guard (Nat.ltb 0 (String.length ser)) in
  let? r := strip_prefix ":" r in
  let? (body, r) := break_on "!" r in
  let? (crc, r) := take_exact 3 r in
  let? _ := guard (String.eqb r ":") in
  let? toks := parse_tokens (split_on "," body) in
  Some (mkStatus ser toks crc).

(** Modelled from the spec: [juicebox_message_from_bytes] of the absent
    [juicebox_message.py], after sections 4.5 and 6 of the specification.
    A byte sequence that matches neither grammar is the encrypted
    variant.  One that matches a grammar is that message when its
    checksum agrees with the computed one, and the invalid-format failure
    when it does not. *)
Definition juicebox_message_from_bytes (bs : list Byte.byte) : parsed :=
  let s := string_of_list_byte bs in
  match command_grammar s with
  | Some c =>
      if String.eqb (command_checksum_str c)
                    (checksum_computed (command_payload_str c))
      then Parsed (JuiceboxCommand c)
      else JuiceboxInvalidMessageFormat
  | None =>
      match status_grammar s with
      | Some m =>
          if String.eqb (status_checksum_str m)
                        (checksum_computed (status_payload_str m))
          then Parsed (JuiceboxStatusMessage m)
          else JuiceboxInvalidMessageFormat
      | None => Parsed (JuiceboxEncryptedMessage bs)
      end
  end.

(** Modelled from the spec: [build] of the absent [juicebox_message.py],
    the wire string of a text message: payload, [!], computed checksum,
    and the terminator of the shape. *)
Definition build (m : message) : option string :=
  match m with
  | JuiceboxCommand c =>
      let p := command_payload_str c in
      Some (p ++ "!" ++ checksum_computed p ++ "$")
  | JuiceboxStatusMessage m =>
      let p := status_payload_str m in
      Some (p ++ "!" ++ checksum_computed p ++ ":")
  | JuiceboxEncryptedMessage _ => None
  end.

End WithChecksum.

(** ** The text grammar, as the specification words it *)

(** Modelled from the spec: the fields of a command message as section
    4.5 gives them: DOW(1), HHMM(4), the two amperages in one of the two
    widths of section 3, [C] and three digits, a sequence number, and a
    checksum of three characters. *)
Definition command_fields_ok (c : command) : Prop :=
  String.length (DOW c) = 1%nat /\ all_chars is_digit (DOW c) = true /\
  String.length (HHMM c) = 4%nat /\ all_chars is_digit (HHMM c) = true /\
  all_chars is_digit (instant_amperage c) = true /\
  all_chars is_digit (offline_amperage c) = true /\
  variant_of_widths (String.length (instant_amperage c))
                    (String.length (offline_amperage c))
    = Some (new_version c) /\
  String.length (command_field c) = 3%nat /\
  all_chars is_digit (command_field c) = true /\
  (0 < String.length (counter c))%nat /\
  all_chars is_digit (counter c) = true /\
  String.length (command_checksum_str c) = 3%nat.

(** Modelled from the spec: the command grammar of section 4.5, payload
    + [!] + checksum(3) + [$]. *)
Definition in_command_grammar (s : string) : Prop :=
  exists c,
    command_fields_ok c /\
    s = command_payload_str c ++ "!" ++ command_checksum_str c ++ "$".

(** Modelled from the spec: the fields of a status message as section
    4.5 gives them: a serial number of digits, tokens that begin with an
    alphabetic key, and a checksum of three characters. *)
Definition status_fields_ok (m : status) : Prop :=
  (0 < String.length (serial m))%nat /\
  all_chars is_digit (serial m) = true /\
  Forall (fun kv => (0 < String.length (fst kv))%nat /\
                    all_chars is_alpha (fst kv) = true) (tokens m) /\
  String.length (status_checksum_str m) = 3%nat.

(** Modelled from the spec: the status grammar of section 4.5, payload +
    [!] + checksum(3) + [:]. *)
Definition in_status_grammar (s : string) : Prop :=
  exists m,
    status_fields_ok m /\
    s = status_payload_str m ++ "!" ++ status_checksum_str m ++ ":".

(** Modelled from the spec: "the text grammar" of sections 4.5 and 6:
    either of the two. *)
Definition in_text_grammar (s : string) : Prop :=
  in_command_grammar s \/ in_status_grammar s.

(** The (payload, checksum) pairs of [test_message.py], the only values of
    the checksum function the material fixes. *)
Definition reference_checksums : list (string * string) :=
  [ ("CMD41325A0040M040C006S638", "5N5");
    ("CMD62210A20M18C006S006", "31Y");
    ("CMD62228A20M15C008S048", "IR4");
    ("CMD62207A20M20C244S997", "R5Y");
    ("CMD62207A20M20C008S996", "ZI4");
    ("CMD62201A20M20C244S981", "ECD");
    ("CMD62201A20M20C006S982", "QT8");
    ("CMD31353A0000M010C244S741", "2B3");
    ("CMD52324A20M16C006S001", "5RE");
    ("CMD52324A0020M016C006S001", "YUK");
    ("0910042001260513476122621631:v09u,s627,F10,u01254993,V2414,L00004555804,S01,T08,M0040,C0040,m0040,t29,i75,e00000,f5999,r61,b000,B0000000", "55M");
    ("0910000000000000000000000000:v09u,s001,F31,u00412974,V1366,L00004262804,S02,T28,M0024,C0024,m0032,t09,i23,e-0001,f5990,r99,b000,B0000000,P0,E0004501,A00161,p0996", "ZW5") ].

Fixpoint lookup_checksum (l : list (string * string)) (p : string) : string :=
  match l with
  | [] => EmptyString
  | (k, v) :: r => if String.eqb k p then v else lookup_checksum r p
  end.

(** A checksum function that agrees with the reference pairs. *)
Definition reference_checksum (p : string) : string :=
  lookup_checksum reference_checksums p.

(** ** The samples of [test_message.py] *)

(** [codecs.decode(message, 'hex')]. *)
Definition hex_digit (c : ascii) : option N :=
  let n := N_of_ascii c in
  if (N.leb 48 n && N.leb n 57)%bool then Some (n - 48)%N
  else if (N.leb 97 n && N.leb n 102)%bool then Some (n - 87)%N
  else if (N.leb 65 n && N.leb n 70)%bool then Some (n - 55)%N
  else None.

Fixpoint hex_decode (s : string) : option (list Byte.byte) :=
  match s with
  | EmptyString => Some []
  | String _ EmptyString => None
  | String a (String b r) =>
      match hex_digit a, hex_digit b, hex_decode r with
      | Some x, Some y, Some l =>
          match Byte.of_N (16 * x + y) with
          | Some v => Some (v :: l)
          | None => None
          end
      | _, _, _ => None
      end
  end.

(** The two literals of [test_entrypted_message]. *)
Definition encrypted_hex_1 : string :=
  "303931303034323030313238303636303432373332333632303533353a763039"
  ++ "6512b10a000000716b1493270404a809cbcbb7995fd86b391e4b5e606fd5153a"
  ++ "81ecd6251eb2bf87da82db9ceaefb268caa8f0c01b538af48e45d1ef3ad28ca7"
  ++ "2a4fdf05261780fd753b361906368634821bf6cada5624bae11feb7dc975cfe1"
  ++ "4e2c305eb01adcc7b39687ddc130d66cc39bc2ccac7f903cb9b50adb9a77b95b"
  ++ "77bd364b82dcbe8599dc9a8a880cc44eb0f04e8a1d9f4a6305978a7f3e3c58d5".

Definition encrypted_hex_2 : string :=
  "303931303034323030313238303636303432373332333632303533353a763039"
  ++ "6512b10a00000073480d38833df8ebed8add322332c5c9f0501b32e9b35b71d1"
  ++ "d8d3e389f5b9002b42ee953b5d9f712ddd36ebcb9f0a8973eba739f388583429"
  ++ "d3fcd4cd135f9e4d437ad6ad21c11ad8e89369252ada194b52436beeb67a15b4"
  ++ "a24f85eae07ebeeb6270588c94e390fa6da00c831e290a8552bd49ce014db1aa"
  ++ "70843ebb5db2b0dea0fa20d0ed00714ae3001c895bf54779d5d1449ee15bf486".

(** In the test no comma separates the two literals, so the list holds
    one message, their concatenation. *)
Definition encrypted_samples : list string :=
  [ encrypted_hex_1 ++ encrypted_hex_2 ].

End Codec.

(** * Scenarios

    Concrete configurations, worlds and states on which the statements
    below are exercised. *)

Module Scenarios.

Import Relay.
Open Scope string_scope.

Definition cloud : addr := ("10.0.0.1", 8047).
Definition listen : addr := ("0.0.0.0", 8047).
Definition device : addr := ("192.168.1.50", 40000).
Definition device' : addr := ("192.168.1.51", 40001).

(** Five bind attempts, a breaker at 10 faults in 5 minutes, 3 faults in
    5 minutes for the short runs. *)
Definition cfg10 : config := mkConfig listen cloud false 5 10 5.
Definition cfg3 : config := mkConfig listen cloud false 5 3 5.
Definition cfg3_ignore : config := mkConfig listen cloud true 5 3 5.

Definition echo (_ : nat) (p : payload) : payload + exn := inl p.

(** A world in which everything succeeds, with the given clock, nothing
    is ever received and the lock is free. *)
Definition calm (clk : nat -> Z) : world :=
  mkWorld clk (fun _ => false) (fun _ => None)
          (fun _ => inr TimeoutError) (fun _ => None) (fun _ => None)
          echo echo (fun _ => None).

(** One clock tick per second. *)
Definition seconds (k : nat) : Z := Z.of_nat k * 1000.

(** As [calm], but another task holds the sending lock whenever the
    relay looks at it. *)
Definition busy_lock : world :=
  mkWorld seconds (fun _ => true) (fun _ => None)
          (fun _ => inr TimeoutError) (fun _ => None) (fun _ => None)
          echo echo (fun _ => None).

(** The clock stands at 300 000 ms, five minutes after time 0. *)
Definition at_five_minutes : world := calm (fun _ => 300000).

(** Every transmission runs into its 10 s timeout. *)
Definition sends_time_out : world :=
  mkWorld seconds (fun _ => false) (fun _ => None)
          (fun _ => inr TimeoutError) (fun _ => Some TimeoutError)
          (fun _ => None) echo echo (fun _ => None).

(** The socket is bound, nothing else has happened. *)
Definition socket_held : state :=
  mkState false (Some 0%nat) None None 0 [] 0 [].

(** The socket is bound and a device address is known. *)
Definition device_known : state :=
  mkState false (Some 0%nat) (Some device) None 0 [] 0 [].

Definition hello : payload := Bytes "hello".

(** The first transmission runs into its timeout, the later ones go
    through. *)
Definition first_send_times_out : world :=
  mkWorld seconds (fun _ => false) (fun _ => None)
          (fun _ => inr TimeoutError)
          (fun k => if Nat.eqb k 0 then Some TimeoutError else None)
          (fun _ => None) echo echo (fun _ => None).

(** The listen address is in use (errno 98): no bind succeeds. *)
Definition address_in_use : world :=
  mkWorld seconds (fun _ => false) (fun _ => Some (OSError (Some 98)))
          (fun _ => inr TimeoutError) (fun _ => None) (fun _ => None)
          echo echo (fun n => if Z.eqb n 98 then Some "EADDRINUSE" else None).

(** The network is unreachable (errno 101): every transmission fails
    with that [OSError]. *)
Definition network_unreachable : world :=
  mkWorld seconds (fun _ => false) (fun _ => None)
          (fun _ => inr TimeoutError) (fun _ => Some (OSError (Some 101)))
          (fun _ => None) echo echo
          (fun n => if Z.eqb n 101 then Some "ENETUNREACH" else None).

(** The link goes down: the first receive runs into its timeout; after
    the rebind a datagram of the device arrives at every receive, and
    every transmission finds the transport closed. *)
Definition link_goes_down : world :=
  mkWorld seconds (fun _ => false) (fun _ => None)
          (fun k => match k with
                    | O => inr TimeoutError
                    | S _ => inl (Some hello, Some device)
                    end)
          (fun _ => Some TransportClosed) (fun _ => None) echo echo
          (fun _ => None).

(** A configuration with no look-back at all. *)
Definition cfg_no_window : config := mkConfig listen cloud false 5 3 0.

(** A configuration that allows no bind attempt. *)
Definition cfg_no_attempt : config := mkConfig listen cloud false 0 3 5.

(** One fault is on record, at time 0. *)
Definition one_old_fault : state :=
  mkState false (Some 0%nat) None None 1 [0] 0 [].

End Scenarios.

(** * Properties of the relay *)

Import Relay.

Section RelayFacts.

Variable cfg : config.
Variable w : world.

(** ** The fault recorder *)

Lemma add_error_run (s : state) :
  _add_error cfg w s =
  Ret tt
    (let l := filter
                (fun el => time_cutoff_of cfg (clock w (S (tick s))) <? el)
                (error_timestamp_list s ++ [clock w (tick s)]) in
     mkState (sending_lock s) (dgram s) (juicebox_addr s)
             (mitm_loop_task s) (Z.of_nat (List.length l)) l
             (S (S (tick s)))
             (trace s ++ [EError (clock w (tick s)) (clock w (S (tick s)))])).
Proof. reflexivity. Qed.

(** C7, as the code has it.  A call of the fault recorder appends the
    current time to the fault list, keeps exactly the timestamps strictly
    newer than now - LOOKBACK minutes (a timestamp exactly LOOKBACK minutes
    old is dropped) and sets the error count to the length of what is
    kept; nothing else of the relay changes. *)
Theorem add_error_prunes_to_open_window (s : state) :
  exists s',
    _add_error cfg w s = Ret tt s' /\
    (forall el,
        In el (error_timestamp_list s') <->
        In el (error_timestamp_list s ++ [clock w (tick s)]) /\
        clock w (S (tick s)) - ERROR_LOOKBACK_MIN cfg * 60000 < el) /\
    error_timestamp_list s' =
      filter (fun el =>
                clock w (S (tick s)) - ERROR_LOOKBACK_MIN cfg * 60000 <? el)
             (error_timestamp_list s ++ [clock w (tick s)]) /\
    error_count s' = Z.of_nat (List.length (error_timestamp_list s')) /\
    dgram s' = dgram s /\ juicebox_addr s' = juicebox_addr s.
Proof.
  eexists. split; [apply add_error_run|].
  cbn [error_timestamp_list error_count dgram juicebox_addr].
  split; [|repeat split; reflexivity].
  intros el. rewrite filter_In. unfold time_cutoff_of.
  rewrite Z.ltb_lt. tauto.
Qed.

End RelayFacts.

(** C7, as the specification words it, fails.  With a look-back of five
    minutes, a fault recorded at time 0 is exactly five minutes old when
    the next fault is recorded at 300 000 ms: it lies in the closed window
    and is dropped from the list all the same. *)
Lemma add_error_closed_window_fails :
  exists s',
    _add_error Scenarios.cfg10 Scenarios.at_five_minutes
               Scenarios.one_old_fault = Ret tt s' /\
    In 0 (error_timestamp_list Scenarios.one_old_fault) /\
    300000 - ERROR_LOOKBACK_MIN Scenarios.cfg10 * 60000 <= 0 <= 300000 /\
    ~ In 0 (error_timestamp_list s') /\
    error_count s' = 1.
Proof.
  eexists. split; [rewrite add_error_run; reflexivity|].
  cbn. split; [now left|]. split; [lia|]. split; [|reflexivity].
  intros [H0|[]]. discriminate.
Qed.

(** ** Invariants of the engine

    A state predicate kept by every primitive operation is kept by the
    bind loop, by [send_data], by the handler and by the receive loop,
    however deeply they re-enter one another. *)

Section Rules.

Variable I : state -> Prop.
Variable E : exn -> state -> Prop.

Lemma inv_ret {A} (a : A) : inv I E (ret a).
Proof. intros s Hs. exact Hs. Qed.

Lemma inv_get : inv I E get.
Proof. intros s Hs. exact Hs. Qed.

Lemma inv_modify (f : state -> state) :
  (forall s, I s -> I (f s)) -> inv I E (modify f).
Proof. intros Hf s Hs. apply Hf, Hs. Qed.

Lemma inv_raise {A} (e : exn) :
  (forall s, I s -> E e s) -> inv I E (@raise A e).
Proof. intros He s Hs. split; [exact Hs | apply He, Hs]. Qed.

Lemma okr_bind {A B} (m : M A) (k : A -> M B) (s : state) :
  okr I E (m s) -> (forall a, inv I E (k a)) -> okr I E (bind m k s).
Proof.
  intros Hm Hk. unfold bind.
  destruct (m s) as [a s'|e s'|]; simpl in *; auto.
  apply Hk, Hm.
Qed.

Lemma okr_try_except {A} (m : M A) (c : exn -> bool) (h : exn -> M A)
      (s : state) :
  okr I E (m s) -> (forall e, inv I E (h e)) ->
  okr I E (try_except m c h s).
Proof.
  intros Hm Hh. unfold try_except.
  destruct (m s) as [a s'|e s'|]; simpl in *; auto.
  destruct (c e); simpl; auto. apply Hh, Hm.
Qed.

Lemma okq_bind {A B} (Q : A -> state -> Prop) (m : M A) (k : A -> M B)
      (s : state) :
  okq Q I E (m s) -> (forall a s', Q a s' -> okr I E (k a s')) ->
  okr I E (bind m k s).
Proof.
  intros Hm Hk. unfold bind.
  destruct (m s) as [a s'|e s'|]; simpl in *; auto.
Qed.

Lemma okq_bind_q {A B} (Q : A -> state -> Prop) (R : B -> state -> Prop)
      (m : M A) (k : A -> M B) (s : state) :
  okq Q I E (m s) -> (forall a s', Q a s' -> okq R I E (k a s')) ->
  okq R I E (bind m k s).
Proof.
  intros Hm Hk. unfold bind.
  destruct (m s) as [a s'|e s'|]; simpl in *; auto.
Qed.

Lemma inv_bind {A B} (m : M A) (k : A -> M B) :
  inv I E m -> (forall a, inv I E (k a)) -> inv I E (bind m k).
Proof. intros Hm Hk s Hs. apply okr_bind; auto. Qed.

Lemma inv_try_except {A} (m : M A) (c : exn -> bool) (h : exn -> M A) :
  inv I E m -> (forall e, inv I E (h e)) -> inv I E (try_except m c h).
Proof. intros Hm Hh s Hs. apply okr_try_except; auto. Qed.

Lemma inv_with_lock {A} (m : M A) :
  (forall b s, I s -> I (set_lock b s)) ->
  (forall b e s, E e s -> E e (set_lock b s)) ->
  (forall s, I s -> sending_lock s = true -> okr I E (m s)) ->
  inv I E (with_lock m).
Proof.
  intros HI HE Hm s Hs. unfold with_lock.
  destruct (sending_lock s); simpl; auto.
  specialize (Hm (set_lock true s) (HI true s Hs) eq_refl).
  destruct (m (set_lock true s)) as [a s'|e s'|]; simpl in *; auto.
  destruct Hm. split; auto.
Qed.

Lemma inv_with_handler_timeout {A} (m : M A) :
  (forall s, I s -> E TimeoutError s) ->
  inv I E m -> inv I E (with_handler_timeout m).
Proof.
  intros HT Hm s Hs. unfold with_handler_timeout. specialize (Hm s Hs).
  destruct (m s) as [a s'|e s'|]; simpl in *; auto.
  destruct Hm as [Hi He]. destruct e; simpl; auto.
Qed.

Lemma inv_wait_for_lock (w : world) :
  (forall s, I s -> I (next_tick s)) ->
  (forall s, I s -> E TimeoutError s) ->
  inv I E (wait_for_lock w).
Proof.
  intros Ht He s Hs. unfold wait_for_lock.
  destruct (deadline_passes_waiting w s); simpl; auto.
Qed.

End Rules.

Section EngineInvariant.

Variable cfg : config.
Variable w : world.
Variable I : state -> Prop.
Variable E : exn -> state -> Prop.

Hypothesis I_time : inv I E (time_time w).
Hypothesis I_sleep : forall ms, inv I E (sleep w ms).
Hypothesis I_locked : inv I E (sending_lock_locked w).
Hypothesis I_bind : inv I E (dgram_bind w).
Hypothesis I_send :
  forall d t s, I s -> sending_lock s = true -> okr I E (dgram_send w d t s).
Hypothesis I_recv :
  forall s, I s ->
    okq (fun _ s' => I s' /\ forall a, I (set_juicebox_addr a s')) I E
        (dgram_recv w s).
Hypothesis I_local : forall d, inv I E (call_local w d).
Hypothesis I_remote : forall d, inv I E (call_remote w d).
Hypothesis I_add_error : inv I E (_add_error cfg w).
Hypothesis I_set_dgram : forall d s, I s -> I (set_dgram d s).
Hypothesis I_set_lock : forall b s, I s -> I (set_lock b s).
Hypothesis E_set_lock : forall b e s, E e s -> E e (set_lock b s).
Hypothesis E_own : forall e s, I s -> engine_raises cfg e s -> E e s.

Ltac own := intros; apply E_own; auto; unfold engine_raises; tauto.

Lemma inv_connect_attempt_body : inv I E (connect_attempt_body cfg w).
Proof.
  unfold connect_attempt_body.
  apply inv_bind; [|intros; apply I_sleep].
  apply inv_try_except.
  - apply inv_bind; [apply I_locked|]. intros [|]; [apply I_bind|].
    apply inv_with_lock; auto; intros s Hs _; apply I_bind, Hs.
  - intros e. apply inv_bind; [apply I_add_error|].
    intros _. apply inv_modify. auto.
Qed.

Lemma inv_connect_loop (n : nat) :
  forall a, inv I E (connect_loop cfg w n a).
Proof.
  induction n as [|n IH]; intros a; simpl;
    (apply inv_bind; [apply inv_get|]); intros s0;
    destruct (connect_guard cfg a s0); try apply inv_ret.
  - intros s Hs. exact Logic.I.
  - apply inv_bind; [apply inv_connect_attempt_body|]. intros _. apply IH.
Qed.

Lemma inv__connect (loop : M Empty_set) :
  inv I E loop -> inv I E (_connect cfg w loop).
Proof.
  intros Hl. unfold _connect.
  apply inv_bind; [apply inv_connect_loop|]. intros _.
  apply inv_bind; [apply inv_get|]. intros s0.
  destruct (dgram s0).
  - destruct (mitm_loop_task s0) as [[]|].
    apply inv_bind; [exact Hl|]. intros [].
  - apply inv_raise. own.
Qed.

Lemma inv_transmit (d : payload) (t : option addr) :
  inv I E (transmit cfg w d t).
Proof.
  unfold transmit. apply inv_bind.
  { apply inv_wait_for_lock; [exact I_time|own]. }
  intros _. apply inv_with_lock; auto.
  intros s Hs Hl. apply okr_try_except.
  - apply okr_bind; [apply I_send; assumption|]. intros; apply inv_ret.
  - intros e. apply inv_bind; [apply I_add_error|]. intros _.
    apply inv_bind; [apply inv_modify; auto|]. intros; apply inv_ret.
Qed.

Lemma inv_send_attempt_body (c : M unit) d t b :
  inv I E c -> inv I E (send_attempt_body cfg w c d t b).
Proof.
  intros Hc. unfold send_attempt_body.
  apply inv_bind; [apply inv_get|]. intros s0.
  apply inv_bind; [destruct (dgram s0); [apply inv_ret|exact Hc]|].
  intros _. apply inv_bind.
  - apply inv_try_except; [apply inv_transmit|].
    intros e. apply inv_bind; [apply I_add_error|]. intros; apply inv_ret.
  - intros sent. apply inv_bind; [apply I_sleep|]. intros; apply inv_ret.
Qed.

Lemma inv_send_loop (c : M unit) d t b (n : nat) :
  inv I E c -> forall sent a, inv I E (send_loop cfg w n c d t b sent a).
Proof.
  intros Hc. induction n as [|n IH]; intros sent a; simpl;
    destruct (negb sent && (a <=? SEND_DATA_RETRIES)); try apply inv_ret.
  - intros s Hs. exact Logic.I.
  - apply inv_bind; [apply inv_send_attempt_body, Hc|]. intros; apply IH.
Qed.

Lemma inv_send_data (c : M unit) d t b :
  inv I E c -> inv I E (send_data cfg w c d t b).
Proof.
  intros Hc. unfold send_data.
  apply inv_bind; [apply inv_send_loop, Hc|].
  intros [|]; [apply inv_ret|apply inv_raise; own].
Qed.

Lemma inv_on_send_OSError side dest e :
  inv I E (on_send_OSError cfg w side dest e).
Proof.
  unfold on_send_OSError. apply inv_bind.
  - unfold errorcode_of. destruct (exn_errno e) as [n|];
      [destruct (errorcode w n)|]; try apply inv_ret; apply inv_raise; own.
  - intros code. apply inv_bind; [apply I_local|]. intros; apply I_add_error.
Qed.

Lemma inv_forward_to_cloud (send : payload -> option addr -> M unit) d :
  (forall d t, inv I E (send d t)) ->
  inv I E (forward_to_cloud cfg w send d).
Proof.
  intros Hsend. unfold forward_to_cloud.
  apply inv_bind; [apply I_local|]. intros d'.
  destruct (negb (ignore_remote cfg)); [|apply inv_ret].
  apply inv_try_except; [apply Hsend|]. apply inv_on_send_OSError.
Qed.

Lemma inv_forward_to_device (send : payload -> option addr -> M unit) d :
  (forall d t, inv I E (send d t)) ->
  inv I E (forward_to_device cfg w send d).
Proof.
  intros Hsend. unfold forward_to_device.
  destruct (negb (ignore_remote cfg)); [|apply inv_ret].
  apply inv_bind; [apply I_remote|]. intros d'.
  apply inv_bind; [apply inv_get|]. intros s1.
  apply inv_try_except; [apply Hsend|]. intros e.
  apply inv_bind; [apply inv_get|]. intros s2. apply inv_on_send_OSError.
Qed.

(** The handler may set the device address: it keeps [I] from a state in
    which doing so keeps [I], as the state after a receive is. *)
Lemma okr__main_mitm_handler (send : payload -> option addr -> M unit)
      data from_addr (s : state) :
  (forall d t, inv I E (send d t)) ->
  I s -> (forall a, I (set_juicebox_addr a s)) ->
  okr I E (_main_mitm_handler cfg w send data from_addr s).
Proof.
  intros Hsend Hs Hset. unfold _main_mitm_handler.
  destruct data as [data|]; [|exact Hs].
  destruct from_addr as [from_addr|]; [|exact Hs].
  apply okq_bind with (Q := fun _ s' => I s').
  { destruct (negb _); simpl; auto. }
  intros _ s1 Hs1. revert s1 Hs1.
  apply inv_bind; [apply inv_get|]. intros s0.
  destruct (opt_addr_eqb from_addr (juicebox_addr s0)).
  - apply inv_forward_to_cloud, Hsend.
  - destruct (_ && _); [|apply inv_ret].
    apply inv_forward_to_device, Hsend.
Qed.

Lemma inv__mitm_loop (fuel : nat) : inv I E (_mitm_loop cfg w fuel).
Proof.
  induction fuel as [|fuel IH]; [intros s Hs; exact Logic.I|].
  intros s Hs. simpl. unfold bind at 1, get.
  destruct (error_count s <? MAX_ERROR_COUNT cfg) eqn:Hc.
  - clear Hc. destruct (dgram s).
    + apply okq_bind
        with (Q := fun r s' =>
                     I s' /\
                     (r = None \/ forall a, I (set_juicebox_addr a s'))).
      * pose proof (I_recv Hs) as Hr.
        match goal with
        | |- context [try_except _ _ ?h0] => set (h := h0)
        end.
        unfold try_except, bind, ret.
        destruct (dgram_recv w s) as [x s'|e s'|]; cbn [okq] in *; auto.
        -- split; [apply Hr|right; apply Hr].
        -- destruct (is_closed_or_timeout e); cbn [okq]; auto.
           destruct Hr as [Hr _]. subst h. cbv beta.
           apply okq_bind_q with (Q := fun _ s' => I s');
             [apply (I_add_error Hr)|].
           intros _ s'' Hs''. unfold bind, modify, ret. cbn [okq].
           split; [apply I_set_dgram, Hs''|]. now left.
      * intros [[data remote_addr]|] s' [Hs' Hset]; [|apply IH, Hs'].
        destruct Hset as [Hset|Hset]; [discriminate|].
        revert s' Hs' Hset. intros s' Hs' Hset.
        apply okr_bind; [|intros; exact IH].
        apply okr_try_except.
        -- unfold with_handler_timeout.
           pose proof (@okr__main_mitm_handler
                         (fun d t =>
                            send_data cfg w
                              (_connect cfg w (_mitm_loop cfg w fuel))
                              d t 100)
                         data remote_addr s') as Hh.
           cbv beta in Hh.
           match type of Hh with
           | _ -> _ -> _ -> okr _ _ ?r =>
               destruct r as [a s''|e s''|]
           end; simpl in *.
           ++ apply Hh; auto. intros d t.
              apply inv_send_data, inv__connect, IH.
           ++ assert (He : I s'' /\ E e s'').
              { apply Hh; auto. intros d t.
                apply inv_send_data, inv__connect, IH. }
              destruct e; simpl; auto. split; [apply He|].
              apply E_own; [apply He|]. unfold engine_raises. tauto.
           ++ exact Logic.I.
        -- intros e. apply inv_bind; [apply I_add_error|]. intros _.
           apply inv_modify. auto.
    + revert s Hs. apply inv_bind; [apply I_add_error|]. intros _.
      apply inv_bind; [apply inv__connect, IH|]. intros; exact IH.
  - unfold raise. split; [exact Hs|]. apply E_own; [exact Hs|].
    unfold engine_raises. apply Z.ltb_ge in Hc. tauto.
Qed.

Lemma engine_invariant (fuel : nat) :
  inv I E (_mitm_loop cfg w fuel) /\
  inv I E (connect cfg w fuel) /\
  (forall d t b, inv I E (send_data_to cfg w fuel d t b)) /\
  (forall d, inv I E (forward_to_cloud cfg w
                        (fun d t => send_data_to cfg w fuel d t 100) d)) /\
  (forall d a s,
      I s -> (forall a', I (set_juicebox_addr a' s)) ->
      okr I E (main_mitm_handler cfg w fuel d a s)).
Proof.
  assert (Hc : inv I E (connect cfg w fuel))
    by apply inv__connect, inv__mitm_loop.
  assert (Hs : forall d t b, inv I E (send_data_to cfg w fuel d t b))
    by (intros; apply inv_send_data, Hc).
  split; [apply inv__mitm_loop|]. split; [exact Hc|].
  split; [exact Hs|]. split.
  - intros d. apply inv_forward_to_cloud. intros; apply Hs.
  - intros d a s H1 H2. apply okr__main_mitm_handler; auto.
Qed.

End EngineInvariant.

(** ** The lock *)

Section Lock.

Variable cfg : config.
Variable w : world.

Lemma extends_with_refl p s0 : extends_with p s0 s0.
Proof. exists []. split; [now rewrite app_nil_r | reflexivity]. Qed.

Lemma extends_with_log p s0 s e :
  extends_with p s0 s -> p e = true -> extends_with p s0 (log e s).
Proof.
  intros [new [Ht Hn]] He. exists (new ++ [e]). simpl. split.
  - now rewrite Ht, app_assoc.
  - rewrite forallb_app, Hn. simpl. now rewrite He.
Qed.

Lemma extends_with_same_trace p s0 s s' :
  extends_with p s0 s -> trace s' = trace s -> extends_with p s0 s'.
Proof. intros [new [Ht Hn]] Heq. exists new. now rewrite Heq. Qed.

Lemma extends_with_step p s0 s s' e :
  extends_with p s0 s -> trace s' = trace s ++ [e] -> p e = true ->
  extends_with p s0 s'.
Proof.
  intros H Ht He. apply (extends_with_log e) in H; [|exact He].
  eapply extends_with_same_trace; [exact H|exact Ht].
Qed.

Ltac step_event :=
  eapply extends_with_step; [eassumption|reflexivity|simpl; auto].

Lemma sends_locked_invariant (s0 : state) (fuel : nat) :
  let I := extends_with send_locked s0 in
  inv I no_exn_constraint (_mitm_loop cfg w fuel) /\
  inv I no_exn_constraint (connect cfg w fuel) /\
  (forall d t b, inv I no_exn_constraint (send_data_to cfg w fuel d t b)) /\
  (forall d a, inv I no_exn_constraint (main_mitm_handler cfg w fuel d a)).
Proof.
  intros I.
  assert (Hset : forall a s, I s -> I (set_juicebox_addr a s)).
  { intros a s Hs. eapply extends_with_same_trace; [exact Hs|reflexivity]. }
  cut (inv I no_exn_constraint (_mitm_loop cfg w fuel) /\
       inv I no_exn_constraint (connect cfg w fuel) /\
       (forall d t b,
           inv I no_exn_constraint (send_data_to cfg w fuel d t b)) /\
       (forall d,
           inv I no_exn_constraint
               (forward_to_cloud cfg w
                  (fun d t => send_data_to cfg w fuel d t 100) d)) /\
       (forall d a s,
           I s -> (forall a', I (set_juicebox_addr a' s)) ->
           okr I no_exn_constraint (main_mitm_handler cfg w fuel d a s))).
  { intros [H1 [H2 [H3 [_ H5]]]]. repeat split; auto.
    intros d a s Hs. apply H5; auto. }
  subst I.
  apply engine_invariant; unfold inv, okr, okq, no_exn_constraint; intros;
    try (eapply extends_with_same_trace; [eassumption|reflexivity]);
    try exact Logic.I.
  - unfold sleep. destruct (sleep_result w (tick s)); [split; auto|];
      step_event.
  - unfold dgram_bind. destruct (bind_result w (tick s)); [split; auto|];
      step_event.
  - unfold dgram_send. destruct (dgram s); [|split; auto].
    destruct (send_result w (tick s)); [split; auto|]; step_event.
  - unfold dgram_recv. destruct (recv_result w (tick s)); split;
      try intros a; try exact Logic.I; step_event.
  - unfold call_local.
    destruct (local_mitm_handler w (tick s) d); [|split; auto]; step_event.
  - unfold call_remote.
    destruct (remote_mitm_handler w (tick s) d); [|split; auto]; step_event.
  - rewrite add_error_run. step_event.
Qed.

(** What one turn of the bind loop does with the lock: the bind is made
    with the lock held exactly when the lock was found free. *)
Lemma connect_attempt_body_lock (s : state) :
  let s0 := set_lock false s in
  match connect_attempt_body cfg w s0 with
  | Ret _ s' | Raise _ s' =>
      exists ok rest,
        trace s' =
          trace s0 ++ EBind (negb (lock_locked w (tick s0))) ok :: rest /\
        forallb (fun e => negb (is_bind e)) rest = true
  | OutOfFuel => False
  end.
Proof.
  unfold connect_attempt_body, bind, try_except, sending_lock_locked,
    with_lock, dgram_bind. simpl.
  destruct (lock_locked w (tick s)); simpl;
    destruct (bind_result w (S (tick s))) as [e|]; simpl;
    try (destruct (is_OSError e); simpl);
    try rewrite add_error_run; unfold modify, sleep; simpl;
    try match goal with
        | |- context [sleep_result w ?k] => destruct (sleep_result w k)
        end;
    eexists; eexists;
    (split; [simpl; rewrite <- ?app_assoc; simpl; reflexivity|reflexivity]).
Qed.

End Lock.

(** C9, as the code has it.  From any state and in any world, every
    datagram transmission made by [start], by the datagram handler or by
    [send_data] happens with the sending lock held; a bind attempt takes
    the lock only when it finds it free, and is made without the lock when
    the lock is found held. *)
Theorem sends_hold_lock_and_binds_take_it_only_when_free
        (cfg : config) (w : world) (fuel : nat) (s0 : state) :
  okr (extends_with send_locked s0) no_exn_constraint
      (start cfg w fuel s0) /\
  (forall d a,
      okr (extends_with send_locked s0) no_exn_constraint
          (main_mitm_handler cfg w fuel d a s0)) /\
  (forall d t b,
      okr (extends_with send_locked s0) no_exn_constraint
          (send_data_to cfg w fuel d t b s0)) /\
  match connect_attempt_body cfg w (set_lock false s0) with
  | Ret _ s' | Raise _ s' =>
      exists ok rest,
        trace s' =
          trace s0 ++ EBind (negb (lock_locked w (tick s0))) ok :: rest /\
        forallb (fun e => negb (is_bind e)) rest = true
  | OutOfFuel => False
  end.
Proof.
  destruct (sends_locked_invariant cfg w s0 fuel) as [_ [Hc [Hs Hh]]].
  pose proof (extends_with_refl send_locked s0) as H0.
  split; [apply Hc, H0|]. split; [intros; apply Hh, H0|].
  split; [intros; apply Hs, H0|].
  apply (connect_attempt_body_lock cfg w s0).
Qed.

(** C9, as the specification words it, fails.  When another task holds
    the lock, [start] binds the socket without holding it. *)
Lemma bind_made_without_the_lock :
  exists s',
    start Scenarios.cfg3 Scenarios.busy_lock 30 init_state =
      Raise (ChildProcessError (MoreThanErrors 3)) s' /\
    forallb bind_locked (trace s') = false /\
    firstn 1 (trace s') = [EBind false true].
Proof.
  eexists. split; [vm_compute; reflexivity|].
  split; vm_compute; reflexivity.
Qed.

(** ** The datagram handler *)

Section Handler.

Variable cfg : config.
Variable w : world.

Lemma count_events_snoc p tr e :
  count_events p (tr ++ [e]) =
  (count_events p tr + (if p e then 1 else 0))%nat.
Proof.
  unfold count_events. rewrite filter_app, length_app. simpl.
  destruct (p e); reflexivity.
Qed.

Lemma learned_keep n0 a s s' :
  learned n0 a s ->
  juicebox_addr s' = juicebox_addr s ->
  count_events is_recv (trace s') = count_events is_recv (trace s) ->
  learned n0 a s'.
Proof. unfold learned. intros [H1 H2] Hj Hc. rewrite Hj, Hc. auto. Qed.

Lemma learned_received n0 a s s' :
  learned n0 a s ->
  count_events is_recv (trace s') = S (count_events is_recv (trace s)) ->
  learned n0 a s'.
Proof. unfold learned. intros [H1 H2] Hc. rewrite Hc. split; lia. Qed.

Ltac keep_learned :=
  eapply learned_keep;
  [eassumption | reflexivity
  | simpl; rewrite ?count_events_snoc; simpl; lia].

Lemma learned_invariant (n0 : nat) (a : addr) (fuel : nat) (d : payload) :
  inv (learned n0 a) no_exn_constraint
      (forward_to_cloud cfg w
         (fun d t => send_data_to cfg w fuel d t 100) d).
Proof.
  revert d.
  apply (@engine_invariant cfg w (learned n0 a) no_exn_constraint);
    unfold inv, okr, okq, no_exn_constraint; intros; try exact Logic.I;
    try keep_learned.
  - unfold sleep. destruct (sleep_result w (tick s)); [split; auto|];
      keep_learned.
  - unfold dgram_bind. destruct (bind_result w (tick s)); [split; auto|];
      keep_learned.
  - unfold dgram_send. destruct (dgram s); [|split; auto].
    destruct (send_result w (tick s)); [split; auto|]; keep_learned.
  - unfold dgram_recv. destruct (recv_result w (tick s)); split;
      try intros a0; try exact Logic.I;
      (eapply learned_received;
       [eassumption|simpl; rewrite count_events_snoc; simpl; lia]).
  - unfold call_local.
    destruct (local_mitm_handler w (tick s) d); [|split; auto];
      keep_learned.
  - unfold call_remote.
    destruct (remote_mitm_handler w (tick s) d); [|split; auto];
      keep_learned.
Qed.

Lemma addr_eqb_refl (a : addr) : addr_eqb a a = true.
Proof. unfold addr_eqb. now rewrite String.eqb_refl, Z.eqb_refl. Qed.

Lemma handler_from_device (fuel : nat) (s : state) (d : payload)
      (a : addr) :
  String.eqb (fst a) (fst (enelx_addr cfg)) = false ->
  main_mitm_handler cfg w fuel (Some d) (Some a) s =
  forward_to_cloud cfg w (fun d t => send_data_to cfg w fuel d t 100) d
                   (set_juicebox_addr (Some a) s).
Proof.
  intros H. unfold main_mitm_handler, _main_mitm_handler.
  rewrite H. unfold bind at 1. unfold modify. unfold bind at 1. unfold get.
  cbn [negb juicebox_addr set_juicebox_addr opt_addr_eqb].
  now rewrite addr_eqb_refl.
Qed.

End Handler.

(** C10.  Called with no payload or with no source address, the handler
    returns at once and leaves the whole state as it was: the device
    address, the socket, the fault record and the trace, to which neither
    a transmission nor a call of a transform is added. *)
Theorem handler_returns_at_once_on_none
        (cfg : config) (w : world) (fuel : nat) (s : state) :
  (forall from_addr,
      main_mitm_handler cfg w fuel None from_addr s = Ret tt s) /\
  (forall data,
      main_mitm_handler cfg w fuel data None s = Ret tt s) /\
  (forall send from_addr,
      _main_mitm_handler cfg w send None from_addr s = Ret tt s) /\
  (forall send data,
      _main_mitm_handler cfg w send data None s = Ret tt s).
Proof.
  unfold main_mitm_handler, _main_mitm_handler.
  repeat split; intros; try reflexivity; destruct data; reflexivity.
Qed.

(** C8.  A datagram whose source host is not the cloud host makes the
    handler set the device address to that source, whatever address was
    learned before, and go on as for device traffic from the state so
    updated; when the handler ends, the device address is that source
    unless a further datagram was received in the meantime; with remote
    forwarding disabled the handler always ends, with the device address
    set to that source. *)
Theorem device_address_set_on_every_device_datagram
        (cfg : config) (w : world) (fuel : nat) (s : state)
        (d : payload) (a : addr) :
  String.eqb (fst a) (fst (enelx_addr cfg)) = false ->
  main_mitm_handler cfg w fuel (Some d) (Some a) s =
    forward_to_cloud cfg w (fun d t => send_data_to cfg w fuel d t 100) d
                     (set_juicebox_addr (Some a) s) /\
  match main_mitm_handler cfg w fuel (Some d) (Some a) s with
  | Ret _ s' | Raise _ s' =>
      count_events is_recv (trace s') = count_events is_recv (trace s) ->
      juicebox_addr s' = Some a
  | OutOfFuel => ignore_remote cfg = false
  end.
Proof.
  intros H. split; [apply handler_from_device, H|].
  rewrite (handler_from_device cfg w fuel s d a H).
  pose proof (@learned_invariant cfg w
                (count_events is_recv (trace s)) a fuel d
                (set_juicebox_addr (Some a) s)) as Hinv.
  assert (H0 : learned (count_events is_recv (trace s)) a
                       (set_juicebox_addr (Some a) s)).
  { split; [apply Nat.le_refl|reflexivity]. }
  specialize (Hinv H0).
  destruct (forward_to_cloud cfg w _ d (set_juicebox_addr (Some a) s))
    as [u s'|e s'|] eqn:Hrun; simpl in Hinv.
  - apply Hinv.
  - apply Hinv.
  - unfold forward_to_cloud, bind, call_local in Hrun.
    destruct (local_mitm_handler w _ d); [|discriminate].
    destruct (ignore_remote cfg); [discriminate|reflexivity].
Qed.

Lemma device_address_set_on_every_device_datagram_witness :
  String.eqb (fst Scenarios.device')
             (fst (enelx_addr Scenarios.cfg3)) = false /\
  match main_mitm_handler Scenarios.cfg3 (Scenarios.calm Scenarios.seconds)
          5 (Some Scenarios.hello) (Some Scenarios.device')
          Scenarios.device_known with
  | Ret _ s' | Raise _ s' =>
      count_events is_recv (trace s') =
        count_events is_recv (trace Scenarios.device_known) ->
      juicebox_addr s' = Some Scenarios.device'
  | OutOfFuel => ignore_remote Scenarios.cfg3 = false
  end.
Proof.
  split; [reflexivity|].
  apply (device_address_set_on_every_device_datagram
           Scenarios.cfg3 (Scenarios.calm Scenarios.seconds) 5
           Scenarios.device_known Scenarios.hello Scenarios.device').
  reflexivity.
Defined.

(** C4 fails on the code.  [ChildProcessError] is an [OSError], so the
    [except OSError] clause of the handler catches every fatal failure
    that [send_data] raises; the clause then looks up
    [errno.errorcode[e.errno]] with [e.errno] being [None] and raises
    [KeyError], without reaching the diagnostic or the fault recorder.
    So when the three transmissions of a device datagram time out,
    [send_data] raises "unable to send" and the handler ends with
    [KeyError]. *)
Theorem unable_to_send_is_caught_by_the_handler :
  (forall cfg w f side dest s,
      try_except (raise (ChildProcessError f)) is_OSError
                 (on_send_OSError cfg w side dest) s
      = Raise KeyError s) /\
  exists s1 s2,
    call_local Scenarios.sends_time_out Scenarios.hello
               (set_juicebox_addr (Some Scenarios.device)
                                  Scenarios.socket_held)
      = Ret Scenarios.hello s1 /\
    send_data_to Scenarios.cfg10 Scenarios.sends_time_out 5
                 Scenarios.hello (Some Scenarios.cloud) 100 s1
      = Raise (ChildProcessError UnableToSend) s2 /\
    main_mitm_handler Scenarios.cfg10 Scenarios.sends_time_out 5
                      (Some Scenarios.hello) (Some Scenarios.device)
                      Scenarios.socket_held
      = Raise KeyError s2 /\
    count_events is_send (trace s2) = 3%nat /\
    faults (trace s2) = error_timestamp_list s2 /\
    error_count s2 = 3.
Proof.
  split; [reflexivity|].
  eexists. eexists.
  split; [vm_compute; reflexivity|].
  split; [vm_compute; reflexivity|].
  split; [vm_compute; reflexivity|].
  split; [vm_compute; reflexivity|].
  split; vm_compute; reflexivity.
Qed.

(** ** The bind loop *)

Section Connect.

Variable cfg : config.
Variable w : world.

Lemma connect_loop_unfold (n : nat) (a : Z) (s : state) :
  connect_loop cfg w n a s =
  if connect_guard cfg a s then
    match n with
    | O => OutOfFuel
    | S n' =>
        match connect_attempt_body cfg w s with
        | Ret _ s1 => connect_loop cfg w n' (a + 1) s1
        | Raise e s1 => Raise e s1
        | OutOfFuel => OutOfFuel
        end
    end
  else Ret tt s.
Proof. destruct n; simpl; unfold bind, get; destruct (connect_guard cfg a s); reflexivity. Qed.

Lemma connect_guard_socket (a : Z) (s : state) :
  dgram s <> None -> connect_guard cfg a s = false.
Proof. unfold connect_guard. destruct (dgram s); [reflexivity|congruence]. Qed.

Lemma connect_guard_attempts (a : Z) (s : state) :
  connect_guard cfg a s = true -> a <= MAX_CONNECT_ATTEMPT cfg.
Proof.
  unfold connect_guard. intros H.
  apply andb_prop in H. destruct H as [H _].
  apply andb_prop in H. destruct H as [_ H]. now apply Z.leb_le.
Qed.

Lemma _connect_after_loop (loop : M Empty_set) (s : state) :
  _connect cfg w loop s =
  match connect_loop cfg w (Z.to_nat (MAX_CONNECT_ATTEMPT cfg)) 1 s with
  | Ret _ s' => after_connect_loop loop s'
  | Raise e s' => Raise e s'
  | OutOfFuel => OutOfFuel
  end.
Proof.
  unfold _connect, after_connect_loop, bind, get, raise.
  destruct (connect_loop cfg w (Z.to_nat (MAX_CONNECT_ATTEMPT cfg)) 1 s)
    as [u s'|e s'|]; try reflexivity.
  destruct (dgram s'); [|reflexivity].
  destruct (mitm_loop_task s') as [[]|].
  destruct (loop s') as [[] ?| |]; reflexivity.
Qed.

(** One turn of the bind loop does what the oracle says of its bind and
    of its sleep. *)
Lemma connect_attempt_body_ends_turn (s : state) :
  ends_turn cfg w s (connect_attempt_body cfg w s).
Proof.
  unfold ends_turn, turn_bound, turn_failed, turn_broken, same_faults,
    same_but_socket, bind_holds_lock, connect_attempt_body, bind,
    try_except, sending_lock_locked, with_lock, dgram_bind.
  destruct s as [lk dg ja mt ec el tk tr]. cbn.
  replace (tk + 2)%nat with (S (S tk)) by lia.
  replace (tk + 3)%nat with (S (S (S tk))) by lia.
  replace (tk + 4)%nat with (S (S (S (S tk)))) by lia.
  replace (tk + 5)%nat with (S (S (S (S (S tk))))) by lia.
  destruct lk; cbn; destruct (lock_locked w tk); cbn;
    destruct (bind_result w (S tk)) as [e|]; cbn;
    try (destruct (is_OSError e); cbn);
    try rewrite add_error_run; unfold modify, sleep; cbn;
    eexists;
    (split; [|reflexivity]);
    cbn; rewrite <- ?app_assoc; cbn;
    repeat split; reflexivity.
Qed.

Lemma failed_turns_snoc (k : nat) :
  forall a s sk s',
    failed_turns cfg w k a s sk ->
    failed_turn cfg w (a + Z.of_nat k) sk s' ->
    failed_turns cfg w (S k) a s s'.
Proof.
  induction k as [|k IH]; intros a s sk s' H1 H2.
  - inversion H1; subst. rewrite Z.add_0_r in H2.
    econstructor; [exact H2|constructor].
  - inversion H1 as [|? ? ? s1 ? Hf Hr]; subst.
    econstructor; [exact Hf|]. eapply IH; [exact Hr|].
    replace (a + 1 + Z.of_nat k) with (a + Z.of_nat (S k)) by lia.
    exact H2.
Qed.

Lemma failed_turns_trace (k : nat) (a : Z) (s sk : state) :
  failed_turns cfg w k a s sk ->
  exists fails,
    trace sk = trace s ++ fails /\ failed_binds k fails /\
    tick sk = (tick s + 5 * k)%nat /\
    (k <> 0%nat -> dgram sk = None) /\ (k = 0%nat -> sk = s).
Proof.
  induction 1 as [a s|k a s s1 s' Hf Hr IH].
  - exists []. rewrite app_nil_r.
    repeat split; auto; try constructor; try lia; congruence.
  - destruct IH as [fails [Ht [Hb [Hk [Hd H0]]]]].
    destruct Hf as [_ [_ [_ [Ht1 [Hd1 [Htr1 _]]]]]].
    eexists. split; [rewrite Ht, Htr1, <- app_assoc; reflexivity|].
    split; [simpl; constructor; exact Hb|].
    split; [lia|]. split; [|discriminate].
    intros _. destruct k; [rewrite (H0 eq_refl); exact Hd1|].
    apply Hd. discriminate.
Qed.

(** The loop: some failed turns, then either the guard ends it, or one
    more turn does, by binding or by raising. *)
Lemma connect_loop_run (n : nat) :
  forall a s,
    MAX_CONNECT_ATTEMPT cfg - a + 1 <= Z.of_nat n ->
    exists k sk,
      failed_turns cfg w k a s sk /\
      (k <> 0%nat -> a + Z.of_nat k <= MAX_CONNECT_ATTEMPT cfg + 1) /\
      if connect_guard cfg (a + Z.of_nat k) sk then
        match connect_attempt_body cfg w sk with
        | Ret _ s' =>
            dgram s' <> None /\ connect_loop cfg w n a s = Ret tt s'
        | Raise e s' => connect_loop cfg w n a s = Raise e s'
        | OutOfFuel => False
        end
      else connect_loop cfg w n a s = Ret tt sk.
Proof.
  induction n as [|n IH]; intros a s Hn.
  - exists 0%nat, s. split; [constructor|]. split; [congruence|].
    rewrite Z.add_0_r, connect_loop_unfold.
    destruct (connect_guard cfg a s) eqn:Hg; [|reflexivity].
    apply connect_guard_attempts in Hg. simpl in Hn. lia.
  - destruct (connect_guard cfg a s) eqn:Hg.
    + pose proof (connect_guard_attempts _ _ Hg) as Ha.
      pose proof (connect_attempt_body_ends_turn s) as Hb.
      unfold ends_turn in Hb.
      destruct (bind_result w (S (tick s))) as [e|] eqn:Hbind.
      * destruct (is_OSError e) eqn:Hos.
        -- destruct Hb as [s1 [Hf Hr]].
           destruct (sleep_result w (tick s + 4)) as [e'|] eqn:Hsl.
           ++ exists 0%nat, s. split; [constructor|]. split; [congruence|].
              rewrite Z.add_0_r, Hg, Hr, connect_loop_unfold, Hg, Hr.
              reflexivity.
           ++ assert (Hft : failed_turn cfg w a s s1).
              { split; [exact Hg|]. split; [eauto|]. split; assumption. }
              destruct (IH (a + 1) s1) as [k [sk [Hk [Hbd Hend]]]]; [lia|].
              exists (S k), sk.
              split; [econstructor; eassumption|].
              split.
              { intros _. destruct k; [lia|].
                assert (S k <> 0%nat) by discriminate. specialize (Hbd H).
                lia. }
              replace (a + Z.of_nat (S k)) with (a + 1 + Z.of_nat k) by lia.
              rewrite (connect_loop_unfold (S n) a s), Hg, Hr.
              exact Hend.
        -- destruct Hb as [s1 [Hf Hr]].
           exists 0%nat, s. split; [constructor|]. split; [congruence|].
           rewrite Z.add_0_r, Hg, Hr, connect_loop_unfold, Hg, Hr.
           reflexivity.
      * destruct Hb as [s1 [Hf Hr]].
        exists 0%nat, s. split; [constructor|]. split; [congruence|].
        assert (Hd : dgram s1 <> None).
        { destruct Hf as [_ [Hd _]]. rewrite Hd. discriminate. }
        rewrite Z.add_0_r, Hg, Hr, connect_loop_unfold, Hg, Hr.
        destruct (sleep_result w (tick s + 2)); [reflexivity|].
        split; [exact Hd|].
        now rewrite connect_loop_unfold, (connect_guard_socket _ _ Hd).
    + exists 0%nat, s. split; [constructor|]. split; [congruence|].
      rewrite Z.add_0_r, Hg, connect_loop_unfold, Hg. reflexivity.
Qed.

End Connect.

(** C6.  [_connect], in any state and against any world.  Every turn of
    its loop makes one bind attempt, and ends as the outside world makes
    that bind and the sleep after it end: a bind that succeeds leaves
    the socket held, a bind that fails with an [OSError] is recorded as a
    fault and leaves none, and both are followed by the sleep of 5 s; any
    other exception leaves [_connect] as it is.  The loop makes some
    number [k] of failed turns, each begun with no socket held, the
    attempt number within MAX_CONNECT_ATTEMPT and the error count below
    MAX_ERROR_COUNT, so [k] is at most MAX_CONNECT_ATTEMPT.  Then either
    the guard no longer holds and the loop ends, or one more turn, within
    the maximum too, binds the socket or raises.  When the loop has ended
    without a socket [_connect] raises "unable to start", and when it has
    ended with one [_connect] raises nothing of its own and goes on to
    the receive loop. *)
Theorem connect_makes_bounded_bind_attempts
        (cfg : config) (w : world) (loop : M Empty_set) (s : state) :
  (forall s0, ends_turn cfg w s0 (connect_attempt_body cfg w s0)) /\
  exists k sk fails,
    failed_turns cfg w k 1 s sk /\
    Z.of_nat k <= Z.max 0 (MAX_CONNECT_ATTEMPT cfg) /\
    trace sk = trace s ++ fails /\ failed_binds k fails /\
    (k <> 0%nat -> dgram sk = None) /\ (k = 0%nat -> sk = s) /\
    if connect_guard cfg (1 + Z.of_nat k) sk then
      Z.of_nat (S k) <= MAX_CONNECT_ATTEMPT cfg /\
      match connect_attempt_body cfg w sk with
      | Ret _ s' =>
          dgram s' <> None /\
          _connect cfg w loop s = after_connect_loop loop s'
      | Raise e s' => _connect cfg w loop s = Raise e s'
      | OutOfFuel => False
      end
    else _connect cfg w loop s = after_connect_loop loop sk.
Proof.
  split; [apply connect_attempt_body_ends_turn|].
  destruct (@connect_loop_run cfg w (Z.to_nat (MAX_CONNECT_ATTEMPT cfg)) 1 s)
    as [k [sk [Hk [Hbd Hend]]]]; [lia|].
  destruct (failed_turns_trace Hk) as [fails [Ht [Hf [_ [Hd H0]]]]].
  exists k, sk, fails.
  split; [exact Hk|].
  split.
  { destruct k; [lia|]. assert (Hne : S k <> 0%nat) by discriminate.
    specialize (Hbd Hne). lia. }
  split; [exact Ht|]. split; [exact Hf|]. split; [exact Hd|].
  split; [exact H0|].
  rewrite _connect_after_loop.
  destruct (connect_guard cfg (1 + Z.of_nat k) sk) eqn:Hg.
  - split; [apply connect_guard_attempts in Hg; lia|].
    destruct (connect_attempt_body cfg w sk) as [u s'|e s'|]; [| |exact Hend].
    + destruct Hend as [Hs' Hl]. rewrite Hl. split; [exact Hs'|reflexivity].
    + now rewrite Hend.
  - now rewrite Hend.
Qed.

(** ** [send_data] *)

(** [_connect] never returns normally: it raises, or it runs the receive
    loop, which never returns. *)
Lemma connect_never_returns (cfg : config) (w : world)
      (loop : M Empty_set) (s : state) :
  match _connect cfg w loop s with
  | Ret _ _ => False
  | _ => True
  end.
Proof.
  unfold _connect, bind, get, raise.
  destruct (connect_loop cfg w _ 1 s) as [u s'|e s'|]; auto.
  destruct (dgram s'); auto.
  destruct (mitm_loop_task s') as [[]|].
  destruct (loop s') as [[] ?| |]; auto.
Qed.

Section Send.

Variable cfg : config.
Variable w : world.
Variable c : M unit.
Variables (d : payload) (t : option addr) (b : Z).

Hypothesis c_never_returns :
  forall s, match c s with Ret _ _ => False | _ => True end.

Let ms := Z.max b 100.

Lemma send_loop_unfold (n : nat) (sent : bool) (a : Z) (s : state) :
  send_loop cfg w n c d t b sent a s =
  if negb sent && (a <=? SEND_DATA_RETRIES) then
    match n with
    | O => OutOfFuel
    | S n' =>
        match send_attempt_body cfg w c d t b s with
        | Ret sent' s1 => send_loop cfg w n' c d t b sent' (a + 1) s1
        | Raise e s1 => Raise e s1
        | OutOfFuel => OutOfFuel
        end
    end
  else Ret sent s.
Proof.
  destruct n; simpl; unfold bind, ret;
    destruct (negb sent && (a <=? SEND_DATA_RETRIES)); reflexivity.
Qed.

(** A turn begun without a socket reconnects first, and so never gets to
    its transmission. *)
Lemma send_attempt_body_reconnects (s : state) :
  dgram s = None ->
  send_attempt_body cfg w c d t b s =
  match c s with
  | Raise e s' => Raise e s'
  | _ => OutOfFuel
  end.
Proof.
  intros Hd. unfold send_attempt_body, bind at 1. unfold get.
  rewrite Hd. unfold bind at 1. pose proof (c_never_returns s) as Hc.
  destruct (c s); [contradiction|reflexivity|reflexivity].
Qed.

(** A turn begun with a socket does what the oracle says of the wait for
    the lock, of the transmission and of the sleep. *)
Lemma send_attempt_body_ends_turn (s : state) :
  dgram s <> None ->
  ends_send_turn cfg w d t ms s (send_attempt_body cfg w c d t b s).
Proof.
  intros Hd. subst ms.
  unfold ends_send_turn, send_turn_fault, turn_faulted, turn_sent,
    turn_send_broken, fault_recorded, same_faults, same_but_socket,
    after_sleep, send_attempt_body, transmit, wait_for_lock,
    deadline_passes_waiting, with_lock, try_except, dgram_send, bind, get,
    ret.
  destruct s as [lk dg ja mt ec el tk tr]. cbn in *.
  destruct dg as [k|]; [|congruence].
  replace (tk + 1)%nat with (S tk) by lia.
  replace (tk + 3)%nat with (S (S (S tk))) by lia.
  replace (tk + 2)%nat with (S (S tk)) by lia.
  replace (tk + 4)%nat with (S (S (S (S tk)))) by lia.
  destruct lk; cbn.
  - try rewrite add_error_run. unfold sleep. cbn.
    destruct (sleep_result w (S (S (S tk)))); cbn;
      eexists; (split; [|reflexivity]); cbn; rewrite <- ?app_assoc; cbn;
      repeat split; reflexivity.
  - destruct (lock_locked w tk); cbn;
      (destruct (send_result w tk) as [e|] eqn:Hr;
       [destruct e as [| |[n|]|f| | | |]|]);
      cbn; rewrite ?Hr; cbn;
      try (destruct (n =? ETIMEDOUT) eqn:Hn; cbn; rewrite ?Hn; cbn);
      try rewrite add_error_run; unfold modify, sleep; cbn;
      try match goal with
          | |- context [sleep_result w ?k] => destruct (sleep_result w k)
          end; cbn;
      eexists; (split; [|reflexivity]); cbn;
      rewrite <- ?app_assoc; cbn; repeat split; reflexivity.
Qed.

Lemma send_attempt_body_failed (s s1 : state) :
  send_attempt_body cfg w c d t b s = Ret false s1 ->
  failed_send_turn cfg w d t ms s s1.
Proof.
  intros Hr. destruct (dgram s) as [k|] eqn:Hd.
  - assert (Hne : dgram s <> None) by congruence.
    pose proof (@send_attempt_body_ends_turn s Hne) as He.
    rewrite Hr in He. unfold ends_send_turn, after_sleep in He.
    split; [exact Hne|].
    destruct (send_turn_fault w s) as [[x y]|].
    + destruct He as [s' [Hf Heq]]. exists x, y.
      destruct (sleep_result w (tick s + 3)); [discriminate|].
      injection Heq as <-. auto.
    + destruct (send_result w (tick s)).
      * destruct He as [s' [_ Heq]]. discriminate.
      * destruct He as [s' [_ Heq]].
        destruct (sleep_result w (tick s + 1)); discriminate.
  - rewrite (@send_attempt_body_reconnects s Hd) in Hr.
    destruct (c s); discriminate.
Qed.

(** The loop: some failed turns, then either the attempts are used up,
    or one more turn ends the loop by transmitting or by raising. *)
Lemma send_loop_run (n : nat) :
  forall a s,
    1 <= a -> SEND_DATA_RETRIES + 1 - a <= Z.of_nat n ->
    exists k sk,
      failed_send_turns cfg w d t ms k s sk /\
      (k <> 0%nat -> a + Z.of_nat k <= SEND_DATA_RETRIES + 1) /\
      if a + Z.of_nat k <=? SEND_DATA_RETRIES then
        match send_attempt_body cfg w c d t b sk with
        | Ret true s' =>
            send_loop cfg w n c d t b false a s = Ret true s'
        | Ret false _ => False
        | Raise e s' => send_loop cfg w n c d t b false a s = Raise e s'
        | OutOfFuel => send_loop cfg w n c d t b false a s = OutOfFuel
        end
      else send_loop cfg w n c d t b false a s = Ret false sk.
Proof.
  assert (Hstop : forall m a s,
             (a <=? SEND_DATA_RETRIES) = false ->
             exists k sk,
               failed_send_turns cfg w d t ms k s sk /\
               (k <> 0%nat -> a + Z.of_nat k <= SEND_DATA_RETRIES + 1) /\
               if a + Z.of_nat k <=? SEND_DATA_RETRIES then
                 match send_attempt_body cfg w c d t b sk with
                 | Ret true s' =>
                     send_loop cfg w m c d t b false a s = Ret true s'
                 | Ret false _ => False
                 | Raise e s' =>
                     send_loop cfg w m c d t b false a s = Raise e s'
                 | OutOfFuel =>
                     send_loop cfg w m c d t b false a s = OutOfFuel
                 end
               else send_loop cfg w m c d t b false a s = Ret false sk).
  { intros m a s Hg. exists 0%nat, s. split; [constructor|].
    split; [congruence|]. rewrite Z.add_0_r, Hg, send_loop_unfold.
    cbn [negb andb]. now rewrite Hg. }
  induction n as [|n IH]; intros a s Ha Hn;
    destruct (a <=? SEND_DATA_RETRIES) eqn:Hg; try (now apply Hstop).
  - apply Z.leb_le in Hg. change (Z.of_nat 0) with 0 in Hn. lia.
  - assert (Hone : forall r,
               send_attempt_body cfg w c d t b s = r ->
               match r with Ret false _ => False | _ => True end ->
               exists k sk,
                 failed_send_turns cfg w d t ms k s sk /\
                 (k <> 0%nat ->
                  a + Z.of_nat k <= SEND_DATA_RETRIES + 1) /\
                 if a + Z.of_nat k <=? SEND_DATA_RETRIES then
                   match send_attempt_body cfg w c d t b sk with
                   | Ret true s' =>
                       send_loop cfg w (S n) c d t b false a s = Ret true s'
                   | Ret false _ => False
                   | Raise e s' =>
                       send_loop cfg w (S n) c d t b false a s = Raise e s'
                   | OutOfFuel =>
                       send_loop cfg w (S n) c d t b false a s = OutOfFuel
                   end
                 else send_loop cfg w (S n) c d t b false a s
                      = Ret false sk).
    { intros r Hb Hr. exists 0%nat, s. split; [constructor|].
      split; [congruence|]. rewrite Z.add_0_r, Hg, send_loop_unfold.
      cbn [negb andb]. rewrite Hg, Hb.
      destruct r as [[|] s1|e s1|]; try reflexivity; try contradiction.
      now rewrite send_loop_unfold. }
    destruct (send_attempt_body cfg w c d t b s) as [[|] s1|e s1|] eqn:Hb;
      try (now apply (Hone _ eq_refl)).
    pose proof (@send_attempt_body_failed s s1 Hb) as Hf.
    apply Z.leb_le in Hg.
    destruct (IH (a + 1) s1) as [k [sk [Hk [Hbd Hend]]]]; [lia|lia|].
    exists (S k), sk. split; [econstructor; eassumption|].
    split.
    { intros _. destruct k; [lia|].
      assert (Hne : S k <> 0%nat) by discriminate.
      specialize (Hbd Hne). lia. }
    replace (a + Z.of_nat (S k)) with (a + 1 + Z.of_nat k) by lia.
    rewrite (send_loop_unfold (S n) false a s). cbn [negb andb].
    replace (a <=? SEND_DATA_RETRIES) with true
      by (symmetry; now apply Z.leb_le).
    rewrite Hb. exact Hend.
Qed.

(** What the failed turns leave in the trace: at most one transmission
    and exactly one fault each. *)
Lemma failed_send_turns_trace (k : nat) (s sk : state) :
  failed_send_turns cfg w d t ms k s sk ->
  exists new,
    trace sk = trace s ++ new /\
    (count_events is_send new <= k)%nat /\
    List.length (faults new) = k /\
    count_events is_bind new = 0%nat.
Proof.
  induction 1 as [s|k s s1 s' Hf Hr IH].
  - exists []. rewrite app_nil_r. repeat split; auto.
  - destruct IH as [new [Ht [Hc [Hl Hb]]]].
    destruct Hf as [_ [x [y [_ [_ [_ [Ht1 _]]]]]]].
    eexists. split; [rewrite Ht, Ht1, <- !app_assoc; reflexivity|].
    unfold count_events in *.
    destruct x; cbn; repeat split; try lia; auto.
Qed.

End Send.

(** C5.  [send_data], in any state and against any world.  A turn begun
    without a socket calls [_connect] first.  A turn begun with one ends
    as the outside world makes the wait for the lock, the transmission
    and the sleep end: a transmission that goes through is followed by
    the sleep of max(blocking_time, 0.1 s) and ends the loop; a closed
    transport records a fault and drops the socket; a timeout, of the
    transmission or of the wait for the lock, in which case nothing is
    transmitted, records a fault and keeps the socket; both are followed
    by the same sleep, and the loop goes on; any other exception leaves
    [send_data] as it is.  The loop makes some number [k] of failed
    turns, at most SEND_DATA_RETRIES, with at most one transmission and
    exactly one fault each.  After SEND_DATA_RETRIES failed turns
    [send_data] raises "unable to send"; after fewer, one more turn ends
    it, by a transmission that goes through or by an exception. *)
Theorem send_data_retries_then_gives_up
        (cfg : config) (w : world) (fuel : nat)
        (d : payload) (t : option addr) (b : Z) (s : state) :
  let c := connect cfg w fuel in
  let ms := Z.max b 100 in
  (forall s0,
      dgram s0 = None ->
      send_attempt_body cfg w c d t b s0 =
      match c s0 with
      | Raise e s' => Raise e s'
      | _ => OutOfFuel
      end) /\
  (forall s0,
      dgram s0 <> None ->
      ends_send_turn cfg w d t ms s0 (send_attempt_body cfg w c d t b s0)) /\
  exists k sk new,
    failed_send_turns cfg w d t ms k s sk /\
    Z.of_nat k <= SEND_DATA_RETRIES /\
    trace sk = trace s ++ new /\
    (count_events is_send new <= k)%nat /\
    List.length (faults new) = k /\
    if Z.of_nat k <? SEND_DATA_RETRIES then
      match send_attempt_body cfg w c d t b sk with
      | Ret true s' => send_data_to cfg w fuel d t b s = Ret tt s'
      | Ret false _ => False
      | Raise e s' => send_data_to cfg w fuel d t b s = Raise e s'
      | OutOfFuel => send_data_to cfg w fuel d t b s = OutOfFuel
      end
    else
      send_data_to cfg w fuel d t b s
      = Raise (ChildProcessError UnableToSend) sk.
Proof.
  intros c ms.
  assert (Hc : forall s0, match c s0 with Ret _ _ => False | _ => True end)
    by (intros s0; apply connect_never_returns).
  split; [intros s0; now apply send_attempt_body_reconnects|].
  split; [intros s0 Hd; now apply send_attempt_body_ends_turn|].
  destruct (@send_loop_run cfg w c d t b Hc (Z.to_nat SEND_DATA_RETRIES) 1 s)
    as [k [sk [Hk [Hbd Hend]]]];
    [lia|unfold SEND_DATA_RETRIES; simpl; lia|].
  destruct (@failed_send_turns_trace cfg w d t b k s sk Hk)
    as [new [Ht [Hs [Hl _]]]].
  exists k, sk, new.
  split; [exact Hk|].
  split.
  { destruct k; [unfold SEND_DATA_RETRIES; lia|].
    assert (Hne : S k <> 0%nat) by discriminate.
    specialize (Hbd Hne). lia. }
  split; [exact Ht|].
  split; [exact Hs|]. split; [exact Hl|].
  unfold send_data_to, send_data. fold c. unfold bind.
  replace (Z.of_nat k <? SEND_DATA_RETRIES)
    with (1 + Z.of_nat k <=? SEND_DATA_RETRIES)
    by (destruct (Z.ltb_spec (Z.of_nat k) SEND_DATA_RETRIES);
        destruct (Z.leb_spec (1 + Z.of_nat k) SEND_DATA_RETRIES);
        auto; lia).
  destruct (1 + Z.of_nat k <=? SEND_DATA_RETRIES).
  - destruct (send_attempt_body cfg w c d t b sk) as [[|] s'|e s'|];
      try contradiction; now rewrite Hend.
  - now rewrite Hend.
Qed.

(** ** The error window and the breaker *)

Section Breaker.

Variable cfg : config.
Variable w : world.

Lemma faults_snoc (tr : list event) (e : event) :
  faults (tr ++ [e]) =
  faults tr ++ match e with EError t _ => [t] | _ => [] end.
Proof.
  induction tr as [|a tr IH]; simpl.
  - destruct e; reflexivity.
  - destruct a; simpl; rewrite IH; reflexivity.
Qed.

Lemma last_now_from_snoc (tr : list event) (e : event) :
  forall acc,
    last_now_from acc (tr ++ [e]) =
    match e with
    | EError _ now => Some now
    | _ => last_now_from acc tr
    end.
Proof.
  induction tr as [|a tr IH]; intros acc; simpl.
  - destruct e; reflexivity.
  - destruct a; simpl; apply IH.
Qed.

Lemma last_now_from_started (tr : list event) :
  forall now, last_now_from (Some now) tr <> None.
Proof.
  induction tr as [|a tr IH]; intros now; simpl; [discriminate|].
  destruct a; apply IH.
Qed.

Lemma last_now_none (tr : list event) :
  forall acc, last_now_from acc tr = None -> faults tr = [].
Proof.
  induction tr as [|a tr IH]; intros acc H; simpl in *; [reflexivity|].
  destruct a; try (eapply IH; eassumption).
  exfalso. eapply last_now_from_started, H.
Qed.

Lemma filter_cutoff_twice (c1 c2 : Z) (l : list Z) :
  c1 <= c2 ->
  filter (fun el => c2 <? el) (filter (fun el => c1 <? el) l) =
  filter (fun el => c2 <? el) l.
Proof.
  intros Hc. induction l as [|x l IH]; simpl; [reflexivity|].
  destruct (c1 <? x) eqn:H1; simpl; rewrite IH; [reflexivity|].
  destruct (c2 <? x) eqn:H2; [|reflexivity].
  apply Z.ltb_lt in H2. apply Z.ltb_ge in H1. lia.
Qed.

Hypothesis clock_is_monotone : clock_monotone w.

Lemma consistent_add_error (s : state) :
  consistent cfg w s ->
  match _add_error cfg w s with
  | Ret _ s' => consistent cfg w s'
  | _ => False
  end.
Proof.
  intros [Hl [Hn Hk]]. rewrite add_error_run.
  unfold consistent, faults_in_window, last_now.
  cbn [error_timestamp_list error_count trace tick].
  rewrite last_now_from_snoc, faults_snoc.
  split; [|split; [reflexivity|]].
  - rewrite Hl. unfold faults_in_window.
    destruct (last_now (trace s)) as [now|] eqn:Hlast.
    + destruct (Hk now eq_refl) as [k [Hlt Hnow]].
      rewrite !filter_app. f_equal.
      apply filter_cutoff_twice. unfold time_cutoff_of.
      assert (clock w k <= clock w (S (tick s)))
        by (apply clock_is_monotone; lia).
      lia.
    + rewrite (last_now_none _ _ Hlast). reflexivity.
  - intros now H. injection H as H. exists (S (tick s)).
    split; [lia|now symmetry].
Qed.

Lemma consistent_same (s s' : state) :
  consistent cfg w s ->
  error_timestamp_list s' = error_timestamp_list s ->
  error_count s' = error_count s ->
  faults (trace s') = faults (trace s) ->
  last_now (trace s') = last_now (trace s) ->
  (tick s <= tick s')%nat ->
  consistent cfg w s'.
Proof.
  intros [Hl [Hn Hk]] H1 H2 H3 H4 H5.
  unfold consistent, faults_in_window in *. rewrite H1, H2, H3, H4.
  split; [exact Hl|]. split; [exact Hn|].
  intros now Hnow. destruct (Hk now Hnow) as [k [Hlt Heq]].
  exists k. split; [lia|exact Heq].
Qed.

Hypothesis world_is_plain : world_raises_no_failure w.

Lemma plain_exn (o : option exn) (e : exn) (s : state) :
  raises_failure o = false -> o = Some e -> breaker_exn cfg e s.
Proof. intros H Ho Hf. subst o. simpl in H. congruence. Qed.

Lemma plain_exn' (e : exn) (s : state) :
  is_failure e = false -> breaker_exn cfg e s.
Proof. intros H Hf. congruence. Qed.

Ltac keep_consistent :=
  eapply consistent_same;
  [ eassumption | reflexivity | reflexivity
  | simpl; rewrite ?faults_snoc; simpl; rewrite ?app_nil_r; reflexivity
  | simpl; unfold last_now; rewrite ?last_now_from_snoc; reflexivity
  | simpl; lia ].

Lemma consistent_invariant (fuel : nat) :
  inv (consistent cfg w) (breaker_exn cfg) (_mitm_loop cfg w fuel) /\
  inv (consistent cfg w) (breaker_exn cfg) (connect cfg w fuel).
Proof.
  cut (inv (consistent cfg w) (breaker_exn cfg) (_mitm_loop cfg w fuel) /\
       inv (consistent cfg w) (breaker_exn cfg) (connect cfg w fuel) /\
       (forall d t b,
           inv (consistent cfg w) (breaker_exn cfg)
               (send_data_to cfg w fuel d t b)) /\
       (forall d,
           inv (consistent cfg w) (breaker_exn cfg)
               (forward_to_cloud cfg w
                  (fun d t => send_data_to cfg w fuel d t 100) d)) /\
       (forall d a s,
           consistent cfg w s ->
           (forall a', consistent cfg w (set_juicebox_addr a' s)) ->
           okr (consistent cfg w) (breaker_exn cfg)
               (main_mitm_handler cfg w fuel d a s))).
  { intros [H1 [H2 _]]. split; assumption. }
  apply engine_invariant; unfold inv, okr, okq; intros;
    try keep_consistent.
  - unfold sleep. destruct (world_is_plain (tick s)) as [_ [_ [Hp _]]].
    destruct (sleep_result w (tick s)) eqn:Hr;
      [split; [|eapply plain_exn; [exact Hp|reflexivity]]|];
      keep_consistent.
  - unfold dgram_bind. destruct (world_is_plain (tick s)) as [Hp _].
    destruct (bind_result w (tick s)) eqn:Hr;
      [split; [|eapply plain_exn; [exact Hp|reflexivity]]|];
      keep_consistent.
  - unfold dgram_send. destruct (dgram s);
      [|split; [assumption|intros Hf; discriminate]].
    destruct (world_is_plain (tick s)) as [_ [Hp _]].
    destruct (send_result w (tick s)) eqn:Hr;
      [split; [|eapply plain_exn; [exact Hp|reflexivity]]|];
      keep_consistent.
  - unfold dgram_recv.
    destruct (world_is_plain (tick s)) as [_ [_ [_ [Hp _]]]].
    destruct (recv_result w (tick s)) eqn:Hr.
    + split; [|intros a]; keep_consistent.
    + split; [keep_consistent|]. apply plain_exn'. eapply Hp. reflexivity.
  - unfold call_local.
    destruct (world_is_plain (tick s)) as [_ [_ [_ [_ [Hp _]]]]].
    destruct (local_mitm_handler w (tick s) d) eqn:Hr.
    + keep_consistent.
    + split; [keep_consistent|]. apply plain_exn'. eapply Hp. exact Hr.
  - unfold call_remote.
    destruct (world_is_plain (tick s)) as [_ [_ [_ [_ [_ Hp]]]]].
    destruct (remote_mitm_handler w (tick s) d) eqn:Hr.
    + keep_consistent.
    + split; [keep_consistent|]. apply plain_exn'. eapply Hp. exact Hr.
  - pose proof (consistent_add_error H) as Ha.
    destruct (_add_error cfg w s); [exact Ha|contradiction|contradiction].
  - intros Hf. unfold engine_raises in *.
    specialize (H Hf). exact H.
  - intros _. assumption.
Qed.

End Breaker.

Lemma consistent_init (cfg : config) (w : world) : consistent cfg w init_state.
Proof.
  split; [reflexivity|]. split; [reflexivity|].
  intros now H. discriminate.
Qed.

Lemma consistent_socket_held (cfg : config) (w : world) :
  consistent cfg w Scenarios.socket_held.
Proof.
  split; [reflexivity|]. split; [reflexivity|].
  intros now H. discriminate.
Qed.

Lemma seconds_monotone : clock_monotone (Scenarios.calm Scenarios.seconds).
Proof. intros j k H. unfold Scenarios.calm, Scenarios.seconds. simpl. lia. Qed.

Lemma calm_raises_no_failure (clk : nat -> Z) :
  world_raises_no_failure (Scenarios.calm clk).
Proof.
  intros k. simpl. repeat split; try reflexivity; intros; try discriminate.
  injection H as H. now subst e.
Qed.

(** C2 fails on the code.  The breaker is looked at where a turn of the
    receive loop begins, and where [_connect] decides on another bind.
    When the fault that brings the count to MAX_ERROR_COUNT is recorded
    by [send_data] inside the handler, for a transport found closed, the
    next turn of [send_data] reconnects, [_connect] makes no bind because
    the count is at the maximum and raises "unable to start", and the
    [except OSError] clause of the handler catches that
    [ChildProcessError] and dies with [KeyError] on
    [errno.errorcode[None]].  So this run, from the empty fault record
    with MAX_ERROR_COUNT = 3 and a look-back of 5 minutes, records three
    faults within 11 seconds, all inside the window, and the receive
    loop ends with [KeyError], which is no fatal failure of the class. *)
Theorem faults_inside_the_window_end_the_loop_with_KeyError :
  exists s',
    error_timestamp_list Scenarios.socket_held = [] /\
    error_count Scenarios.socket_held = 0 /\
    _mitm_loop Scenarios.cfg3 Scenarios.link_goes_down 10
               Scenarios.socket_held
      = Raise KeyError s' /\
    is_failure KeyError = false /\
    faults (trace s') = [1000; 3000; 11000] /\
    error_timestamp_list s' = faults (trace s') /\
    error_count s' = MAX_ERROR_COUNT Scenarios.cfg3 /\
    last_now (trace s') = Some 12000 /\
    forallb (fun t =>
               (12000 - ERROR_LOOKBACK_MIN Scenarios.cfg3 * 60000 <? t)
               && (t <=? 12000))
            (faults (trace s')) = true /\
    trace s' =
      [ERecv; EError 1000 2000; EError 3000 4000;
       EBind true true; ESleep 5000; ERecv;
       ELocal Scenarios.hello;
       ESend Scenarios.hello (Some Scenarios.cloud) true;
       EError 11000 12000; ESleep 100].
Proof.
  eexists.
  split; [reflexivity|]. split; [reflexivity|].
  split; [vm_compute; reflexivity|].
  repeat split; reflexivity.
Qed.

(** X16.  What holds of the breaker on every run.  From the empty fault
    record, under a clock that does not go backwards and callbacks that
    raise no [ChildProcessError] of their own, the error count is at
    every moment the number of recorded faults that were newer than the
    look-back at the latest recording; and when the receive loop raises
    the breaker failure, that number is at least MAX_ERROR_COUNT, so
    faults spaced more widely never raise it. *)
Theorem breaker_failure_needs_the_faults_inside_the_window
        (cfg : config) (w : world) (fuel : nat) :
  clock_monotone w ->
  world_raises_no_failure w ->
  consistent cfg w init_state /\
  (forall s,
      consistent cfg w s ->
      match _mitm_loop cfg w fuel s with
      | Ret t _ => match t with end
      | Raise e s' =>
          consistent cfg w s' /\
          error_count s' =
            Z.of_nat (List.length (faults_in_window cfg (trace s'))) /\
          forall n,
            e = ChildProcessError (MoreThanErrors n) ->
            n = error_count s' /\
            MAX_ERROR_COUNT cfg
              <= Z.of_nat (List.length (faults_in_window cfg (trace s')))
      | OutOfFuel => True
      end).
Proof.
  intros Hmono Hplain. split; [apply consistent_init|].
  intros s Hs.
  destruct (consistent_invariant cfg Hmono Hplain fuel) as [Hloop _].
  specialize (Hloop s Hs).
  destruct (_mitm_loop cfg w fuel s) as [[] ?|e s'|]; [|exact Logic.I].
  simpl in Hloop. destruct Hloop as [Hc He].
  split; [exact Hc|].
  assert (Hcount : error_count s' =
                   Z.of_nat (List.length
                               (faults_in_window cfg (trace s')))).
  { destruct Hc as [Hl [Hn _]]. now rewrite <- Hl. }
  split; [exact Hcount|].
  intros n Hn. subst e. specialize (He eq_refl).
  destruct He as [He|[He|[He|[He|[He|[He Hmax]]]]]]; try discriminate.
  injection He as He. split; [exact He|]. now rewrite <- Hcount.
Qed.

Lemma breaker_failure_needs_the_faults_inside_the_window_witness :
  clock_monotone (Scenarios.calm Scenarios.seconds) /\
  world_raises_no_failure (Scenarios.calm Scenarios.seconds) /\
  match _mitm_loop Scenarios.cfg3 (Scenarios.calm Scenarios.seconds) 30
                   Scenarios.socket_held with
  | Raise e s' =>
      e = ChildProcessError (MoreThanErrors 3) /\
      error_count s' = 3 /\
      MAX_ERROR_COUNT Scenarios.cfg3
        <= Z.of_nat
             (List.length (faults_in_window Scenarios.cfg3 (trace s')))
  | _ => False
  end.
Proof.
  split; [exact seconds_monotone|].
  split; [apply calm_raises_no_failure|].
  destruct (breaker_failure_needs_the_faults_inside_the_window
              Scenarios.cfg3 30 seconds_monotone
              (calm_raises_no_failure Scenarios.seconds))
    as [_ H].
  specialize (H Scenarios.socket_held (consistent_socket_held _ _)).
  remember (_mitm_loop Scenarios.cfg3 (Scenarios.calm Scenarios.seconds)
                       30 Scenarios.socket_held) as r eqn:Hr.
  vm_compute in Hr. subst r.
  destruct H as [_ [_ H]].
  split; [reflexivity|]. split; [reflexivity|].
  apply (H 3 eq_refl).
Defined.

(** * Properties of the codec *)

Import Codec.

Section Text.

Open Scope string_scope.

Lemma append_assoc (a b c : string) : (a ++ b) ++ c = a ++ (b ++ c).
Proof. induction a as [|x a IH]; simpl; [reflexivity|now rewrite IH]. Qed.

Lemma strip_prefix_app (pre : string) :
  forall s r, strip_prefix pre s = Some r -> s = pre ++ r.
Proof.
  induction pre as [|a pre IH]; intros s r H; simpl in *.
  - now injection H as ->.
  - destruct s as [|c s]; [discriminate|].
    destruct (Ascii.eqb a c) eqn:He; [|discriminate].
    apply Ascii.eqb_eq in He. subst c. f_equal. now apply IH.
Qed.

Lemma take_exact_app (n : nat) :
  forall s a r, take_exact n s = Some (a, r) -> s = a ++ r.
Proof.
  induction n as [|n IH]; intros s a r H; simpl in *.
  - injection H as <- <-. reflexivity.
  - destruct s as [|c s]; [discriminate|].
    destruct (take_exact n s) as [[a' r']|] eqn:Ht; [|discriminate].
    injection H as <- <-. simpl. f_equal. now apply IH.
Qed.

Lemma span_app (p : ascii -> bool) :
  forall s a r, span p s = (a, r) -> s = a ++ r.
Proof.
  induction s as [|c s IH]; intros a r H; simpl in *.
  - injection H as <- <-. reflexivity.
  - destruct (p c).
    + destruct (span p s) as [a' r'] eqn:Hs. injection H as <- <-.
      simpl. f_equal. now apply IH.
    + injection H as <- <-. reflexivity.
Qed.

Lemma break_on_app (sep : ascii) :
  forall s a r, break_on sep s = Some (a, r) -> s = a ++ String sep r.
Proof.
  induction s as [|c s IH]; intros a r H; simpl in *; [discriminate|].
  destruct (Ascii.eqb c sep) eqn:He.
  - apply Ascii.eqb_eq in He. subst c. injection H as <- <-. reflexivity.
  - destruct (break_on sep s) as [[a' r']|] eqn:Hb; [|discriminate].
    injection H as <- <-. simpl. f_equal. now apply IH.
Qed.

Lemma split_on_nonempty (sep : ascii) (s : string) : split_on sep s <> [].
Proof.
  destruct s as [|c s]; simpl; [discriminate|].
  destruct (Ascii.eqb c sep); [discriminate|].
  destruct (split_on sep s); discriminate.
Qed.

Lemma join_cons_char (sep c : ascii) (x : string) (xs : list string) :
  join sep (String c x :: xs) = String c (join sep (x :: xs)).
Proof. destruct xs; reflexivity. Qed.

Lemma join_cons_empty (sep : ascii) (x : string) (xs : list string) :
  join sep (EmptyString :: x :: xs) = String sep (join sep (x :: xs)).
Proof. reflexivity. Qed.

Lemma join_split_on (sep : ascii) :
  forall s, join sep (split_on sep s) = s.
Proof.
  induction s as [|c s IH]; [reflexivity|].
  pose proof (split_on_nonempty sep s) as Hne.
  cbn [split_on].
  destruct (Ascii.eqb c sep) eqn:He.
  - apply Ascii.eqb_eq in He. subst c.
    destruct (split_on sep s) as [|x xs]; [congruence|].
    now rewrite join_cons_empty, IH.
  - destruct (split_on sep s) as [|x xs]; [congruence|].
    now rewrite join_cons_char, IH.
Qed.

Lemma parse_tokens_map (l : list string) :
  forall kvs, parse_tokens l = Some kvs -> map token_str kvs = l.
Proof.
  induction l as [|x l IH]; intros kvs H; simpl in *.
  - now injection H as <-.
  - unfold opt_bind, parse_token in H.
    destruct (span is_alpha x) as [k v] eqn:Hs. simpl in H.
    destruct (guard _); [|discriminate].
    destruct (parse_tokens l) as [kvs'|]; [|discriminate].
    injection H as <-. simpl. f_equal; [|now apply IH].
    unfold token_str. simpl. symmetry. now apply (span_app is_alpha).
Qed.

End Text.

Section RoundTrip.

Open Scope string_scope.

Variable checksum_computed : string -> string.

Lemma guard_true (b : bool) (u : unit) : guard b = Some u -> b = true.
Proof. destruct b; [reflexivity|discriminate]. Qed.

Ltac open_parse H :=
  repeat match type of H with
         | context [match ?o with Some _ => _ | None => _ end] =>
             destruct o eqn:?; [|discriminate]
         | context [let (_, _) := ?p in _] => destruct p eqn:?
         end.

Lemma parse_command_build (s : string) (c : command) :
  parse_command checksum_computed s = Some c ->
  build checksum_computed (JuiceboxCommand c) = Some s.
Proof.
  intros H. unfold parse_command, opt_bind in H. open_parse H.
  injection H as <-.
  repeat match goal with
         | E : strip_prefix _ _ = Some _ |- _ =>
             apply strip_prefix_app in E
         | E : take_exact _ _ = Some _ |- _ => apply take_exact_app in E
         | E : span _ _ = (_, _) |- _ => apply span_app in E
         | E : guard (String.eqb _ _) = Some _ |- _ =>
             apply guard_true in E; apply String.eqb_eq in E
         end.
  subst. unfold build.
  match goal with
  | E : _ = checksum_computed _ |- _ => rewrite <- E
  end.
  unfold command_payload_str.
  cbn [DOW HHMM instant_amperage offline_amperage command_field counter].
  f_equal. repeat rewrite append_assoc. reflexivity.
Qed.

Lemma parse_status_build (s : string) (m : status) :
  parse_status checksum_computed s = Some m ->
  build checksum_computed (JuiceboxStatusMessage m) = Some s.
Proof.
  intros H. unfold parse_status, opt_bind in H. open_parse H.
  injection H as <-.
  repeat match goal with
         | E : strip_prefix _ _ = Some _ |- _ =>
             apply strip_prefix_app in E
         | E : take_exact _ _ = Some _ |- _ => apply take_exact_app in E
         | E : span _ _ = (_, _) |- _ => apply span_app in E
         | E : break_on _ _ = Some _ |- _ => apply break_on_app in E
         | E : parse_tokens _ = Some _ |- _ => apply parse_tokens_map in E
         | E : guard (String.eqb _ _) = Some _ |- _ =>
             apply guard_true in E; apply String.eqb_eq in E
         end.
  unfold build.
  match goal with
  | E : _ = checksum_computed _ |- _ => rewrite <- E
  end.
  unfold status_payload_str. cbn [serial tokens].
  match goal with
  | E : map token_str _ = split_on _ _ |- _ =>
      rewrite E, join_split_on
  end.
  subst. f_equal. repeat rewrite append_assoc. reflexivity.
Qed.

End RoundTrip.

(** C1.  Whatever the checksum function, a wire string that
    [juicebox_message_from_string] accepts, as a command of either width
    or as a status message, is given back by [build] character for
    character. *)
Theorem build_after_parse_is_the_wire_string
        (checksum_computed : string -> string) (s : string) (m : message) :
  juicebox_message_from_string checksum_computed s = Parsed m ->
  build checksum_computed m = Some s.
Proof.
  unfold juicebox_message_from_string. intros H.
  destruct (strip_prefix "CMD" s).
  - destruct (parse_command checksum_computed s) as [c|] eqn:Hp;
      [|discriminate].
    injection H as <-. now apply parse_command_build.
  - destruct (parse_status checksum_computed s) as [c|] eqn:Hp;
      [|discriminate].
    injection H as <-. now apply parse_status_build.
Qed.

Lemma build_after_parse_is_the_wire_string_witness :
  juicebox_message_from_string reference_checksum
                               "CMD41325A0040M040C006S638!5N5$"
  = Parsed (JuiceboxCommand
              (mkCommand true "4" "1325" "0040" "040" "006" "638" "5N5"))
  /\
  build reference_checksum
        (JuiceboxCommand
           (mkCommand true "4" "1325" "0040" "040" "006" "638" "5N5"))
  = Some "CMD41325A0040M040C006S638!5N5$"%string.
Proof.
  split; [reflexivity|].
  apply (build_after_parse_is_the_wire_string reference_checksum
           "CMD41325A0040M040C006S638!5N5$").
  reflexivity.
Defined.

(** The wire strings of [test_message_checksums] and
    [test_status_message_parsing], both command widths among them, are
    accepted and rebuilt under a checksum function that agrees with the
    reference pairs. *)
Lemma test_vectors_round_trip :
  forallb
    (fun s =>
       match juicebox_message_from_string reference_checksum s with
       | Parsed m =>
           match build reference_checksum m with
           | Some s' => String.eqb s s'
           | None => false
           end
       | JuiceboxInvalidMessageFormat => false
       end)
    [ "CMD41325A0040M040C006S638!5N5$"; "CMD62210A20M18C006S006!31Y$";
      "CMD62228A20M15C008S048!IR4$"; "CMD62207A20M20C244S997!R5Y$";
      "CMD62207A20M20C008S996!ZI4$"; "CMD62201A20M20C244S981!ECD$";
      "CMD62201A20M20C006S982!QT8$"; "CMD31353A0000M010C244S741!2B3$";
      "0910000000000000000000000000:v09u,s001,F31,u00412974,V1366,L00004262804,S02,T28,M0024,C0024,m0032,t09,i23,e-0001,f5990,r99,b000,B0000000,P0,E0004501,A00161,p0996!ZW5:";
      "0910042001260513476122621631:v09u,s627,F10,u01254993,V2414,L00004555804,S01,T08,M0040,C0040,m0040,t29,i75,e00000,f5999,r61,b000,B0000000!55M:"
    ]%string = true.
Proof. vm_compute. reflexivity. Qed.

(** ** Classification *)

Section Classification.

Open Scope string_scope.

Lemma span_all (p : ascii -> bool) :
  forall s a r, span p s = (a, r) -> all_chars p a = true.
Proof.
  induction s as [|c s IH]; intros a r H; simpl in *.
  - injection H as <- <-. reflexivity.
  - destruct (p c) eqn:Hp.
    + destruct (span p s) as [a' r'] eqn:Hs. injection H as <- <-.
      simpl. rewrite Hp. simpl. eapply IH. reflexivity.
    + injection H as <- <-. reflexivity.
Qed.

Lemma take_exact_length (n : nat) :
  forall s a r, take_exact n s = Some (a, r) -> String.length a = n.
Proof.
  induction n as [|n IH]; intros s a r H; simpl in *.
  - injection H as <- <-. reflexivity.
  - destruct s as [|c s]; [discriminate|].
    destruct (take_exact n s) as [[a' r']|] eqn:Ht; [|discriminate].
    injection H as <- <-. simpl. f_equal. eapply IH. exact Ht.
Qed.

Lemma guard_holds (b : bool) (u : unit) : guard b = Some u -> b = true.
Proof. destruct b; [reflexivity|discriminate]. Qed.

Lemma guard_ltb (n : nat) (u : unit) :
  guard (Nat.ltb 0 n) = Some u -> (0 < n)%nat.
Proof.
  intros H. apply guard_holds in H. now apply Nat.ltb_lt.
Qed.

Lemma parse_tokens_keys (l : list string) :
  forall kvs,
    parse_tokens l = Some kvs ->
    Forall (fun kv => (0 < String.length (fst kv))%nat /\
                      all_chars is_alpha (fst kv) = true) kvs.
Proof.
  induction l as [|x l IH]; intros kvs H; simpl in *.
  - injection H as <-. constructor.
  - unfold opt_bind, parse_token in H.
    destruct (span is_alpha x) as [k v] eqn:Hs. simpl in H.
    destruct (guard _) eqn:Hg; [|discriminate].
    destruct (parse_tokens l) as [kvs'|]; [|discriminate].
    injection H as <-. constructor; [|now apply IH].
    simpl. split; [eapply guard_ltb; exact Hg|].
    eapply span_all. exact Hs.
Qed.

Ltac open_grammar H :=
  repeat match type of H with
         | context [match ?o with Some _ => _ | None => _ end] =>
             destruct o eqn:?; [|discriminate]
         | context [let (_, _) := ?p in _] => destruct p eqn:?
         end.

(** What matches the command shape is in the command grammar. *)
Lemma command_grammar_sound (s : string) (c : command) :
  command_grammar s = Some c -> in_command_grammar s.
Proof.
  intros H. exists c. unfold command_grammar, opt_bind in H.
  open_grammar H. injection H as <-. split.
  - unfold command_fields_ok.
    cbn [DOW HHMM instant_amperage offline_amperage command_field counter
         command_checksum_str new_version].
    repeat match goal with
           | E : take_exact _ _ = Some _ |- _ =>
               pose proof (take_exact_length _ _ E); clear E
           | E : span _ _ = (_, _) |- _ =>
               pose proof (span_all _ _ E); clear E
           | E : guard (all_chars _ _) = Some _ |- _ =>
               apply guard_holds in E
           | E : guard (Nat.ltb 0 _) = Some _ |- _ =>
               apply guard_ltb in E
           end.
    repeat split; assumption.
  - repeat match goal with
           | E : strip_prefix _ _ = Some _ |- _ =>
               apply strip_prefix_app in E
           | E : take_exact _ _ = Some _ |- _ => apply take_exact_app in E
           | E : span _ _ = (_, _) |- _ => apply span_app in E
           | E : guard (String.eqb _ _) = Some _ |- _ =>
               apply guard_holds in E; apply String.eqb_eq in E
           end.
    subst. unfold command_payload_str.
    cbn [DOW HHMM instant_amperage offline_amperage command_field counter
         command_checksum_str].
    repeat rewrite append_assoc. reflexivity.
Qed.

(** What matches the status shape is in the status grammar. *)
Lemma status_grammar_sound (s : string) (m : status) :
  status_grammar s = Some m -> in_status_grammar s.
Proof.
  intros H. exists m. unfold status_grammar, opt_bind in H.
  open_grammar H. injection H as <-. split.
  - unfold status_fields_ok. cbn [serial tokens status_checksum_str].
    repeat match goal with
           | E : take_exact _ _ = Some _ |- _ =>
               pose proof (take_exact_length _ _ E); clear E
           | E : span _ _ = (_, _) |- _ =>
               pose proof (span_all _ _ E); clear E
           | E : guard (Nat.ltb 0 _) = Some _ |- _ =>
               apply guard_ltb in E
           | E : parse_tokens _ = Some _ |- _ =>
               pose proof (parse_tokens_keys _ E); clear E
           end.
    repeat split; assumption.
  - repeat match goal with
           | E : strip_prefix _ _ = Some _ |- _ =>
               apply strip_prefix_app in E
           | E : take_exact _ _ = Some _ |- _ => apply take_exact_app in E
           | E : span _ _ = (_, _) |- _ => apply span_app in E
           | E : break_on _ _ = Some _ |- _ => apply break_on_app in E
           | E : parse_tokens _ = Some _ |- _ => apply parse_tokens_map in E
           | E : guard (String.eqb _ _) = Some _ |- _ =>
               apply guard_holds in E; apply String.eqb_eq in E
           end.
    unfold status_payload_str. cbn [serial tokens status_checksum_str].
    match goal with
    | E : map token_str _ = split_on _ _ |- _ => rewrite E, join_split_on
    end.
    subst. repeat rewrite append_assoc. reflexivity.
Qed.

Variable checksum_computed : string -> string.

(** A wire string that parses matches the shape. *)
Lemma parse_command_grammar (s : string) (c : command) :
  parse_command checksum_computed s = Some c -> command_grammar s = Some c.
Proof.
  intros H. unfold parse_command, command_grammar, opt_bind in *.
  open_grammar H. exact H.
Qed.

Lemma parse_status_grammar (s : string) (m : status) :
  parse_status checksum_computed s = Some m -> status_grammar s = Some m.
Proof.
  intros H. unfold parse_status, status_grammar, opt_bind in *.
  open_grammar H. exact H.
Qed.

End Classification.

(** C3.  Classification of a byte sequence never fails on input that
    does not match the text grammar: whatever the checksum function,
    every byte sequence that is neither in the command grammar nor in the
    status grammar is classified as the encrypted variant, and so are
    the hex samples of [test_entrypted_message] and a sequence of 7-bit
    bytes outside the grammar such as the bytes of g4rbl3d; the
    invalid-format failure is raised only for input that matches one of
    the grammars.
    Text given to [juicebox_message_from_string] is never classified as
    encrypted: it is a message whose text is in the grammar, or it
    raises the invalid-format failure, which is what every text outside
    the grammar gets, the string g4rbl3d among them. *)
Theorem classification_of_bytes_and_text
        (checksum_computed : string -> string) :
  (forall bs,
      ~ in_text_grammar (string_of_list_byte bs) ->
      juicebox_message_from_bytes checksum_computed bs =
        Parsed (JuiceboxEncryptedMessage bs)) /\
  (forall bs,
      juicebox_message_from_bytes checksum_computed bs
        = JuiceboxInvalidMessageFormat ->
      in_text_grammar (string_of_list_byte bs)) /\
  (forall h,
      In h (encrypted_hex_1 :: encrypted_hex_2 :: encrypted_samples) ->
      exists bs,
        hex_decode h = Some bs /\
        juicebox_message_from_bytes checksum_computed bs =
          Parsed (JuiceboxEncryptedMessage bs)) /\
  juicebox_message_from_bytes checksum_computed
                              (list_byte_of_string "g4rbl3d")
    = Parsed (JuiceboxEncryptedMessage (list_byte_of_string "g4rbl3d")) /\
  (forall s,
      ~ in_text_grammar s ->
      juicebox_message_from_string checksum_computed s
        = JuiceboxInvalidMessageFormat) /\
  juicebox_message_from_string checksum_computed "g4rbl3d"
    = JuiceboxInvalidMessageFormat /\
  (forall s m,
      juicebox_message_from_string checksum_computed s = Parsed m ->
      in_text_grammar s /\
      forall raw, m <> JuiceboxEncryptedMessage raw).
Proof.
  assert (Hstr : forall s m,
             juicebox_message_from_string checksum_computed s = Parsed m ->
             in_text_grammar s /\
             forall raw, m <> JuiceboxEncryptedMessage raw).
  { intros s m H. unfold juicebox_message_from_string in H.
    destruct (strip_prefix "CMD" s).
    - destruct (parse_command checksum_computed s) as [c|] eqn:Hp;
        [|discriminate].
      injection H as <-. split; [|discriminate]. left.
      eapply command_grammar_sound, parse_command_grammar. exact Hp.
    - destruct (parse_status checksum_computed s) as [c|] eqn:Hp;
        [|discriminate].
      injection H as <-. split; [|discriminate]. right.
      eapply status_grammar_sound, parse_status_grammar. exact Hp. }
  split; [|split; [|split; [|split; [reflexivity|split; [|split]]]]].
  - intros bs Hn. unfold juicebox_message_from_bytes. cbv zeta.
    destruct (command_grammar (string_of_list_byte bs)) as [c|] eqn:Hc.
    { exfalso. apply Hn. left. eapply command_grammar_sound. exact Hc. }
    destruct (status_grammar (string_of_list_byte bs)) as [m|] eqn:Hm.
    { exfalso. apply Hn. right. eapply status_grammar_sound. exact Hm. }
    reflexivity.
  - intros bs H. unfold juicebox_message_from_bytes in H. cbv zeta in H.
    destruct (command_grammar (string_of_list_byte bs)) as [c|] eqn:Hc.
    { left. eapply command_grammar_sound. exact Hc. }
    destruct (status_grammar (string_of_list_byte bs)) as [m|] eqn:Hm.
    { right. eapply status_grammar_sound. exact Hm. }
    discriminate.
  - intros h [<-|[<-|[<-|[]]]]; eexists; (split; [vm_compute; reflexivity|]);
      vm_compute; reflexivity.
  - intros s Hn.
    destruct (juicebox_message_from_string checksum_computed s) as [m|] eqn:H;
      [|reflexivity].
    exfalso. apply Hn. eapply Hstr. exact H.
  - reflexivity.
  - exact Hstr.
Qed.

(** * Runs

    The cases of the statements above, on concrete worlds. *)

(** A transmission that goes through at once: one send under the lock,
    one sleep of 0.1 s. *)
Example send_data_first_attempt :
  exists s',
    send_data_to Scenarios.cfg10 (Scenarios.calm Scenarios.seconds) 5
                 Scenarios.hello (Some Scenarios.cloud) 100
                 Scenarios.socket_held = Ret tt s' /\
    trace s' = [ESend Scenarios.hello (Some Scenarios.cloud) true;
                ESleep 100] /\
    error_count s' = 0.
Proof.
  eexists. split; [vm_compute; reflexivity|]. split; reflexivity.
Qed.

(** A timeout, then success: the fault is recorded, the socket is kept
    and the second turn transmits. *)
Example send_data_second_attempt :
  exists s',
    send_data_to Scenarios.cfg10 Scenarios.first_send_times_out 5
                 Scenarios.hello (Some Scenarios.cloud) 250
                 Scenarios.socket_held = Ret tt s' /\
    trace s' = [ESend Scenarios.hello (Some Scenarios.cloud) true;
                EError 1000 2000; ESleep 250;
                ESend Scenarios.hello (Some Scenarios.cloud) true;
                ESleep 250] /\
    error_count s' = 1 /\ dgram s' = Some 0%nat.
Proof.
  eexists. split; [vm_compute; reflexivity|]. repeat split; reflexivity.
Qed.

(** No bind succeeds: MAX_CONNECT_ATTEMPT attempts, each recorded as a
    fault and followed by the sleep, then "unable to start". *)
Example connect_gives_up :
  exists s',
    start Scenarios.cfg10 Scenarios.address_in_use 5 init_state =
      Raise (ChildProcessError UnableToStart) s' /\
    count_events is_bind (trace s') = 5%nat /\
    failed_binds 5 (trace s') /\
    error_count s' = 5 /\ dgram s' = None.
Proof.
  eexists. split; [vm_compute; reflexivity|].
  split; [reflexivity|]. split; [repeat constructor|].
  split; reflexivity.
Qed.

(** With the breaker at three faults, the third failed bind ends the loop
    of [_connect] before the attempts are used up. *)
Example connect_stops_at_the_breaker :
  exists s',
    start Scenarios.cfg3 Scenarios.address_in_use 5 init_state =
      Raise (ChildProcessError UnableToStart) s' /\
    failed_binds 3 (trace s') /\ error_count s' = 3.
Proof.
  eexists. split; [vm_compute; reflexivity|].
  split; [repeat constructor|reflexivity].
Qed.

(** A second device takes over the device address. *)
Example device_address_moves :
  exists s1 s2,
    main_mitm_handler Scenarios.cfg3_ignore
                      (Scenarios.calm Scenarios.seconds) 5
                      (Some Scenarios.hello) (Some Scenarios.device)
                      Scenarios.socket_held = Ret tt s1 /\
    juicebox_addr s1 = Some Scenarios.device /\
    main_mitm_handler Scenarios.cfg3_ignore
                      (Scenarios.calm Scenarios.seconds) 5
                      (Some Scenarios.hello) (Some Scenarios.device')
                      s1 = Ret tt s2 /\
    juicebox_addr s2 = Some Scenarios.device'.
Proof.
  eexists. eexists. split; [vm_compute; reflexivity|].
  split; [reflexivity|]. split; [vm_compute; reflexivity|reflexivity].
Qed.

(** An [OSError] of the socket leaves [send_data] at the first turn; the
    handler reports it to the local transform and records a fault. *)
Example handler_reports_a_send_error :
  exists s',
    main_mitm_handler Scenarios.cfg10 Scenarios.network_unreachable 5
                      (Some Scenarios.hello) (Some Scenarios.device)
                      Scenarios.socket_held = Ret tt s' /\
    trace s' =
      [ELocal Scenarios.hello;
       ESend Scenarios.hello (Some Scenarios.cloud) true;
       ELocal (Diagnostic "server" (Some Scenarios.cloud) "ENETUNREACH"
                          (OSError (Some 101)));
       EError 3000 4000] /\
    error_count s' = 1.
Proof.
  eexists. split; [vm_compute; reflexivity|]. split; reflexivity.
Qed.

(** * Further properties of the relay *)

(** ** Invariants that look at the lock, the socket or the device address

    The same induction over the engine as before, asking of the
    predicate only what the code does: the socket attribute is reset to
    [None] and set by a bind, the device address is set to sources that
    are not on the cloud host, and the lock is taken around a bind and
    around a transmission. *)

Section EngineCore.

Open Scope Z_scope.

Variable cfg : config.
Variable w : world.
Variable I : state -> Prop.
Variable E : exn -> state -> Prop.

Hypothesis I_time : inv I E (time_time w).
Hypothesis I_sleep : forall ms, inv I E (sleep w ms).
Hypothesis I_locked : inv I E (sending_lock_locked w).
Hypothesis I_bind : inv I E (dgram_bind w).
Hypothesis I_lock_bind : inv I E (with_lock (dgram_bind w)).
Hypothesis I_transmit : forall d t, inv I E (transmit cfg w d t).
Hypothesis I_recv :
  forall s, I s ->
    okq (fun _ s' =>
           I s' /\
           forall a, String.eqb (fst a) (fst (enelx_addr cfg)) = false ->
                     I (set_juicebox_addr (Some a) s'))
        I E (dgram_recv w s).
Hypothesis I_local : forall d, inv I E (call_local w d).
Hypothesis I_remote : forall d, inv I E (call_remote w d).
Hypothesis I_add_error : inv I E (_add_error cfg w).
Hypothesis I_drop : forall s, I s -> I (set_dgram None s).
Hypothesis E_own : forall e s, I s -> engine_raises cfg e s -> E e s.

Ltac own := intros; apply E_own; auto; unfold engine_raises; tauto.

Lemma core_connect_attempt_body : inv I E (connect_attempt_body cfg w).
Proof.
  unfold connect_attempt_body.
  apply inv_bind; [|intros; apply I_sleep].
  apply inv_try_except.
  - apply inv_bind; [apply I_locked|].
    intros [|]; [apply I_bind|apply I_lock_bind].
  - intros e. apply inv_bind; [apply I_add_error|].
    intros _. apply inv_modify. apply I_drop.
Qed.

Lemma core_connect_loop (n : nat) :
  forall a, inv I E (connect_loop cfg w n a).
Proof.
  induction n as [|n IH]; intros a; simpl;
    (apply inv_bind; [apply inv_get|]); intros s0;
    destruct (connect_guard cfg a s0); try apply inv_ret.
  - intros s Hs. exact Logic.I.
  - apply inv_bind; [apply core_connect_attempt_body|]. intros _. apply IH.
Qed.

Lemma core__connect (loop : M Empty_set) :
  inv I E loop -> inv I E (_connect cfg w loop).
Proof.
  intros Hl. unfold _connect.
  apply inv_bind; [apply core_connect_loop|]. intros _.
  apply inv_bind; [apply inv_get|]. intros s0.
  destruct (dgram s0).
  - destruct (mitm_loop_task s0) as [[]|].
    apply inv_bind; [exact Hl|]. intros [].
  - apply inv_raise. own.
Qed.

Lemma core_send_attempt_body (c : M unit) d t b :
  inv I E c -> inv I E (send_attempt_body cfg w c d t b).
Proof.
  intros Hc. unfold send_attempt_body.
  apply inv_bind; [apply inv_get|]. intros s0.
  apply inv_bind; [destruct (dgram s0); [apply inv_ret|exact Hc]|].
  intros _. apply inv_bind.
  - apply inv_try_except; [apply I_transmit|].
    intros e. apply inv_bind; [apply I_add_error|]. intros; apply inv_ret.
  - intros sent. apply inv_bind; [apply I_sleep|]. intros; apply inv_ret.
Qed.

Lemma core_send_loop (c : M unit) d t b (n : nat) :
  inv I E c -> forall sent a, inv I E (send_loop cfg w n c d t b sent a).
Proof.
  intros Hc. induction n as [|n IH]; intros sent a; simpl;
    destruct (negb sent && (a <=? SEND_DATA_RETRIES)); try apply inv_ret.
  - intros s Hs. exact Logic.I.
  - apply inv_bind; [apply core_send_attempt_body, Hc|]. intros; apply IH.
Qed.

Lemma core_send_data (c : M unit) d t b :
  inv I E c -> inv I E (send_data cfg w c d t b).
Proof.
  intros Hc. unfold send_data.
  apply inv_bind; [apply core_send_loop, Hc|].
  intros [|]; [apply inv_ret|apply inv_raise; own].
Qed.

Lemma core_on_send_OSError side dest e :
  inv I E (on_send_OSError cfg w side dest e).
Proof.
  unfold on_send_OSError. apply inv_bind.
  - unfold errorcode_of. destruct (exn_errno e) as [n|];
      [destruct (errorcode w n)|]; try apply inv_ret; apply inv_raise; own.
  - intros code. apply inv_bind; [apply I_local|]. intros; apply I_add_error.
Qed.

Lemma core_forward_to_cloud (send : payload -> option addr -> M unit) d :
  (forall d t, inv I E (send d t)) ->
  inv I E (forward_to_cloud cfg w send d).
Proof.
  intros Hsend. unfold forward_to_cloud.
  apply inv_bind; [apply I_local|]. intros d'.
  destruct (negb (ignore_remote cfg)); [|apply inv_ret].
  apply inv_try_except; [apply Hsend|]. apply core_on_send_OSError.
Qed.

Lemma core_forward_to_device (send : payload -> option addr -> M unit) d :
  (forall d t, inv I E (send d t)) ->
  inv I E (forward_to_device cfg w send d).
Proof.
  intros Hsend. unfold forward_to_device.
  destruct (negb (ignore_remote cfg)); [|apply inv_ret].
  apply inv_bind; [apply I_remote|]. intros d'.
  apply inv_bind; [apply inv_get|]. intros s1.
  apply inv_try_except; [apply Hsend|]. intros e.
  apply inv_bind; [apply inv_get|]. intros s2. apply core_on_send_OSError.
Qed.

Lemma core__main_mitm_handler (send : payload -> option addr -> M unit)
      data from_addr (s : state) :
  (forall d t, inv I E (send d t)) ->
  I s ->
  (forall a, String.eqb (fst a) (fst (enelx_addr cfg)) = false ->
             I (set_juicebox_addr (Some a) s)) ->
  okr I E (_main_mitm_handler cfg w send data from_addr s).
Proof.
  intros Hsend Hs Hset. unfold _main_mitm_handler.
  destruct data as [data|]; [|exact Hs].
  destruct from_addr as [from_addr|]; [|exact Hs].
  apply okq_bind with (Q := fun _ s' => I s').
  { destruct (String.eqb (fst from_addr) (fst (enelx_addr cfg))) eqn:Hh;
      simpl; auto. }
  intros _ s1 Hs1. revert s1 Hs1.
  apply inv_bind; [apply inv_get|]. intros s0.
  destruct (opt_addr_eqb from_addr (juicebox_addr s0)).
  - apply core_forward_to_cloud, Hsend.
  - destruct (_ && _); [|apply inv_ret].
    apply core_forward_to_device, Hsend.
Qed.

(** The receive loop, given what its handler keeps. *)
Lemma core_loop_with_handler :
  (forall fuel,
      inv I E (_mitm_loop cfg w fuel) ->
      forall data from_addr s,
        I s ->
        (forall a, String.eqb (fst a) (fst (enelx_addr cfg)) = false ->
                   I (set_juicebox_addr (Some a) s)) ->
        okr I E
            (_main_mitm_handler cfg w
               (fun d t =>
                  send_data cfg w (_connect cfg w (_mitm_loop cfg w fuel))
                            d t 100)
               data from_addr s)) ->
  forall fuel, inv I E (_mitm_loop cfg w fuel).
Proof.
  intros Hhandler.
  induction fuel as [|fuel IH]; [intros s Hs; exact Logic.I|].
  intros s Hs. simpl. unfold bind at 1, get.
  destruct (error_count s <? MAX_ERROR_COUNT cfg) eqn:Hc.
  - clear Hc. destruct (dgram s).
    + apply okq_bind
        with (Q := fun r s' =>
                     I s' /\
                     (r = None \/
                      forall a,
                        String.eqb (fst a) (fst (enelx_addr cfg)) = false ->
                        I (set_juicebox_addr (Some a) s'))).
      * pose proof (I_recv Hs) as Hr.
        match goal with
        | |- context [try_except _ _ ?h0] => set (h := h0)
        end.
        unfold try_except, bind, ret.
        destruct (dgram_recv w s) as [x s'|e s'|]; cbn [okq] in *; auto.
        -- split; [apply Hr|right; apply Hr].
        -- destruct (is_closed_or_timeout e); cbn [okq]; auto.
           destruct Hr as [Hr _]. subst h. cbv beta.
           apply okq_bind_q with (Q := fun _ s' => I s');
             [apply (I_add_error Hr)|].
           intros _ s'' Hs''. unfold bind, modify, ret. cbn [okq].
           split; [apply I_drop, Hs''|]. now left.
      * intros [[data remote_addr]|] s' [Hs' Hset]; [|apply IH, Hs'].
        destruct Hset as [Hset|Hset]; [discriminate|].
        apply okr_bind; [|intros; exact IH].
        apply okr_try_except.
        -- unfold with_handler_timeout.
           pose proof (Hhandler fuel IH data remote_addr s' Hs' Hset) as Hh.
           match type of Hh with
           | okr _ _ ?r => destruct r as [a s''|e s''|]
           end; simpl in *.
           ++ exact Hh.
           ++ assert (He : I s'' /\ E e s'') by exact Hh.
              destruct e; simpl; auto. split; [apply He|].
              apply E_own; [apply He|]. unfold engine_raises. tauto.
           ++ exact Logic.I.
        -- intros e. apply inv_bind; [apply I_add_error|]. intros _.
           apply inv_modify. apply I_drop.
    + revert s Hs. apply inv_bind; [apply I_add_error|]. intros _.
      apply inv_bind; [apply core__connect, IH|]. intros; exact IH.
  - unfold raise. split; [exact Hs|]. apply E_own; [exact Hs|].
    unfold engine_raises. apply Z.ltb_ge in Hc. tauto.
Qed.

Lemma core__mitm_loop (fuel : nat) : inv I E (_mitm_loop cfg w fuel).
Proof.
  apply core_loop_with_handler. intros n IH data from_addr s Hs Hset.
  apply core__main_mitm_handler; auto.
  intros d t. apply core_send_data, core__connect, IH.
Qed.

Lemma core_close : inv I E (close w).
Proof.
  unfold close. apply inv_bind; [apply inv_get|]. intros s0.
  destruct (dgram s0); [|apply inv_ret].
  apply inv_bind; [apply inv_modify, I_drop|]. intros; apply I_sleep.
Qed.

(** The engine as a whole. *)
Lemma engine_core (fuel : nat) :
  inv I E (_mitm_loop cfg w fuel) /\
  inv I E (start cfg w fuel) /\
  (forall d t b, inv I E (send_data_to cfg w fuel d t b)) /\
  (forall d, inv I E (send_data_to_juicebox cfg w fuel d)) /\
  inv I E (close w) /\
  (forall d a s,
      I s ->
      (forall a', String.eqb (fst a') (fst (enelx_addr cfg)) = false ->
                  I (set_juicebox_addr (Some a') s)) ->
      okr I E (main_mitm_handler cfg w fuel d a s)).
Proof.
  assert (Hc : inv I E (connect cfg w fuel))
    by apply core__connect, core__mitm_loop.
  assert (Hs : forall d t b, inv I E (send_data_to cfg w fuel d t b))
    by (intros; apply core_send_data, Hc).
  split; [apply core__mitm_loop|]. split; [exact Hc|].
  split; [exact Hs|]. split; [|split; [apply core_close|]].
  - intros d. unfold send_data_to_juicebox.
    apply inv_bind; [apply inv_get|]. intros s0. apply Hs.
  - intros d a s H1 H2. apply core__main_mitm_handler; auto.
Qed.

End EngineCore.

(** Predicates that do not look at the tick, the trace or the socket are
    kept by every primitive operation but the fault recorder and the
    lock. *)

Section FieldInvariant.

Variable w : world.
Variable I : state -> Prop.

Hypothesis I_tick : forall s, I s -> I (next_tick s).
Hypothesis I_log : forall e s, I s -> I (log e s).
Hypothesis I_set_dgram : forall d s, I s -> I (set_dgram d s).

Lemma field_time : inv I no_exn_constraint (time_time w).
Proof. intros s Hs. simpl. auto. Qed.

Lemma field_sleep (ms : Z) : inv I no_exn_constraint (sleep w ms).
Proof.
  intros s Hs. unfold sleep.
  destruct (sleep_result w (tick s)); simpl; unfold no_exn_constraint; auto.
Qed.

Lemma field_locked : inv I no_exn_constraint (sending_lock_locked w).
Proof. intros s Hs. simpl. auto. Qed.

Lemma field_bind : inv I no_exn_constraint (dgram_bind w).
Proof.
  intros s Hs. unfold dgram_bind.
  destruct (bind_result w (tick s)); simpl; unfold no_exn_constraint; auto.
Qed.

Lemma field_send d t : inv I no_exn_constraint (dgram_send w d t).
Proof.
  intros s Hs. unfold dgram_send. destruct (dgram s);
    [destruct (send_result w (tick s))|];
    simpl; unfold no_exn_constraint; auto.
Qed.

Lemma field_recv : inv I no_exn_constraint (dgram_recv w).
Proof.
  intros s Hs. unfold dgram_recv.
  destruct (recv_result w (tick s)); simpl; unfold no_exn_constraint; auto.
Qed.

Lemma field_local d : inv I no_exn_constraint (call_local w d).
Proof.
  intros s Hs. unfold call_local.
  destruct (local_mitm_handler w (tick s) d); simpl;
    unfold no_exn_constraint; auto.
Qed.

Lemma field_remote d : inv I no_exn_constraint (call_remote w d).
Proof.
  intros s Hs. unfold call_remote.
  destruct (remote_mitm_handler w (tick s) d); simpl;
    unfold no_exn_constraint; auto.
Qed.

(** The transmission under the lock, for a predicate that does not look
    at the lock. *)
Lemma field_transmit (cfg : config) d t :
  (forall b s, I s -> I (set_lock b s)) ->
  inv I no_exn_constraint (_add_error cfg w) ->
  inv I no_exn_constraint (transmit cfg w d t).
Proof.
  intros Hl Ha. unfold transmit. apply inv_bind.
  { apply inv_wait_for_lock; [exact I_tick|intros; exact Logic.I]. }
  intros _. apply inv_with_lock; auto.
  intros s Hs _. apply okr_try_except.
  - apply okr_bind; [apply field_send, Hs|]. intros; apply inv_ret.
  - intros e. apply inv_bind; [exact Ha|]. intros _.
    apply inv_bind; [apply inv_modify; auto|]. intros; apply inv_ret.
Qed.

End FieldInvariant.

Section FieldFacts.

Open Scope Z_scope.

Variable cfg : config.
Variable w : world.

Lemma every_run_of_core (fuel : nat) (s : state)
      (P : state -> Prop) (Q : exn -> state -> Prop) :
  (inv P Q (_mitm_loop cfg w fuel) /\
   inv P Q (start cfg w fuel) /\
   (forall d t b, inv P Q (send_data_to cfg w fuel d t b)) /\
   (forall d, inv P Q (send_data_to_juicebox cfg w fuel d)) /\
   inv P Q (close w) /\
   (forall d a s,
       P s ->
       (forall a', String.eqb (fst a') (fst (enelx_addr cfg)) = false ->
                   P (set_juicebox_addr (Some a') s)) ->
       okr P Q (main_mitm_handler cfg w fuel d a s))) ->
  P s ->
  (forall a', String.eqb (fst a') (fst (enelx_addr cfg)) = false ->
              P (set_juicebox_addr (Some a') s)) ->
  every_run cfg w fuel s P Q.
Proof.
  intros [H1 [H2 [H3 [H4 [H5 H6]]]]] Hs Hset. unfold every_run.
  split; [apply H2, Hs|]. split; [intros; apply H6; assumption|].
  split; [intros; apply H3, Hs|]. split; [intros; apply H4, Hs|].
  split; [apply H5, Hs|apply H1, Hs].
Qed.

Lemma count_is_length_add_error :
  inv count_is_length no_exn_constraint (_add_error cfg w).
Proof. intros s Hs. rewrite add_error_run. reflexivity. Qed.

Lemma field_kept (P : state -> Prop) :
  (forall s, P s -> P (next_tick s)) ->
  (forall e s, P s -> P (log e s)) ->
  (forall d s, P s -> P (set_dgram d s)) ->
  (forall b s, P s -> P (set_lock b s)) ->
  (forall a s, String.eqb (fst a) (fst (enelx_addr cfg)) = false ->
               P s -> P (set_juicebox_addr (Some a) s)) ->
  inv P no_exn_constraint (_add_error cfg w) ->
  forall fuel s, P s -> every_run cfg w fuel s P no_exn_constraint.
Proof.
  intros Ht Hl Hd Hk Hj Ha fuel s Hs. apply every_run_of_core; auto.
  apply engine_core; try (intros; exact Logic.I).
  - intro ms. apply field_sleep; auto.
  - apply field_locked; auto.
  - apply field_bind; auto.
  - apply inv_with_lock; auto. intros s0 Hs0 _. apply field_bind; auto.
  - intros d t. apply field_transmit; auto.
  - intros s0 Hs0.
    assert (Hr : inv P no_exn_constraint (dgram_recv w))
      by (apply field_recv; auto).
    specialize (Hr s0 Hs0).
    destruct (dgram_recv w s0); simpl in *; auto.
  - intro d. apply field_local; auto.
  - intro d. apply field_remote; auto.
  - exact Ha.
  - intros; apply Hd; assumption.
Qed.

End FieldFacts.

(** X1.  Whatever the outside world does, a call of the class made in a
    state where the error count is the length of the fault list ends in
    such a state: the count never drifts from the list, and is never
    negative. *)
Theorem error_count_follows_the_fault_list
        (cfg : config) (w : world) (fuel : nat) (s : state) :
  count_is_length s ->
  every_run cfg w fuel s
            (fun s' => count_is_length s' /\ (0 <= error_count s')%Z)
            no_exn_constraint.
Proof.
  intros Hs.
  assert (Hnn : forall s', count_is_length s' ->
                           count_is_length s' /\ (0 <= error_count s')%Z).
  { intros s' H. split; [exact H|]. rewrite H. apply Nat2Z.is_nonneg. }
  assert (H : every_run cfg w fuel s count_is_length no_exn_constraint).
  { apply field_kept; auto. apply count_is_length_add_error. }
  assert (Hok : forall A (r : result A),
             okr count_is_length no_exn_constraint r ->
             okr (fun s' => count_is_length s' /\ (0 <= error_count s')%Z)
                 no_exn_constraint r).
  { intros A [a s'|e s'|] Hr; simpl in *; auto. destruct Hr. auto. }
  destruct H as [H1 [H2 [H3 [H4 [H5 H6]]]]]. unfold every_run.
  repeat split; intros; apply Hok; auto.
Qed.

Lemma error_count_follows_the_fault_list_witness :
  count_is_length init_state /\
  every_run Scenarios.cfg3 (Scenarios.calm Scenarios.seconds) 20 init_state
            (fun s' => count_is_length s' /\ (0 <= error_count s')%Z)
            no_exn_constraint.
Proof.
  split; [reflexivity|].
  apply error_count_follows_the_fault_list. reflexivity.
Defined.

(** X2.  The device address is never on the host of the cloud: a call of
    the class made in a state where this holds ends in such a state.  In
    such a state a datagram from the cloud address is never taken for
    device traffic: it goes to the device when one is known, and is
    dropped, leaving the state as it was, when none is. *)
Theorem device_address_is_never_on_the_cloud_host
        (cfg : config) (w : world) (fuel : nat) (s : state) :
  device_apart cfg s ->
  every_run cfg w fuel s (device_apart cfg) no_exn_constraint /\
  forall send d,
    _main_mitm_handler cfg w send (Some d) (Some (enelx_addr cfg)) s =
    match juicebox_addr s with
    | Some _ => forward_to_device cfg w send d s
    | None => Ret tt s
    end.
Proof.
  intros Hs. split.
  - apply field_kept; auto.
    + intros a s0 Ha _ a' Hj. simpl in Hj. injection Hj as <-. exact Ha.
    + intros s0 Hs0. rewrite add_error_run. exact Hs0.
  - intros send d. unfold _main_mitm_handler.
    rewrite String.eqb_refl. cbn [negb]. unfold bind, ret, get.
    destruct (juicebox_addr s) as [a|] eqn:Hj; cbn [opt_addr_eqb].
    + specialize (Hs a Hj). unfold addr_eqb at 1.
      rewrite (String.eqb_sym (fst (enelx_addr cfg)) (fst a)), Hs.
      cbn [andb]. now rewrite addr_eqb_refl.
    + reflexivity.
Qed.

Lemma device_address_is_never_on_the_cloud_host_witness :
  device_apart Scenarios.cfg3 Scenarios.device_known /\
  _main_mitm_handler Scenarios.cfg3 (Scenarios.calm Scenarios.seconds)
                     (fun d t =>
                        send_data_to Scenarios.cfg3
                                     (Scenarios.calm Scenarios.seconds)
                                     5 d t 100)
                     (Some Scenarios.hello)
                     (Some (enelx_addr Scenarios.cfg3))
                     Scenarios.device_known
  = forward_to_device Scenarios.cfg3 (Scenarios.calm Scenarios.seconds)
                      (fun d t =>
                         send_data_to Scenarios.cfg3
                                      (Scenarios.calm Scenarios.seconds)
                                      5 d t 100)
                      Scenarios.hello Scenarios.device_known.
Proof.
  assert (H : device_apart Scenarios.cfg3 Scenarios.device_known).
  { intros a Ha. injection Ha as <-. reflexivity. }
  split; [exact H|].
  apply (proj2 (device_address_is_never_on_the_cloud_host
                  (Scenarios.calm Scenarios.seconds) 5 H)).
Defined.

Lemma lock_after_with_lock (b0 : bool) {A} (m : M A) :
  inv (fun s => sending_lock s = b0) no_exn_constraint (with_lock m).
Proof.
  intros s Hs. unfold with_lock.
  destruct (sending_lock s) eqn:Hl; [exact Logic.I|].
  destruct (m (set_lock true s)); simpl; unfold no_exn_constraint; auto.
Qed.

(** X3.  A call of the class that ends, by returning or by raising,
    leaves the sending lock as it found it: the lock taken around a bind
    or a transmission is released on every path, also when the bind or
    the transmission raises. *)
Theorem sending_lock_is_left_as_found
        (cfg : config) (w : world) (fuel : nat) (s : state) :
  every_run cfg w fuel s
            (fun s' => sending_lock s' = sending_lock s)
            no_exn_constraint.
Proof.
  apply every_run_of_core; auto.
  apply engine_core; try (intros; exact Logic.I).
  - intro ms. apply field_sleep; auto.
  - apply field_locked; auto.
  - apply field_bind; auto.
  - apply lock_after_with_lock.
  - intros d t. unfold transmit. apply inv_bind.
    + apply inv_wait_for_lock; [auto|intros; exact Logic.I].
    + intros _. apply lock_after_with_lock.
  - intros s0 Hs0.
    assert (Hr : inv (fun s' => sending_lock s' = sending_lock s)
                     no_exn_constraint (dgram_recv w))
      by (apply field_recv; auto).
    specialize (Hr s0 Hs0).
    destruct (dgram_recv w s0); simpl in *; auto.
  - intro d. apply field_local; auto.
  - intro d. apply field_remote; auto.
  - intros s0 Hs0. rewrite add_error_run. exact Hs0.
  - auto.
Qed.

(** ** No transmission before a bind *)

Section BoundFirst.

Open Scope list_scope.
Open Scope Z_scope.

Variable cfg : config.
Variable w : world.

Lemma sends_after_bind_snoc (tr : list event) (e : event) :
  forall b,
    sends_after_bind b (tr ++ [e]) =
    sends_after_bind b tr
    && (negb (is_send e) || b || existsb is_bind_ok tr).
Proof.
  induction tr as [|a tr IH]; intros b; simpl.
  - destruct (is_send e), b; reflexivity.
  - destruct (is_send a) eqn:Ha.
    + rewrite IH. assert (Hok : is_bind_ok a = false)
        by (destruct a; try discriminate; reflexivity).
      rewrite Hok. simpl.
      destruct b, (sends_after_bind true tr), (sends_after_bind false tr),
        (is_send e), (existsb is_bind_ok tr); reflexivity.
    + rewrite IH.
      destruct b, (is_bind_ok a), (is_send e), (existsb is_bind_ok tr);
        simpl; rewrite ?orb_true_r; reflexivity.
Qed.

Lemma bound_first_step (s s' : state) (e : event) :
  bound_first s ->
  trace s' = trace s ++ [e] ->
  (is_send e = true -> dgram s <> None) ->
  (dgram s' <> None -> dgram s <> None \/ is_bind_ok e = true) ->
  bound_first s'.
Proof.
  intros [Hd Hs] Ht Hsend Hdg. unfold bound_first. rewrite Ht.
  rewrite existsb_app, sends_after_bind_snoc, Hs. simpl.
  split.
  - intros H. destruct (Hdg H) as [H1|H1].
    + now rewrite (Hd H1).
    + rewrite H1. now rewrite !orb_true_r.
  - destruct (is_send e) eqn:He; [|reflexivity].
    now rewrite (Hd (Hsend eq_refl)).
Qed.

Lemma bound_first_same (s s' : state) :
  bound_first s -> trace s' = trace s ->
  (dgram s' <> None -> dgram s <> None) ->
  bound_first s'.
Proof.
  intros [Hd Hs] Ht Hdg. unfold bound_first. rewrite Ht. split; auto.
Qed.

Ltac neutral :=
  first
    [ eapply bound_first_same; [eassumption|reflexivity|simpl; auto; fail]
    | eapply bound_first_step;
      [eassumption|reflexivity|simpl; try discriminate; auto
      |simpl; auto] ].

Lemma bound_first_bind : inv bound_first no_exn_constraint (dgram_bind w).
Proof.
  intros s Hs. unfold dgram_bind.
  destruct (bind_result w (tick s)); simpl; unfold no_exn_constraint;
    [split; [|exact Logic.I]|]; neutral.
Qed.

Lemma bound_first_add_error :
  inv bound_first no_exn_constraint (_add_error cfg w).
Proof. intros s Hs. rewrite add_error_run. simpl. neutral. Qed.

Lemma bound_first_transmit d t :
  inv bound_first no_exn_constraint (transmit cfg w d t).
Proof.
  unfold transmit. apply inv_bind.
  { apply inv_wait_for_lock; [|intros; exact Logic.I].
    intros s Hs. neutral. }
  intros _. apply inv_with_lock; auto.
  intros s Hs _. apply okr_try_except.
  - apply okr_bind; [|intros; apply inv_ret].
    unfold dgram_send. destruct (dgram s) eqn:Hd;
      [|split; [exact Hs|exact Logic.I]].
    destruct (send_result w (tick s)); simpl; unfold no_exn_constraint;
      [split; [|exact Logic.I]|];
      (eapply bound_first_step;
       [exact Hs|reflexivity|intros _; congruence
       |simpl; intros _; left; congruence]).
  - intros e. apply inv_bind; [apply bound_first_add_error|]. intros _.
    apply inv_bind; [|intros; apply inv_ret].
    apply inv_modify. intros s0 Hs0.
    eapply bound_first_same; [exact Hs0|reflexivity|simpl; congruence].
Qed.

(** X4.  A call of the class made in a state where the socket, if held,
    came from a successful bind and every transmission so far came after
    one, ends in such a state: in a run that starts from the state
    [__init__] leaves, no datagram is transmitted before a bind has
    succeeded. *)
Theorem no_transmission_before_a_successful_bind
        (fuel : nat) (s : state) :
  bound_first s -> every_run cfg w fuel s bound_first no_exn_constraint.
Proof.
  intros Hs. apply every_run_of_core; auto.
  - apply engine_core; try (intros; exact Logic.I).
    + intros ms s0 Hs0. unfold sleep.
      destruct (sleep_result w (tick s0)); simpl; unfold no_exn_constraint;
        [split; [|exact Logic.I]|]; neutral.
    + intros s0 Hs0. simpl. neutral.
    + apply bound_first_bind.
    + apply inv_with_lock; auto.
      intros s0 Hs0 _. apply bound_first_bind, Hs0.
    + apply bound_first_transmit.
    + intros s0 Hs0. unfold dgram_recv.
      destruct (recv_result w (tick s0)); simpl; unfold no_exn_constraint;
        [split; [|intros a _]|split; [|exact Logic.I]]; neutral.
    + intros d s0 Hs0. unfold call_local.
      destruct (local_mitm_handler w (tick s0) d); simpl;
        unfold no_exn_constraint; [|split; [|exact Logic.I]]; neutral.
    + intros d s0 Hs0. unfold call_remote.
      destruct (remote_mitm_handler w (tick s0) d); simpl;
        unfold no_exn_constraint; [|split; [|exact Logic.I]]; neutral.
    + apply bound_first_add_error.
    + intros s0 Hs0.
      eapply bound_first_same; [exact Hs0|reflexivity|simpl; congruence].
Qed.

End BoundFirst.

Lemma no_transmission_before_a_successful_bind_witness :
  bound_first init_state /\
  every_run Scenarios.cfg3 (Scenarios.calm Scenarios.seconds) 20 init_state
            bound_first no_exn_constraint.
Proof.
  assert (H : bound_first init_state).
  { split; [intros H; now elim H|reflexivity]. }
  split; [exact H|].
  apply no_transmission_before_a_successful_bind. exact H.
Defined.

(** ** A look-back of zero *)

Section NoWindow.

Open Scope list_scope.
Open Scope Z_scope.

Variable cfg : config.
Variable w : world.

Hypothesis no_look_back : ERROR_LOOKBACK_MIN cfg <= 0.
Hypothesis some_budget : 0 < MAX_ERROR_COUNT cfg.
Hypothesis clock_is_monotone : clock_monotone w.
Hypothesis world_is_plain : world_raises_no_failure w.

Lemma plain_not_breaker (e : exn) (s : state) :
  is_failure e = false -> not_breaker e s.
Proof. intros H n Hn. subst e. discriminate. Qed.

Lemma no_faults_same (s s' : state) :
  no_faults s ->
  error_timestamp_list s' = error_timestamp_list s ->
  error_count s' = error_count s ->
  no_faults s'.
Proof. intros [H1 H2] Hl Hc. split; congruence. Qed.

Lemma no_faults_add_error :
  inv no_faults not_breaker (_add_error cfg w).
Proof.
  intros s [Hl Hc]. rewrite add_error_run. unfold no_faults.
  cbn [okr error_timestamp_list error_count]. rewrite Hl. simpl.
  assert (Hm : clock w (tick s) <= clock w (S (tick s)))
    by (apply clock_is_monotone; lia).
  destruct (time_cutoff_of cfg (clock w (S (tick s))) <? clock w (tick s))
    eqn:Hlt.
  - apply Z.ltb_lt in Hlt. unfold time_cutoff_of in Hlt. lia.
  - split; reflexivity.
Qed.

Ltac quiet := eapply no_faults_same; [eassumption|reflexivity|reflexivity].

Lemma no_faults_bind : inv no_faults not_breaker (dgram_bind w).
Proof.
  intros s Hs. unfold dgram_bind.
  destruct (world_is_plain (tick s)) as [Hp _].
  destruct (bind_result w (tick s)); simpl;
    [split; [quiet|now apply plain_not_breaker]|quiet].
Qed.

Lemma no_faults_transmit d t :
  inv no_faults not_breaker (transmit cfg w d t).
Proof.
  unfold transmit. apply inv_bind.
  { apply inv_wait_for_lock; [|intros s Hs n Hn; discriminate].
    intros s Hs. quiet. }
  intros _. apply inv_with_lock; auto.
  intros s Hs _. apply okr_try_except.
  - apply okr_bind; [|intros; apply inv_ret].
    unfold dgram_send. destruct (dgram s);
      [|split; [exact Hs|intros n Hn; discriminate]].
    destruct (world_is_plain (tick s)) as [_ [Hp _]].
    destruct (send_result w (tick s)); simpl;
      [split; [quiet|now apply plain_not_breaker]|quiet].
  - intros e. apply inv_bind; [apply no_faults_add_error|]. intros _.
    apply inv_bind; [|intros; apply inv_ret].
    apply inv_modify. intros s0 Hs0. quiet.
Qed.

(** X5.  With a look-back of zero minutes or less, under a clock that
    does not go backwards, a recorded fault is pruned at once: from an
    empty fault record the error count stays 0 through every call of the
    class, so with a positive MAX_ERROR_COUNT the breaker failure is
    never raised. *)
Theorem no_look_back_disables_the_breaker (fuel : nat) (s : state) :
  no_faults s -> every_run cfg w fuel s no_faults not_breaker.
Proof.
  intros Hs. apply every_run_of_core; auto.
  apply engine_core.
  - intros ms s0 Hs0. unfold sleep.
    destruct (world_is_plain (tick s0)) as [_ [_ [Hp _]]].
    destruct (sleep_result w (tick s0)); simpl;
      [split; [quiet|now apply plain_not_breaker]|quiet].
  - intros s0 Hs0. simpl. quiet.
  - apply no_faults_bind.
  - apply inv_with_lock; auto. intros s0 Hs0 _. apply no_faults_bind, Hs0.
  - apply no_faults_transmit.
  - intros s0 Hs0. unfold dgram_recv.
    destruct (world_is_plain (tick s0)) as [_ [_ [_ [Hp _]]]].
    destruct (recv_result w (tick s0)) eqn:Hr; simpl.
    + split; [|intros a _]; quiet.
    + split; [quiet|]. apply plain_not_breaker. eapply Hp. reflexivity.
  - intros d s0 Hs0. unfold call_local.
    destruct (world_is_plain (tick s0)) as [_ [_ [_ [_ [Hp _]]]]].
    destruct (local_mitm_handler w (tick s0) d) eqn:Hr; simpl.
    + quiet.
    + split; [quiet|]. apply plain_not_breaker. eapply Hp. exact Hr.
  - intros d s0 Hs0. unfold call_remote.
    destruct (world_is_plain (tick s0)) as [_ [_ [_ [_ [_ Hp]]]]].
    destruct (remote_mitm_handler w (tick s0) d) eqn:Hr; simpl.
    + quiet.
    + split; [quiet|]. apply plain_not_breaker. eapply Hp. exact Hr.
  - apply no_faults_add_error.
  - intros s0 Hs0. quiet.
  - intros e s0 [Hl Hc] Hr n Hn. subst e.
    destruct Hr as [Hr|[Hr|[Hr|[Hr|[Hr|[Hr Hmax]]]]]]; try discriminate.
    rewrite Hc in Hmax. lia.
Qed.

End NoWindow.

Lemma no_look_back_disables_the_breaker_witness :
  ERROR_LOOKBACK_MIN Scenarios.cfg_no_window <= 0 /\
  0 < MAX_ERROR_COUNT Scenarios.cfg_no_window /\
  clock_monotone (Scenarios.calm Scenarios.seconds) /\
  world_raises_no_failure (Scenarios.calm Scenarios.seconds) /\
  no_faults init_state /\
  every_run Scenarios.cfg_no_window (Scenarios.calm Scenarios.seconds) 40
            init_state no_faults not_breaker.
Proof.
  assert (H1 : ERROR_LOOKBACK_MIN Scenarios.cfg_no_window <= 0)
    by (simpl; lia).
  assert (H2 : 0 < MAX_ERROR_COUNT Scenarios.cfg_no_window)
    by (simpl; lia).
  assert (H5 : no_faults init_state) by (split; reflexivity).
  split; [exact H1|]. split; [exact H2|].
  split; [exact seconds_monotone|].
  split; [apply calm_raises_no_failure|]. split; [exact H5|].
  apply no_look_back_disables_the_breaker;
    [exact H1|exact H2|exact seconds_monotone
    |apply calm_raises_no_failure|exact H5].
Defined.

(** ** The calls around the loop *)

Section SurfaceFacts.

Open Scope list_scope.
Open Scope Z_scope.

Variable cfg : config.
Variable w : world.

(** X6.  [send_data] reconnects when no socket is held, and [_connect]
    runs the receive loop itself once it has bound one, so it never
    hands control back: a [send_data] or a [send_data_to_juicebox] made
    with no socket held transmits nothing of its own and ends exactly as
    [start] made in the same state does, which is never by returning. *)
Theorem a_send_without_a_socket_is_a_start
        (fuel : nat) (d : payload) (t : option addr) (b : Z) (s : state) :
  dgram s = None ->
  send_data_to cfg w fuel d t b s = start cfg w fuel s /\
  send_data_to_juicebox cfg w fuel d s = start cfg w fuel s /\
  (forall u s', start cfg w fuel s <> Ret u s').
Proof.
  intros Hd.
  pose proof (connect_never_returns cfg w (_mitm_loop cfg w fuel) s) as Hn.
  assert (Hs : forall t b,
             send_data_to cfg w fuel d t b s = start cfg w fuel s).
  { intros t0 b0. unfold send_data_to, send_data, start, connect in *.
    change (Z.to_nat SEND_DATA_RETRIES) with 3%nat.
    unfold bind at 1. rewrite send_loop_unfold. cbn [negb andb].
    change (1 <=? SEND_DATA_RETRIES) with true. cbv iota.
    unfold send_attempt_body, bind, get. rewrite Hd.
    destruct (_connect cfg w (_mitm_loop cfg w fuel) s);
      [contradiction|reflexivity|reflexivity]. }
  split; [apply Hs|]. split.
  - unfold send_data_to_juicebox, bind, get. apply Hs.
  - intros u s' Heq. unfold start, connect in Heq. rewrite Heq in Hn.
    exact Hn.
Qed.

(** X7.  [close] leaves no socket held, whether one was held or not.
    With no socket it does nothing at all; with one it drops it and
    sleeps 3 s, and raises only what that sleep raises.  It transmits
    and binds nothing, and it leaves the fault record, the device
    address and the lock as they were; a second [close] after one that
    returned is a no-op. *)
Theorem close_releases_the_socket (s : state) :
  (dgram s = None -> close w s = Ret tt s) /\
  match close w s with
  | Ret _ s' =>
      dgram s' = None /\ close w s' = Ret tt s' /\
      error_timestamp_list s' = error_timestamp_list s /\
      error_count s' = error_count s /\
      juicebox_addr s' = juicebox_addr s /\
      sending_lock s' = sending_lock s /\
      trace s' = trace s ++
                 match dgram s with Some _ => [ESleep 3000] | None => [] end
  | Raise e s' =>
      dgram s <> None /\ sleep_result w (tick s) = Some e /\
      dgram s' = None /\
      error_timestamp_list s' = error_timestamp_list s /\
      error_count s' = error_count s /\
      juicebox_addr s' = juicebox_addr s /\
      sending_lock s' = sending_lock s /\
      trace s' = trace s ++ [ESleep 3000]
  | OutOfFuel => False
  end.
Proof.
  unfold close, bind, get, modify, ret, sleep.
  destruct (dgram s) as [k|] eqn:Hd.
  - split; [discriminate|]. cbn.
    destruct (sleep_result w (tick s)) as [e|]; cbn.
    + repeat split; congruence.
    + repeat split; reflexivity.
  - split; [reflexivity|]. cbn. rewrite Hd.
    repeat split; auto using app_nil_r.
Qed.

End SurfaceFacts.

Lemma a_send_without_a_socket_is_a_start_witness :
  dgram init_state = None /\
  send_data_to Scenarios.cfg3 (Scenarios.calm Scenarios.seconds) 20
               Scenarios.hello (Some Scenarios.cloud) 100 init_state
  = start Scenarios.cfg3 (Scenarios.calm Scenarios.seconds) 20 init_state.
Proof.
  split; [reflexivity|].
  exact (proj1 (a_send_without_a_socket_is_a_start
                  Scenarios.cfg3 (Scenarios.calm Scenarios.seconds)
                  20 Scenarios.hello (Some Scenarios.cloud) 100
                  init_state eq_refl)).
Defined.

(** ** Ignoring the remote *)

Section IgnoreRemote.

Open Scope list_scope.
Open Scope Z_scope.

Variable cfg : config.
Variable w : world.
Variable s0 : state.

Hypothesis ignoring : ignore_remote cfg = true.

Let I := extends_with inbound_only s0.

Lemma inbound_step (s s' : state) (e : event) :
  I s -> inbound_only e = true -> trace s' = trace s ++ [e] -> I s'.
Proof.
  intros [new [Ht Hf]] He Ht'. exists (new ++ [e]). split.
  - rewrite Ht', Ht, app_assoc. reflexivity.
  - rewrite forallb_app, Hf. simpl. now rewrite He.
Qed.

Lemma inbound_same (s s' : state) :
  I s -> trace s' = trace s -> I s'.
Proof.
  intros [new [Ht Hf]] Ht'. exists new. split; [congruence|exact Hf].
Qed.

Ltac inbound :=
  first
    [ eapply inbound_same; [eassumption|reflexivity]
    | eapply inbound_step; [eassumption| |reflexivity]; reflexivity ].

Lemma inbound_sleep ms : inv I no_exn_constraint (sleep w ms).
Proof.
  intros s Hs. unfold sleep.
  destruct (sleep_result w (tick s)); simpl; unfold no_exn_constraint;
    [split; [|exact Logic.I]|]; inbound.
Qed.

Lemma inbound_bind : inv I no_exn_constraint (dgram_bind w).
Proof.
  intros s Hs. unfold dgram_bind.
  destruct (bind_result w (tick s)); simpl; unfold no_exn_constraint;
    [split; [|exact Logic.I]|]; inbound.
Qed.

Lemma inbound_add_error : inv I no_exn_constraint (_add_error cfg w).
Proof. intros s Hs. rewrite add_error_run. simpl. inbound. Qed.

Lemma inbound_local d : inv I no_exn_constraint (call_local w d).
Proof.
  intros s Hs. unfold call_local.
  destruct (local_mitm_handler w (tick s) d); simpl;
    unfold no_exn_constraint; [|split; [|exact Logic.I]]; inbound.
Qed.

(** The handler asks nothing of [send_data] when the remote is
    ignored. *)
Lemma inbound_handler (send : payload -> option addr -> M unit)
      data from_addr :
  inv I no_exn_constraint (_main_mitm_handler cfg w send data from_addr).
Proof.
  unfold _main_mitm_handler.
  destruct data as [data|]; [|apply inv_ret].
  destruct from_addr as [from_addr|]; [|apply inv_ret].
  apply inv_bind.
  - destruct (negb _); [|apply inv_ret].
    apply inv_modify. intros s Hs. inbound.
  - intros _. apply inv_bind; [apply inv_get|]. intros s1.
    unfold forward_to_cloud, forward_to_device. rewrite ignoring.
    cbn [negb].
    destruct (opt_addr_eqb from_addr (juicebox_addr s1)).
    + apply inv_bind; [apply inbound_local|]. intros; apply inv_ret.
    + destruct (_ && _); apply inv_ret.
Qed.

Lemma inbound_loop (fuel : nat) :
  inv I no_exn_constraint (_mitm_loop cfg w fuel).
Proof.
  apply core_loop_with_handler; try (intros; exact Logic.I).
  - apply inbound_sleep.
  - intros s Hs. simpl. inbound.
  - apply inbound_bind.
  - apply inv_with_lock; auto.
    intros s Hs _. apply inbound_bind, Hs.
  - intros s Hs. unfold dgram_recv.
    destruct (recv_result w (tick s)); simpl; unfold no_exn_constraint;
      [split; [|intros a _]|split; [|exact Logic.I]]; inbound.
  - apply inbound_add_error.
  - intros s Hs. inbound.
  - intros n _ data from_addr s Hs _. apply inbound_handler, Hs.
Qed.

End IgnoreRemote.

(** X8.  With [ignore_remote] set the relay only listens: whatever the
    receive loop, [start] and the datagram handler do, they make no
    transmission and never call the remote transform; and the handler
    ends within one call of the local transform, without entering
    [send_data] or the reconnect. *)
Theorem ignoring_the_remote_nothing_is_sent
        (cfg : config) (w : world) (fuel : nat) (s : state) :
  ignore_remote cfg = true ->
  okr (extends_with inbound_only s) no_exn_constraint
      (_mitm_loop cfg w fuel s) /\
  okr (extends_with inbound_only s) no_exn_constraint
      (start cfg w fuel s) /\
  forall data from_addr,
    okr (extends_with inbound_only s) no_exn_constraint
        (main_mitm_handler cfg w fuel data from_addr s) /\
    main_mitm_handler cfg w fuel data from_addr s <> OutOfFuel /\
    main_mitm_handler cfg w fuel data from_addr s
    = main_mitm_handler cfg w 0 data from_addr s.
Proof.
  intros Hi.
  assert (H0 : extends_with inbound_only s s).
  { exists []. split; [now rewrite app_nil_r|reflexivity]. }
  split; [apply inbound_loop; assumption|].
  split.
  - unfold start, connect.
    apply (@core__connect cfg w (extends_with inbound_only s)
                          no_exn_constraint);
      try (intros; exact Logic.I); auto.
    + apply inbound_sleep.
    + intros s1 Hs1. simpl. eapply inbound_same; [exact Hs1|reflexivity].
    + apply inbound_bind.
    + apply inv_with_lock; auto.
      intros s1 Hs1 _. apply inbound_bind, Hs1.
    + apply inbound_add_error.
    + apply inbound_loop. exact Hi.
  - intros data from_addr. split; [apply inbound_handler; assumption|].
    unfold main_mitm_handler, _main_mitm_handler.
    destruct data as [data|]; [|split; [discriminate|reflexivity]].
    destruct from_addr as [a|]; [|split; [discriminate|reflexivity]].
    unfold forward_to_cloud, forward_to_device. rewrite Hi. cbn [negb].
    unfold bind, get, modify, ret, call_local.
    split; [|reflexivity].
    destruct (negb _);
      match goal with
      | |- context [opt_addr_eqb a ?x] => destruct (opt_addr_eqb a x)
      end;
      try match goal with
          | |- context [local_mitm_handler w ?k ?d] =>
              destruct (local_mitm_handler w k d)
          end;
      try match goal with
          | |- context [andb ?x ?y] => destruct (andb x y)
          end;
      discriminate.
Qed.

Lemma ignoring_the_remote_nothing_is_sent_witness :
  ignore_remote Scenarios.cfg3_ignore = true /\
  okr (extends_with inbound_only Scenarios.device_known) no_exn_constraint
      (_mitm_loop Scenarios.cfg3_ignore (Scenarios.calm Scenarios.seconds)
                  30 Scenarios.device_known).
Proof.
  split; [reflexivity|].
  exact (proj1 (ignoring_the_remote_nothing_is_sent
                  Scenarios.cfg3_ignore (Scenarios.calm Scenarios.seconds)
                  30 Scenarios.device_known eq_refl)).
Defined.

(** ** The handler at its edges *)

Section HandlerEdges.

Open Scope list_scope.
Open Scope Z_scope.

Variable cfg : config.
Variable w : world.

(** X9.  A datagram that comes from the host of the cloud but is not
    cloud traffic the relay can pass on, because no device is known yet
    or because its source is not the cloud address itself, is dropped:
    the handler returns at once and leaves the state as it was, with no
    transform called, nothing transmitted and no fault recorded. *)
Theorem datagrams_from_unknown_sources_are_dropped
        (fuel : nat) (d : payload) (a : addr) (s : state) :
  String.eqb (fst a) (fst (enelx_addr cfg)) = true ->
  device_apart cfg s ->
  juicebox_addr s = None \/ addr_eqb a (enelx_addr cfg) = false ->
  main_mitm_handler cfg w fuel (Some d) (Some a) s = Ret tt s.
Proof.
  intros Hh Hap Hor. unfold main_mitm_handler, _main_mitm_handler.
  rewrite Hh. cbn [negb]. unfold bind, ret, get.
  assert (Hne : opt_addr_eqb a (juicebox_addr s) = false).
  { destruct (juicebox_addr s) as [j|] eqn:Hj; [|reflexivity].
    cbn [opt_addr_eqb]. unfold addr_eqb.
    destruct (String.eqb (fst a) (fst j)) eqn:Haj; [|reflexivity].
    apply String.eqb_eq in Haj. rewrite Haj in Hh.
    rewrite (Hap j Hj) in Hh. discriminate. }
  rewrite Hne.
  destruct Hor as [Hn|Hn]; rewrite Hn; [reflexivity|].
  rewrite andb_false_r. reflexivity.
Qed.

End HandlerEdges.

Lemma datagrams_from_unknown_sources_are_dropped_witness :
  main_mitm_handler Scenarios.cfg3 (Scenarios.calm Scenarios.seconds) 20
                    (Some Scenarios.hello) (Some ("10.0.0.1"%string, 9999))
                    Scenarios.device_known
  = Ret tt Scenarios.device_known.
Proof.
  apply (@datagrams_from_unknown_sources_are_dropped
           Scenarios.cfg3 (Scenarios.calm Scenarios.seconds) 20
           Scenarios.hello ("10.0.0.1"%string, 9999)
           Scenarios.device_known).
  - reflexivity.
  - intros j Hj. injection Hj as <-. reflexivity.
  - right. reflexivity.
Defined.

(** ** Errors of the socket that are not retried *)

Section SendErrors.

Open Scope list_scope.
Open Scope Z_scope.

Variable cfg : config.
Variable w : world.

Lemma send_data_leaves_on_other_errors
      (c : M unit) (d : payload) (t : option addr) (b : Z) (e : exn)
      (s : state) :
  dgram s <> None ->
  sending_lock s = false ->
  send_result w (tick s) = Some e ->
  is_TransportClosed e = false ->
  is_TimeoutError e = false ->
  send_data cfg w c d t b s =
  Raise e (set_lock false (next_tick (log (ESend d t true) s))).
Proof.
  intros Hd Hl Hs Hc Ht.
  assert (Hm : match e with TimeoutError => true | _ => false end = false)
    by (destruct e; try reflexivity; discriminate).
  destruct s as [lk dg ja task ec el tk tr]. simpl in *. subst lk.
  destruct dg as [k|]; [|congruence].
  unfold send_data. change (Z.to_nat SEND_DATA_RETRIES) with 3%nat.
  unfold bind at 1. rewrite send_loop_unfold. cbn [negb andb].
  change (1 <=? SEND_DATA_RETRIES) with true. cbv iota.
  unfold send_attempt_body, transmit, wait_for_lock,
    deadline_passes_waiting, with_lock, try_except, dgram_send,
    bind, get, ret.
  cbn. rewrite Hs. cbn. rewrite Hm, andb_false_r. cbn.
  rewrite ?Hs, Hc, Ht. reflexivity.
Qed.

(** X10.  [send_data] retries only after a closed transport or a
    timeout.  When the first transmission fails with anything else, the
    exception leaves [send_data] at once: one transmission was made
    under the lock, the lock is released, the socket is kept, no fault
    is recorded, and neither the sleep nor a second attempt follows. *)
Theorem other_send_errors_leave_send_data_at_once
        (fuel : nat) (d : payload) (t : option addr) (b : Z) (e : exn)
        (s : state) :
  dgram s <> None ->
  sending_lock s = false ->
  send_result w (tick s) = Some e ->
  is_TransportClosed e = false ->
  is_TimeoutError e = false ->
  exists s',
    send_data_to cfg w fuel d t b s = Raise e s' /\
    trace s' = trace s ++ [ESend d t true] /\
    dgram s' = dgram s /\
    sending_lock s' = false /\
    error_timestamp_list s' = error_timestamp_list s /\
    error_count s' = error_count s.
Proof.
  intros Hd Hl Hs Hc Ht. unfold send_data_to.
  rewrite (@send_data_leaves_on_other_errors
             (connect cfg w fuel) d t b e s Hd Hl Hs Hc Ht).
  eexists. split; [reflexivity|]. repeat split; reflexivity.
Qed.

(** X11.  The error path of the handler as the code means it (lines
    147-156).  A device datagram goes through the local transform; when
    its transmission to the cloud fails with an [OSError] whose errno has
    a name and is not ETIMEDOUT (with that errno the exception is a
    [TimeoutError], which [send_data] handles itself), and the local
    transform accepts the diagnostic, the handler
    returns normally: it has passed the diagnostic, with that name, to
    the local transform and recorded one fault.  The datagram is not
    sent again, the socket is kept and the lock is free. *)
Theorem a_named_send_error_is_reported_and_recorded
        (fuel : nat) (d d' x : payload) (a : addr) (n : Z) (c : string)
        (s : state) :
  ignore_remote cfg = false ->
  dgram s <> None ->
  sending_lock s = false ->
  String.eqb (fst a) (fst (enelx_addr cfg)) = false ->
  local_mitm_handler w (tick s) d = inl d' ->
  send_result w (S (tick s)) = Some (OSError (Some n)) ->
  n <> ETIMEDOUT ->
  errorcode w n = Some c ->
  local_mitm_handler w (S (S (tick s)))
    (Diagnostic "server" (Some (enelx_addr cfg)) c (OSError (Some n)))
  = inl x ->
  exists s',
    main_mitm_handler cfg w fuel (Some d) (Some a) s = Ret tt s' /\
    trace s' =
      trace s ++
      [ELocal d; ESend d' (Some (enelx_addr cfg)) true;
       ELocal (Diagnostic "server" (Some (enelx_addr cfg)) c
                          (OSError (Some n)));
       EError (clock w (S (S (S (tick s)))))
              (clock w (S (S (S (S (tick s))))))] /\
    dgram s' = dgram s /\
    juicebox_addr s' = Some a /\
    sending_lock s' = false /\
    error_timestamp_list s' =
      filter (fun el =>
                time_cutoff_of cfg (clock w (S (S (S (S (tick s)))))) <? el)
             (error_timestamp_list s ++ [clock w (S (S (S (tick s))))]) /\
    error_count s' = Z.of_nat (List.length (error_timestamp_list s')).
Proof.
  intros Hi Hd Hl Hh Hloc Hsend Hn Hcode Hdiag.
  destruct s as [lk dg ja task ec el tk tr]. simpl in *. subst lk.
  destruct dg as [k|]; [|congruence].
  unfold main_mitm_handler, _main_mitm_handler. rewrite Hh. cbn [negb].
  unfold bind at 1. unfold modify at 1. unfold bind at 1, get at 1.
  cbn [juicebox_addr set_juicebox_addr opt_addr_eqb].
  rewrite addr_eqb_refl.
  unfold forward_to_cloud. rewrite Hi. cbn [negb].
  unfold bind at 1. unfold call_local at 1.
  cbn [tick set_juicebox_addr]. rewrite Hloc.
  unfold try_except, send_data_to.
  rewrite (@send_data_leaves_on_other_errors _ _ _ _ (OSError (Some n)));
    [|simpl; congruence|reflexivity|exact Hsend|reflexivity
     |simpl; now apply Z.eqb_neq].
  cbn [is_OSError]. unfold on_send_OSError, errorcode_of.
  cbn [exn_errno]. rewrite Hcode. unfold bind at 1, ret at 1.
  unfold bind at 1, call_local at 1.
  cbn [tick next_tick log set_lock set_juicebox_addr].
  rewrite Hdiag. rewrite add_error_run.
  eexists. split; [reflexivity|]. cbn.
  rewrite <- !app_assoc. cbn.
  repeat split; reflexivity.
Qed.

End SendErrors.

Lemma other_send_errors_leave_send_data_at_once_witness :
  exists s',
    send_data_to Scenarios.cfg10 Scenarios.network_unreachable 5
                 Scenarios.hello (Some Scenarios.cloud) 100
                 Scenarios.socket_held
    = Raise (OSError (Some 101)) s' /\
    trace s' =
      (trace Scenarios.socket_held
       ++ [ESend Scenarios.hello (Some Scenarios.cloud) true])%list /\
    dgram s' = dgram Scenarios.socket_held /\
    sending_lock s' = false /\
    error_timestamp_list s' = error_timestamp_list Scenarios.socket_held /\
    error_count s' = error_count Scenarios.socket_held.
Proof.
  apply (@other_send_errors_leave_send_data_at_once
           Scenarios.cfg10 Scenarios.network_unreachable 5
           Scenarios.hello (Some Scenarios.cloud) 100 (OSError (Some 101))
           Scenarios.socket_held).
  - discriminate.
  - reflexivity.
  - reflexivity.
  - reflexivity.
  - reflexivity.
Defined.

Lemma a_named_send_error_is_reported_and_recorded_witness :
  exists s',
    main_mitm_handler Scenarios.cfg10 Scenarios.network_unreachable 5
                      (Some Scenarios.hello) (Some Scenarios.device)
                      Scenarios.socket_held = Ret tt s' /\
    error_count s' = 1%Z.
Proof.
  destruct (@a_named_send_error_is_reported_and_recorded
              Scenarios.cfg10 Scenarios.network_unreachable 5
              Scenarios.hello Scenarios.hello
              (Diagnostic "server" (Some Scenarios.cloud) "ENETUNREACH"
                          (OSError (Some 101)))
              Scenarios.device 101 "ENETUNREACH" Scenarios.socket_held
              eq_refl ltac:(discriminate) eq_refl eq_refl eq_refl eq_refl
              ltac:(discriminate) eq_refl eq_refl)
    as [s' [H1 [_ [_ [_ [_ [H6 H7]]]]]]].
  exists s'. split; [exact H1|]. rewrite H7, H6. reflexivity.
Defined.

(** ** What ends the receive loop *)

Section LoopExits.

Open Scope list_scope.
Open Scope Z_scope.

Variable cfg : config.
Variable w : world.

Hypothesis expected : expected_failures w.

Lemma raises_only_weaken {A} (P Q : exn -> Prop) (r : result A) :
  (forall e, P e -> Q e) -> raises_only P r -> raises_only Q r.
Proof. intros H. destruct r; simpl; auto. Qed.

Lemma raises_only_bind {A B} (P : exn -> Prop) (m : M A) (k : A -> M B)
      (s : state) :
  raises_only P (m s) ->
  (forall a s', m s = Ret a s' -> raises_only P (k a s')) ->
  raises_only P (bind m k s).
Proof.
  intros Hm Hk. unfold bind.
  destruct (m s) as [a s'|e s'|]; simpl in *; auto.
Qed.

Lemma raises_only_try_except {A} (P Q : exn -> Prop) (m : M A)
      (c : exn -> bool) (h : exn -> M A) (s : state) :
  raises_only P (m s) ->
  (forall e s', P e ->
                if c e then raises_only Q (h e s') else Q e) ->
  raises_only Q (try_except m c h s).
Proof.
  intros Hm Hh. unfold try_except.
  destruct (m s) as [a s'|e s'|]; simpl in *; auto.
  specialize (Hh e s' Hm). destruct (c e); auto.
Qed.

Lemma add_error_raises_nothing (P : exn -> Prop) (s : state) :
  raises_only P (_add_error cfg w s).
Proof. rewrite add_error_run. exact Logic.I. Qed.

Lemma sleep_raises_nothing (P : exn -> Prop) (ms : Z) (s : state) :
  raises_only P (sleep w ms s).
Proof.
  unfold sleep. destruct (expected (tick s)) as [_ [_ [H _]]].
  rewrite H. exact Logic.I.
Qed.

Lemma bind_raises_OSError (s : state) :
  raises_only (fun e => is_OSError e = true) (dgram_bind w s).
Proof.
  unfold dgram_bind. destruct (expected (tick s)) as [H _].
  destruct (bind_result w (tick s)) as [e|]; simpl; auto.
Qed.

Lemma connect_attempt_body_raises_nothing (P : exn -> Prop) (s : state) :
  raises_only P (connect_attempt_body cfg w s).
Proof.
  unfold connect_attempt_body.
  apply raises_only_bind; [|intros; apply sleep_raises_nothing].
  apply raises_only_try_except with (P := fun e => is_OSError e = true).
  - apply raises_only_bind; [exact Logic.I|]. intros locked s' _.
    destruct locked; [apply bind_raises_OSError|].
    unfold with_lock. destruct (sending_lock s'); [exact Logic.I|].
    pose proof (bind_raises_OSError (set_lock true s')) as Hb.
    destruct (dgram_bind w (set_lock true s')); simpl in *; auto.
  - intros e s' He. rewrite He.
    apply raises_only_bind; [apply add_error_raises_nothing|].
    intros; exact Logic.I.
Qed.

Lemma connect_loop_raises_nothing (P : exn -> Prop) (n : nat) :
  forall a s, raises_only P (connect_loop cfg w n a s).
Proof.
  induction n as [|n IH]; intros a s; rewrite connect_loop_unfold;
    destruct (connect_guard cfg a s); try exact Logic.I.
  pose proof (connect_attempt_body_raises_nothing P s) as Hb.
  destruct (connect_attempt_body cfg w s); simpl in *; auto.
Qed.

Lemma connect_ends_the_loop (loop : M Empty_set) :
  (forall s, raises_only ends_the_loop (loop s)) ->
  forall s, raises_only ends_the_loop (_connect cfg w loop s).
Proof.
  intros Hl s. unfold _connect.
  apply raises_only_bind; [apply connect_loop_raises_nothing|].
  intros _ s1 _. unfold bind, get, raise.
  destruct (dgram s1).
  - destruct (mitm_loop_task s1) as [[]|].
    specialize (Hl s1). destruct (loop s1) as [[] ?|e s2|]; simpl in *; auto.
  - simpl. left. reflexivity.
Qed.

Lemma transmit_raises (d : payload) (t : option addr) (s : state) :
  dgram s <> None ->
  raises_only (fun e => e = TimeoutError \/ named_OSError w e)
              (transmit cfg w d t s).
Proof.
  intros Hd. unfold transmit. unfold bind at 1, wait_for_lock.
  destruct (deadline_passes_waiting w s); [now left|].
  unfold with_lock.
  destruct (sending_lock s); [exact Logic.I|].
  match goal with
  | |- context [try_except ?m ?c ?h ?s1] =>
      assert (H : raises_only
                    (fun e => e = TimeoutError \/ named_OSError w e)
                    (try_except m c h s1))
  end.
  { apply raises_only_try_except
      with (P := fun e => e = TransportClosed \/ e = TimeoutError \/
                          named_OSError w e).
    - unfold bind, dgram_send, ret. cbn [dgram set_lock].
      destruct (dgram s); [|congruence].
      change (tick (set_lock true s)) with (tick s).
      destruct (expected (tick s)) as [_ [H _]].
      destruct (send_result w (tick s)) as [e|] eqn:Hr;
        [|exact Logic.I].
      apply (H e eq_refl).
    - intros e s' [He|[He|He]].
      + subst e. cbn [is_TransportClosed].
        apply raises_only_bind; [apply add_error_raises_nothing|].
        intros; exact Logic.I.
      + subst e. cbn [is_TransportClosed]. now left.
      + destruct He as [n [c [He Hc]]]. subst e. cbn [is_TransportClosed].
        right. exists n, c. auto. }
  match goal with
  | H : raises_only _ ?r |- _ => destruct r; simpl in *; auto
  end.
Qed.

Lemma send_attempt_body_raises (c : M unit) d t b (s : state) :
  (forall s, raises_only ends_the_loop (c s)) ->
  (forall s, match c s with Ret _ _ => False | _ => True end) ->
  raises_only (from_send w) (send_attempt_body cfg w c d t b s).
Proof.
  intros Hc Hn. unfold send_attempt_body. unfold bind at 1, get.
  unfold bind at 1.
  destruct (dgram s) as [k|] eqn:Hd.
  - unfold ret at 1.
    apply raises_only_bind.
    + apply raises_only_try_except
        with (P := fun e => e = TimeoutError \/ named_OSError w e).
      * apply transmit_raises. congruence.
      * intros e s' [He|He].
        -- subst e. cbn [is_TimeoutError].
           apply raises_only_bind; [apply add_error_raises_nothing|].
           intros; exact Logic.I.
        -- destruct He as [n [c0 [He Hc0]]]. subst e.
           destruct (is_TimeoutError (OSError (Some n))).
           ++ apply raises_only_bind; [apply add_error_raises_nothing|].
              intros; exact Logic.I.
           ++ right. right. exists n, c0. auto.
    + intros sent s' _.
      apply raises_only_bind; [apply sleep_raises_nothing|].
      intros; exact Logic.I.
  - specialize (Hc s). specialize (Hn s).
    destruct (c s); simpl in *; [contradiction|now left|exact Logic.I].
Qed.

Lemma send_loop_raises (c : M unit) d t b (n : nat) :
  (forall s, raises_only ends_the_loop (c s)) ->
  (forall s, match c s with Ret _ _ => False | _ => True end) ->
  forall sent a s, raises_only (from_send w) (send_loop cfg w n c d t b sent a s).
Proof.
  intros Hc Hn. induction n as [|n IH]; intros sent a s;
    rewrite send_loop_unfold;
    destruct (negb sent && (a <=? SEND_DATA_RETRIES)); try exact Logic.I.
  pose proof (@send_attempt_body_raises c d t b s Hc Hn) as Hb.
  destruct (send_attempt_body cfg w c d t b s); simpl in *; auto.
Qed.

Lemma send_data_raises (c : M unit) d t b (s : state) :
  (forall s, raises_only ends_the_loop (c s)) ->
  (forall s, match c s with Ret _ _ => False | _ => True end) ->
  raises_only (from_send w) (send_data cfg w c d t b s).
Proof.
  intros Hc Hn. unfold send_data.
  apply raises_only_bind; [apply send_loop_raises; assumption|].
  intros [|] s' _; [exact Logic.I|]. simpl. right. left. reflexivity.
Qed.

Lemma call_local_raises (d : payload) (s : state) :
  raises_only deadline (call_local w d s).
Proof.
  unfold call_local. destruct (expected (tick s)) as [_ [_ [_ [_ [H _]]]]].
  destruct (local_mitm_handler w (tick s) d) eqn:Hr; simpl; eauto.
Qed.

Lemma call_remote_raises (d : payload) (s : state) :
  raises_only deadline (call_remote w d s).
Proof.
  unfold call_remote. destruct (expected (tick s)) as [_ [_ [_ [_ [_ H]]]]].
  destruct (remote_mitm_handler w (tick s) d) eqn:Hr; simpl; eauto.
Qed.

Lemma guarded_send_raises (send : M unit) side (dest : state -> option addr)
      (s : state) :
  raises_only (from_send w) (send s) ->
  raises_only from_handler
    (try_except send is_OSError
       (fun e => s2 <- get ;; on_send_OSError cfg w side (dest s2) e) s).
Proof.
  intros Hs. apply raises_only_try_except with (P := from_send w); [exact Hs|].
  intros e s' He.
  assert (Hk : forall f, raises_only from_handler
                 (bind get (fun s2 => on_send_OSError cfg w side (dest s2)
                                        (ChildProcessError f)) s')).
  { intros f. simpl. now left. }
  destruct He as [[He|[He|[n He]]]|[He|[n [c [He Hc]]]]]; subst e;
    cbn [is_OSError]; try (now left); try apply Hk.
  unfold bind at 1, get. unfold on_send_OSError, errorcode_of.
  cbn [exn_errno]. rewrite Hc. unfold bind at 1, ret at 1.
  apply raises_only_bind.
  - eapply raises_only_weaken; [|apply call_local_raises].
    intros e He. now right.
  - intros; apply add_error_raises_nothing.
Qed.

Lemma handler_raises (send : payload -> option addr -> M unit)
      data from_addr (s : state) :
  (forall d t s, raises_only (from_send w) (send d t s)) ->
  raises_only from_handler (_main_mitm_handler cfg w send data from_addr s).
Proof.
  intros Hsend. unfold _main_mitm_handler.
  destruct data as [data|]; [|exact Logic.I].
  destruct from_addr as [a|]; [|exact Logic.I].
  apply raises_only_bind; [destruct (negb _); exact Logic.I|].
  intros _ s1 _. unfold bind at 1, get.
  destruct (opt_addr_eqb a (juicebox_addr s1)).
  - unfold forward_to_cloud. apply raises_only_bind.
    + eapply raises_only_weaken; [|apply call_local_raises].
      intros e He. now right.
    + intros d' s2 _. destruct (negb (ignore_remote cfg)); [|exact Logic.I].
      apply (@guarded_send_raises
               (send d' (Some (enelx_addr cfg))) "server"
               (fun _ => Some (enelx_addr cfg)) s2 (Hsend _ _ _)).
  - destruct (_ && _); [|exact Logic.I].
    unfold forward_to_device.
    destruct (negb (ignore_remote cfg)); [|exact Logic.I].
    apply raises_only_bind.
    + eapply raises_only_weaken; [|apply call_remote_raises].
      intros e He. now right.
    + intros d' s2 _. unfold bind at 1, get.
      apply (@guarded_send_raises
               (send d' (juicebox_addr s2)) "client"
               juicebox_addr s2 (Hsend _ _ _)).
Qed.

Lemma loop_ends_the_loop (fuel : nat) :
  forall s, raises_only ends_the_loop (_mitm_loop cfg w fuel s).
Proof.
  induction fuel as [|fuel IH]; intros s; [exact Logic.I|].
  simpl. unfold bind at 1, get.
  destruct (error_count s <? MAX_ERROR_COUNT cfg);
    [|simpl; right; right; eauto].
  pose proof (@connect_ends_the_loop (_mitm_loop cfg w fuel) IH) as Hc.
  pose proof (connect_never_returns cfg w (_mitm_loop cfg w fuel)) as Hn.
  destruct (dgram s).
  - apply raises_only_bind.
    + apply raises_only_try_except
        with (P := fun e => is_closed_or_timeout e = true).
      * unfold bind, dgram_recv, ret.
        destruct (expected (tick s)) as [_ [_ [_ [H _]]]].
        destruct (recv_result w (tick s)) eqn:Hr; simpl; auto.
      * intros e s' He. rewrite He.
        apply raises_only_bind; [apply add_error_raises_nothing|].
        intros; exact Logic.I.
    + intros [[data remote_addr]|] s1 _; [|apply IH].
      apply raises_only_bind; [|intros; apply IH].
      apply raises_only_try_except with (P := fun e => e = KeyError \/ e = TimeoutError).
      * unfold with_handler_timeout.
        match goal with
        | |- context [_main_mitm_handler cfg w ?snd data remote_addr s1] =>
            pose proof (@handler_raises snd data remote_addr s1) as Hh
        end.
        match type of Hh with
        | _ -> raises_only _ ?r => destruct r as [u s2|e s2|]
        end; try exact Logic.I.
        assert (He : from_handler e).
        { apply Hh. intros d t s3. apply send_data_raises; assumption. }
        destruct He as [He|[He|He]]; subst e; simpl; auto.
      * intros e s' [He|He]; subst e; cbn [is_TimeoutError].
        -- right. now left.
        -- apply raises_only_bind; [apply add_error_raises_nothing|].
           intros; exact Logic.I.
  - apply raises_only_bind; [apply add_error_raises_nothing|].
    intros _ s1 _. apply raises_only_bind; [apply Hc|]. intros; apply IH.
Qed.

(** X12.  In a world whose failures are those the code prepares for,
    the receive loop, and [start] with it, end in one of three ways
    only: the breaker failure, "unable to start", or the [KeyError] of
    the handler's [except OSError] clause.  In particular "unable to
    send" never leaves the loop, and neither does an error of the
    socket.  The handler itself raises only that [KeyError], or the
    deadline met in a transform. *)
Theorem what_ends_the_receive_loop (fuel : nat) (s : state) :
  raises_only ends_the_loop (_mitm_loop cfg w fuel s) /\
  raises_only ends_the_loop (start cfg w fuel s) /\
  forall data from_addr,
    raises_only from_handler
                (main_mitm_handler cfg w fuel data from_addr s).
Proof.
  split; [apply loop_ends_the_loop|]. split.
  - apply connect_ends_the_loop, loop_ends_the_loop.
  - intros data from_addr. apply handler_raises.
    intros d t s1. apply send_data_raises.
    + apply connect_ends_the_loop, loop_ends_the_loop.
    + apply connect_never_returns.
Qed.

End LoopExits.

Lemma what_ends_the_receive_loop_witness :
  expected_failures Scenarios.network_unreachable /\
  raises_only ends_the_loop
              (_mitm_loop Scenarios.cfg3 Scenarios.network_unreachable 30
                          Scenarios.socket_held).
Proof.
  assert (H : expected_failures Scenarios.network_unreachable).
  { intros k. split; [intros e He; discriminate|].
    split.
    { intros e He. injection He as <-. right. right.
      exists 101%Z, "ENETUNREACH"%string. split; reflexivity. }
    split; [reflexivity|].
    split; [intros e He; injection He as <-; reflexivity|].
    split; intros d e He; discriminate. }
  split; [exact H|].
  exact (proj1 (@what_ends_the_receive_loop
                  Scenarios.cfg3 Scenarios.network_unreachable H 30
                  Scenarios.socket_held)).
Defined.

(** ** Forwarding *)

Section Forwarding.

Open Scope list_scope.
Open Scope Z_scope.

Variable cfg : config.
Variable w : world.

Lemma send_data_goes_through_at_once
      (c : M unit) (d : payload) (t : option addr) (b : Z) (s : state) :
  dgram s <> None ->
  sending_lock s = false ->
  send_result w (tick s) = None ->
  sleep_result w (S (tick s)) = None ->
  send_data cfg w c d t b s =
  Ret tt (next_tick
            (log (ESleep (Z.max b 100))
                 (set_lock false (next_tick (log (ESend d t true) s))))).
Proof.
  intros Hd Hl Hs Hz.
  destruct s as [lk dg ja task ec el tk tr]. simpl in *. subst lk.
  destruct dg as [k|]; [|congruence].
  unfold send_data. change (Z.to_nat SEND_DATA_RETRIES) with 3%nat.
  unfold bind at 1. rewrite send_loop_unfold. cbn [negb andb].
  change (1 <=? SEND_DATA_RETRIES) with true. cbv iota.
  unfold send_attempt_body, transmit, wait_for_lock,
    deadline_passes_waiting, with_lock, try_except, dgram_send,
    sleep, bind, get, ret.
  cbn. rewrite Hs. cbn. rewrite andb_false_r. cbn.
  rewrite ?Hs. cbn. rewrite Hz. reflexivity.
Qed.

(** X13.  Device to cloud (lines 139-146).  A datagram from a host other
    than the cloud's, handled while the socket is held and the lock is
    free, is passed to the local transform, and what the transform
    returns is transmitted once, under the lock, to the cloud address;
    the source becomes the device address; the 0.1 s pause follows and
    the handler returns, with the fault record untouched. *)
Theorem device_traffic_is_forwarded_to_the_cloud
        (fuel : nat) (d d' : payload) (a : addr) (s : state) :
  ignore_remote cfg = false ->
  dgram s <> None ->
  sending_lock s = false ->
  String.eqb (fst a) (fst (enelx_addr cfg)) = false ->
  local_mitm_handler w (tick s) d = inl d' ->
  send_result w (S (tick s)) = None ->
  sleep_result w (S (S (tick s))) = None ->
  exists s',
    main_mitm_handler cfg w fuel (Some d) (Some a) s = Ret tt s' /\
    trace s' =
      trace s ++
      [ELocal d; ESend d' (Some (enelx_addr cfg)) true; ESleep 100] /\
    juicebox_addr s' = Some a /\
    dgram s' = dgram s /\
    sending_lock s' = false /\
    error_timestamp_list s' = error_timestamp_list s /\
    error_count s' = error_count s.
Proof.
  intros Hi Hd Hl Hh Hloc Hsend Hsleep.
  destruct s as [lk dg ja task ec el tk tr]. simpl in *. subst lk.
  destruct dg as [k|]; [|congruence].
  unfold main_mitm_handler, _main_mitm_handler. rewrite Hh. cbn [negb].
  unfold bind at 1. unfold modify at 1. unfold bind at 1, get at 1.
  cbn [juicebox_addr set_juicebox_addr opt_addr_eqb].
  rewrite addr_eqb_refl.
  unfold forward_to_cloud. rewrite Hi. cbn [negb].
  unfold bind at 1. unfold call_local at 1.
  cbn [tick set_juicebox_addr]. rewrite Hloc.
  unfold try_except, send_data_to.
  rewrite send_data_goes_through_at_once;
    [|simpl; congruence|reflexivity|exact Hsend|exact Hsleep].
  eexists. split; [reflexivity|]. cbn.
  rewrite <- !app_assoc. cbn.
  repeat split; reflexivity.
Qed.

(** X14.  Cloud to device (lines 157-161).  Once a device address is
    known, a datagram from the cloud address, handled while the socket
    is held and the lock is free, is passed to the remote transform, and
    what the transform returns is transmitted once, under the lock, to
    the device address; the device address stays as it was, the 0.1 s
    pause follows and the handler returns, with the fault record
    untouched. *)
Theorem cloud_traffic_is_forwarded_to_the_device
        (fuel : nat) (d d' : payload) (j : addr) (s : state) :
  ignore_remote cfg = false ->
  dgram s <> None ->
  sending_lock s = false ->
  juicebox_addr s = Some j ->
  String.eqb (fst j) (fst (enelx_addr cfg)) = false ->
  remote_mitm_handler w (tick s) d = inl d' ->
  send_result w (S (tick s)) = None ->
  sleep_result w (S (S (tick s))) = None ->
  exists s',
    main_mitm_handler cfg w fuel (Some d) (Some (enelx_addr cfg)) s
    = Ret tt s' /\
    trace s' =
      trace s ++ [ERemote d; ESend d' (Some j) true; ESleep 100] /\
    juicebox_addr s' = Some j /\
    dgram s' = dgram s /\
    sending_lock s' = false /\
    error_timestamp_list s' = error_timestamp_list s /\
    error_count s' = error_count s.
Proof.
  intros Hi Hd Hl Hj Hh Hrem Hsend Hsleep.
  destruct s as [lk dg ja task ec el tk tr]. simpl in *. subst lk ja.
  destruct dg as [k|]; [|congruence].
  unfold main_mitm_handler, _main_mitm_handler.
  rewrite String.eqb_refl. cbn [negb].
  unfold bind at 1. unfold ret at 1. unfold bind at 1, get at 1.
  cbn [juicebox_addr opt_addr_eqb]. unfold addr_eqb at 1.
  rewrite (String.eqb_sym (fst (enelx_addr cfg)) (fst j)), Hh.
  cbn [andb]. rewrite addr_eqb_refl.
  unfold forward_to_device. rewrite Hi. cbn [negb].
  unfold bind at 1. unfold call_remote at 1. cbn [tick]. rewrite Hrem.
  unfold bind at 1, get at 1. cbn [juicebox_addr next_tick log].
  unfold try_except, send_data_to.
  rewrite send_data_goes_through_at_once;
    [|simpl; congruence|reflexivity|exact Hsend|exact Hsleep].
  eexists. split; [reflexivity|]. cbn.
  rewrite <- !app_assoc. cbn.
  repeat split; reflexivity.
Qed.

End Forwarding.

Lemma device_traffic_is_forwarded_to_the_cloud_witness :
  exists s',
    main_mitm_handler Scenarios.cfg3 (Scenarios.calm Scenarios.seconds) 5
                      (Some Scenarios.hello) (Some Scenarios.device)
                      Scenarios.socket_held = Ret tt s' /\
    juicebox_addr s' = Some Scenarios.device.
Proof.
  destruct (@device_traffic_is_forwarded_to_the_cloud
              Scenarios.cfg3 (Scenarios.calm Scenarios.seconds) 5
              Scenarios.hello Scenarios.hello Scenarios.device
              Scenarios.socket_held
              eq_refl ltac:(discriminate) eq_refl eq_refl eq_refl eq_refl
              eq_refl)
    as [s' [H1 [_ [H3 _]]]].
  exists s'. split; [exact H1|exact H3].
Defined.

Lemma cloud_traffic_is_forwarded_to_the_device_witness :
  exists s',
    main_mitm_handler Scenarios.cfg3 (Scenarios.calm Scenarios.seconds) 5
                      (Some Scenarios.hello) (Some Scenarios.cloud)
                      Scenarios.device_known = Ret tt s' /\
    trace s' =
      [ERemote Scenarios.hello;
       ESend Scenarios.hello (Some Scenarios.device) true; ESleep 100%Z].
Proof.
  destruct (@cloud_traffic_is_forwarded_to_the_device
              Scenarios.cfg3 (Scenarios.calm Scenarios.seconds) 5
              Scenarios.hello Scenarios.hello Scenarios.device
              Scenarios.device_known
              eq_refl ltac:(discriminate) eq_refl eq_refl eq_refl eq_refl
              eq_refl eq_refl)
    as [s' [H1 [H2 _]]].
  exists s'. split; [exact H1|exact H2].
Defined.

(** ** The order of the fault list *)

Section TimeOrder.

Open Scope list_scope.
Open Scope Z_scope.

Variable cfg : config.
Variable w : world.

Hypothesis clock_is_monotone : clock_monotone w.

Lemma Forall_filter_kept (P : Z -> Prop) (p : Z -> bool) (l : list Z) :
  Forall P l -> Forall P (filter p l).
Proof.
  intros H. apply Forall_forall. intros x Hx.
  apply filter_In in Hx. destruct Hx as [Hx _].
  revert x Hx. now apply Forall_forall.
Qed.

Lemma ascending_snoc (l : list Z) (t : Z) :
  ascending l -> Forall (fun u => u <= t) l -> ascending (l ++ [t]).
Proof.
  induction l as [|a l IH]; simpl; intros Ha Hf.
  - split; [constructor|exact Logic.I].
  - destruct Ha as [Hal Ha]. inversion Hf as [|? ? Hat Hlt]; subst.
    split; [|auto]. apply Forall_app. split; [exact Hal|].
    constructor; [exact Hat|constructor].
Qed.

Lemma ascending_filter (p : Z -> bool) (l : list Z) :
  ascending l -> ascending (filter p l).
Proof.
  induction l as [|a l IH]; simpl; intros Ha; [exact Logic.I|].
  destruct Ha as [Hal Ha]. destruct (p a); simpl; auto.
  split; [apply Forall_filter_kept, Hal|auto].
Qed.

(** Pruning a list that is in order drops a prefix of it. *)
Lemma ascending_prune (c : Z) (l : list Z) :
  ascending l -> exists k, filter (fun el => c <? el) l = skipn k l.
Proof.
  induction l as [|a l IH]; simpl; intros Ha; [exists 0%nat; reflexivity|].
  destruct Ha as [Hal Ha]. destruct (c <? a) eqn:Hc.
  - exists 0%nat. simpl. f_equal.
    apply Z.ltb_lt in Hc. clear IH Ha.
    induction l as [|b l IH]; simpl; [reflexivity|].
    inversion Hal as [|? ? Hab Hl]; subst.
    assert (Hb : (c <? b) = true) by (apply Z.ltb_lt; lia).
    rewrite Hb. f_equal. apply IH, Hl.
  - destruct (IH Ha) as [k Hk]. exists (S k). exact Hk.
Qed.

Lemma in_time_order_add_error :
  inv (in_time_order w) no_exn_constraint (_add_error cfg w).
Proof.
  intros s [Ha Hf]. rewrite add_error_run. unfold in_time_order.
  cbn [okr error_timestamp_list tick]. split.
  - apply ascending_filter, ascending_snoc; assumption.
  - apply Forall_filter_kept, Forall_app. split.
    + eapply Forall_impl; [|exact Hf]. cbv beta. intros t Ht.
      assert (clock w (tick s) <= clock w (S (S (tick s))))
        by (apply clock_is_monotone; lia).
      lia.
    + constructor; [|constructor]. apply clock_is_monotone. lia.
Qed.

(** X15.  Under a clock that does not go backwards the fault list stays
    in the order of the clock, with no timestamp later than the clock's
    reading, through every call of the class; so what [_add_error]
    prunes is always a prefix of the list, the oldest faults. *)
Theorem faults_are_kept_in_time_order (fuel : nat) (s : state) :
  in_time_order w s ->
  every_run cfg w fuel s (in_time_order w) no_exn_constraint /\
  exists k s',
    _add_error cfg w s = Ret tt s' /\
    error_timestamp_list s' =
      skipn k (error_timestamp_list s ++ [clock w (tick s)]).
Proof.
  intros Hs. split.
  - apply field_kept; auto.
    + intros s0 [Ha Hf]. split; [exact Ha|].
      eapply Forall_impl; [|exact Hf]. cbv beta. intros t Ht.
      assert (clock w (tick s0) <= clock w (S (tick s0)))
        by (apply clock_is_monotone; lia).
      simpl. lia.
    + apply in_time_order_add_error.
  - destruct Hs as [Ha Hf].
    destruct (@ascending_prune
                (time_cutoff_of cfg (clock w (S (tick s))))
                (error_timestamp_list s ++ [clock w (tick s)]))
      as [k Hk].
    { apply ascending_snoc; assumption. }
    exists k. eexists. split; [apply add_error_run|]. exact Hk.
Qed.

End TimeOrder.

Lemma faults_are_kept_in_time_order_witness :
  clock_monotone (Scenarios.calm Scenarios.seconds) /\
  in_time_order (Scenarios.calm Scenarios.seconds) init_state /\
  every_run Scenarios.cfg3 (Scenarios.calm Scenarios.seconds) 20 init_state
            (in_time_order (Scenarios.calm Scenarios.seconds))
            no_exn_constraint.
Proof.
  assert (H : in_time_order (Scenarios.calm Scenarios.seconds) init_state).
  { split; [exact Logic.I|constructor]. }
  split; [exact seconds_monotone|]. split; [exact H|].
  exact (proj1 (@faults_are_kept_in_time_order
                  Scenarios.cfg3 (Scenarios.calm Scenarios.seconds)
                  seconds_monotone 20 init_state H)).
Defined.
